(** * PartitionAlloc: address pools, GigaCage, pool-offset freelist links and
      the scheduler-loop quarantine

    A shallow embedding of

    - [AddressPoolManager::Pool] ([address_pool_manager.cc]),
    - [PartitionAddressSpace] ([partition_address_space.h]),
    - [PoolOffsetFreelistEntry] ([pool_offset_freelist.h]),
    - [SchedulerLoopQuarantineBranch] ([scheduler_loop_quarantine.cc]),
    - [SchedulerLoopQuarantineRuntimeStats]
      ([scheduler_loop_quarantine_runtime_stats.cc]),

    followed by the properties of these operations.  [uintptr_t] and [size_t]
    are 64-bit ([static_assert(sizeof(size_t) >= 8)]): they are integers in
    [0, 2^64) and every operation that can leave that range is wrapped. *)

From Stdlib Require Import ZArith Lia Bool.
From stdpp Require Import base list gmap sets.

Local Open Scope Z_scope.
#[local] Set Warnings "-clear-no-such-hyp".

(** ** 64-bit machine words *)

Module Word.

Definition modulus : Z := 2 ^ 64.

Definition wrap64 (x : Z) : Z := x mod modulus.

(** [~x] on a 64-bit word. *)
Definition not64 (x : Z) : Z := wrap64 (Z.lnot x).

Definition is_u64 (x : Z) : Prop := 0 <= x < modulus.

(** Failing checks ([CHECK], [DCHECK], [NOTREACHED], an access out of range)
    stop the program: they are the [Abort] outcome.  [OutOfFuel] is the
    outcome of a loop of the model that was given too little fuel. *)
Inductive result (A : Type) : Type :=
| Ret (a : A)
| Abort
| OutOfFuel.

Arguments Ret {A} a.
Arguments Abort {A}.
Arguments OutOfFuel {A}.

#[global] Instance result_ret : MRet result := fun A a => Ret a.

#[global] Instance result_bind : MBind result := fun A B k m =>
  match m with
  | Ret a => k a
  | Abort => Abort
  | OutOfFuel => OutOfFuel
  end.

(** [DCHECK(c)] in a build whose [DCHECK_IS_ON()] is [on]. *)
Definition DCHECK (on : bool) (c : bool) : result unit :=
  if on && negb c then Abort else Ret tt.

(** [CHECK(c)]: checked in every build. *)
Definition CHECK (c : bool) : result unit :=
  if c then Ret tt else Abort.

End Word.

Import Word.

(** ** Super pages

    partition_alloc_constants.h is not among the sources: the super-page
    shift is a parameter of everything that uses these constants. *)

Module Constants.

Definition kSuperPageSize (kSuperPageShift : Z) : Z :=
  Z.shiftl 1 kSuperPageShift.

Definition kSuperPageOffsetMask (kSuperPageShift : Z) : Z :=
  kSuperPageSize kSuperPageShift - 1.

Definition kSuperPageBaseMask (kSuperPageShift : Z) : Z :=
  not64 (kSuperPageOffsetMask kSuperPageShift).

End Constants.

(** ** [PartitionAddressSpace] (partition_address_space.h) *)

Module AddressSpace.

Inductive pool_kind : Type := none | brp | non_brp | configurable.

(** [struct GigaCageSetup]; the padding is left out. *)
Record GigaCageSetup : Type := {
  non_brp_pool_base_address_ : Z;
  brp_pool_base_address_ : Z;
  configurable_pool_base_address_ : Z;
  non_brp_pool_ : Z;
  brp_pool_ : Z;
  configurable_pool_ : Z
}.

(** [PartitionAddressSpace::PoolInfo], as [pool_offset_freelist.h] uses it. *)
Record PoolInfo : Type := {
  handle : Z;
  base : Z;
  base_mask : Z;
  offset : Z
}.

Definition kGiB : Z := 1024 * 1024 * 1024.

(** Modelled from the spec: [bits::IsPowerOfTwo] of base/bits.h, which is
    not among the sources; the header asks it of every pool size in a
    [static_assert]. *)
Definition IsPowerOfTwo (x : Z) : Prop := exists n : Z, 0 <= n /\ x = 2 ^ n.

Section Defs.

(** [kPoolMaxSize] comes from partition_alloc_constants.h, the build flag
    from the build configuration and [kPtrTagMask] from tagging.h: none of
    them is among the sources, so they are parameters. *)
Variable kPoolMaxSize : Z.
Variable USE_BACKUP_REF_PTR : bool.
Variable DCHECK_IS_ON : bool.
Variable kPtrTagMask : Z.

Definition kNonBRPPoolSize : Z := kPoolMaxSize.
Definition kBRPPoolSize : Z := kPoolMaxSize.
Definition kConfigurablePoolSize : Z := 4 * kGiB.

Definition kNonBRPPoolOffsetMask : Z := wrap64 (kNonBRPPoolSize - 1).
Definition kNonBRPPoolBaseMask : Z := not64 kNonBRPPoolOffsetMask.
Definition kBRPPoolOffsetMask : Z := wrap64 (kBRPPoolSize - 1).
Definition kBRPPoolBaseMask : Z := not64 kBRPPoolOffsetMask.
Definition kConfigurablePoolOffsetMask : Z := wrap64 (kConfigurablePoolSize - 1).
Definition kConfigurablePoolBaseMask : Z := not64 kConfigurablePoolOffsetMask.

(** The default member initialisers of [GigaCageSetup]: the state of
    [setup_] before [PartitionAddressSpace::Init()]. *)
Definition setup_before_init : GigaCageSetup := {|
  non_brp_pool_base_address_ := kNonBRPPoolOffsetMask;
  brp_pool_base_address_ := kBRPPoolOffsetMask;
  configurable_pool_base_address_ := kConfigurablePoolOffsetMask;
  non_brp_pool_ := 0;
  brp_pool_ := 0;
  configurable_pool_ := 0
|}.

Definition IsInNonBRPPool (setup_ : GigaCageSetup) (address : Z) : bool :=
  Z.land address kNonBRPPoolBaseMask =? non_brp_pool_base_address_ setup_.

Definition IsInBRPPool (setup_ : GigaCageSetup) (address : Z) : bool :=
  Z.land address kBRPPoolBaseMask =? brp_pool_base_address_ setup_.

Definition IsInConfigurablePool (setup_ : GigaCageSetup) (address : Z) : bool :=
  Z.land address kConfigurablePoolBaseMask
  =? configurable_pool_base_address_ setup_.

Definition IsInitialized (setup_ : GigaCageSetup) : bool :=
  negb (non_brp_pool_ setup_ =? 0).

Definition IsConfigurablePoolInitialized (setup_ : GigaCageSetup) : bool :=
  negb (configurable_pool_base_address_ setup_ =? kConfigurablePoolOffsetMask).

(** [GetPoolAndOffset].  [PA_NOTREACHED()] is a debug check that fails:
    for an address of no pool the call stops in a build with debug checks,
    and in a build without them it goes on with [pool = 0] and [base = 0]
    and returns the handle [0] with the address itself. *)
Definition GetPoolAndOffset (setup_ : GigaCageSetup) (address : Z)
  : result (Z * Z) :=
  DCHECK DCHECK_IS_ON
    (USE_BACKUP_REF_PTR || negb (IsInBRPPool setup_ address));;
  '(pool, base) ←
    (if IsInNonBRPPool setup_ address then
       Ret (non_brp_pool_ setup_, non_brp_pool_base_address_ setup_)
     else if USE_BACKUP_REF_PTR && IsInBRPPool setup_ address then
       Ret (brp_pool_ setup_, brp_pool_base_address_ setup_)
     else if IsInConfigurablePool setup_ address then
       Ret (configurable_pool_ setup_, configurable_pool_base_address_ setup_)
     else
       DCHECK DCHECK_IS_ON false;;
       Ret (0, 0));
  Ret (pool, wrap64 (address - base)).

(** [IsManagedByPartitionAlloc], without its debug check. *)
Definition IsManagedByPartitionAlloc (setup_ : GigaCageSetup) (address : Z)
  : bool :=
  IsInNonBRPPool setup_ address
  || (USE_BACKUP_REF_PTR && IsInBRPPool setup_ address)
  || IsInConfigurablePool setup_ address.

(** Modelled from the spec: [cage::classify(addr)], the classifier of the
    specification; the sources only have the three membership tests and
    their callers.  It names the pool whose membership test accepts the
    address, and [none] when no test does. *)
Definition classify (setup_ : GigaCageSetup) (address : Z) : pool_kind :=
  if IsInNonBRPPool setup_ address then non_brp
  else if IsInBRPPool setup_ address then brp
  else if IsInConfigurablePool setup_ address then configurable
  else none.

(** Modelled from the spec: [UntagAddr] of tagging.h, which is not among the
    sources: the address without its memory-tag bits. *)
Definition UntagAddr (address : Z) : Z :=
  Z.land address (not64 kPtrTagMask).

(** Modelled from the spec: [PartitionAddressSpace::GetPoolInfo], declared in
    a later revision of partition_address_space.h than the one among the
    sources.  It is [GetPoolAndOffset] returning the base and the base mask
    of the pool as well; membership is decided on the address without its
    tag bits, and the offset is the offset of that address in the pool.
    [Abort] is [PA_NOTREACHED]: the address lies in no pool. *)
Definition GetPoolInfo (setup_ : GigaCageSetup) (address : Z)
  : result PoolInfo :=
  let address := UntagAddr address in
  if IsInNonBRPPool setup_ address then
    Ret {| handle := non_brp_pool_ setup_;
           base := non_brp_pool_base_address_ setup_;
           base_mask := kNonBRPPoolBaseMask;
           offset := wrap64 (address - non_brp_pool_base_address_ setup_) |}
  else if USE_BACKUP_REF_PTR && IsInBRPPool setup_ address then
    Ret {| handle := brp_pool_ setup_;
           base := brp_pool_base_address_ setup_;
           base_mask := kBRPPoolBaseMask;
           offset := wrap64 (address - brp_pool_base_address_ setup_) |}
  else if IsInConfigurablePool setup_ address then
    Ret {| handle := configurable_pool_ setup_;
           base := configurable_pool_base_address_ setup_;
           base_mask := kConfigurablePoolBaseMask;
           offset :=
             wrap64 (address - configurable_pool_base_address_ setup_) |}
  else Abort.

End Defs.

End AddressSpace.

(** ** [PoolOffsetFreelistEntry] (pool_offset_freelist.h) *)

Module Freelist.

Import AddressSpace.

(** The two words of an entry.  The shadow word is modelled as present
    ([PA_CONFIG(HAS_FREELIST_SHADOW_ENTRY)]): [ClearForAllocation] writes it in
    every configuration. *)
Record PoolOffsetFreelistEntry : Type := {
  next_ : Z;
  shadow_ : Z
}.

(** What [GetNextInternal] does: it returns a pointer ([0] is [nullptr]), or
    it calls [FreelistCorruptionDetected(slot_size)], which does not return,
    with [next_] and [shadow_] saved on the stack as "first" and "second". *)
Inductive get_next : Type :=
| returned (next : Z)
| FreelistCorruptionDetected (slot_size first second : Z).

Definition kNullptrOffset : Z := 0.

Section Defs.

(** The constants of partition_alloc_constants.h and tagging.h are not among
    the sources: they are parameters.  [setup_] is the static
    [PartitionAddressSpace::setup_]. *)
Variable kPoolMaxSize : Z.
Variable USE_BACKUP_REF_PTR : bool.
Variable DCHECK_IS_ON : bool.
Variable kPtrTagMask : Z.
Variable kSuperPageShift : Z.
Variable PartitionPageSize : Z.
Variable setup_ : GigaCageSetup.

Local Abbreviation kSuperPageOffsetMask :=
  (Constants.kSuperPageOffsetMask kSuperPageShift).
Local Abbreviation kSuperPageBaseMask :=
  (Constants.kSuperPageBaseMask kSuperPageShift).

(** Modelled from the spec: [SlotStartPtr2Addr] of tagging.h, which is not
    among the sources: the untagged address of a slot-start pointer. *)
Definition SlotStartPtr2Addr (ptr : Z) : Z := UntagAddr kPtrTagMask ptr.

Definition pool_info_of (address : Z) : result PoolInfo :=
  GetPoolInfo kPoolMaxSize USE_BACKUP_REF_PTR kPtrTagMask setup_ address.

Definition EncodeToOffset (ptr : Z) : result Z :=
  if ptr =? 0 then Ret kNullptrOffset
  else
    let addr := ptr in
    pool_info ← pool_info_of addr;
    let tagged_offset :=
      Z.land addr (Z.lor kPtrTagMask (not64 (base_mask pool_info))) in
    DCHECK DCHECK_IS_ON
      (tagged_offset =? Z.lor (offset pool_info) (Z.land addr kPtrTagMask));;
    Ret tagged_offset.

Definition DecodeFromOffset (tagged_offset : Z) (pool_info : PoolInfo)
  : result Z :=
  DCHECK DCHECK_IS_ON (negb (tagged_offset =? kNullptrOffset));;
  Ret (Z.lor (base pool_info) tagged_offset).

(** [PoolOffsetFreelistEntry(nullptr)]. *)
Definition entry_null : PoolOffsetFreelistEntry :=
  {| next_ := kNullptrOffset; shadow_ := not64 kNullptrOffset |}.

(** [PoolOffsetFreelistEntry(next)] and [SetNext(entry)], without the debug
    check of [SetNext] on super pages. *)
Definition entry_with_next (next : Z) : result PoolOffsetFreelistEntry :=
  encoded ← EncodeToOffset next;
  Ret {| next_ := encoded; shadow_ := not64 encoded |}.

Definition ClearForAllocation (e : PoolOffsetFreelistEntry)
  : PoolOffsetFreelistEntry :=
  {| next_ := 0; shadow_ := 0 |}.

Definition IsEncodedNextPtrZero (e : PoolOffsetFreelistEntry) : bool :=
  next_ e =? kNullptrOffset.

(** [here] is the address of the entry [e]; [next] is the decoded pointer. *)
Definition IsWellFormed (for_thread_cache : bool) (pool_info : PoolInfo)
    (here : Z) (e : PoolOffsetFreelistEntry) (next : Z) : bool :=
  let here_address := SlotStartPtr2Addr here in
  let next_address := SlotStartPtr2Addr next in
  let no_bit_in_pool_base_mask :=
    Z.land (next_ e) (base_mask pool_info) =? 0 in
  let not_in_metadata :=
    PartitionPageSize <=? Z.land next_address kSuperPageOffsetMask in
  let shadow_ptr_ok := not64 (next_ e) =? shadow_ e in
  if for_thread_cache then
    no_bit_in_pool_base_mask && shadow_ptr_ok && not_in_metadata
  else
    let same_super_page :=
      Z.land here_address kSuperPageBaseMask
      =? Z.land next_address kSuperPageBaseMask in
    no_bit_in_pool_base_mask && shadow_ptr_ok && same_super_page
    && not_in_metadata.

Definition GetNextInternal (crash_on_corruption for_thread_cache : bool)
    (here : Z) (e : PoolOffsetFreelistEntry) (slot_size : Z)
  : result get_next :=
  if IsEncodedNextPtrZero e then Ret (returned 0)
  else
    pool_info ← pool_info_of here;
    ret ← DecodeFromOffset (next_ e) pool_info;
    if negb (IsWellFormed for_thread_cache pool_info here e ret) then
      if crash_on_corruption then
        Ret (FreelistCorruptionDetected slot_size (next_ e) (shadow_ e))
      else Ret (returned 0)
    else Ret (returned ret).

Definition GetNextForThreadCache (crash_on_corruption : bool) :=
  GetNextInternal crash_on_corruption true.

Definition GetNext := GetNextInternal true false.

End Defs.

End Freelist.

(** ** [AddressPoolManager::Pool] (address_pool_manager.cc) *)

Module Pool.

Local Open Scope nat_scope.

(** [alloc_bitset_] is a [std::bitset<kMaxBits>]: the set of the positions
    of its set bits, all below [kMaxBits].  Bit positions are natural
    numbers: they stay below [total_bits_ + need_bits], which does not wrap
    in [size_t] ([need_bits] is a size shifted right by the super-page
    shift).  [address_end_] is a member with debug checks only, and is only
    read by them. *)
Record Pool : Type := {
  total_bits_ : nat;
  address_begin_ : Z;
  address_end_ : Z;
  bit_hint_ : nat;
  alloc_bitset_ : gset nat
}.

(** The calls of a client of one pool. *)
Inductive call : Type :=
| find_chunk (requested_size : Z)
| free_chunk (address size : Z).

Definition with_hint (p : Pool) (hint : nat) : Pool :=
  {| total_bits_ := total_bits_ p;
     address_begin_ := address_begin_ p;
     address_end_ := address_end_ p;
     bit_hint_ := hint;
     alloc_bitset_ := alloc_bitset_ p |}.

Definition with_bitset (p : Pool) (bits : gset nat) : Pool :=
  {| total_bits_ := total_bits_ p;
     address_begin_ := address_begin_ p;
     address_end_ := address_end_ p;
     bit_hint_ := bit_hint_ p;
     alloc_bitset_ := bits |}.

Section Defs.

(** [kSuperPageShift] (partition_alloc_constants.h) and [kMaxBits]
    (address_pool_manager.h) are not among the sources. *)
Variable kSuperPageShift : Z.
Variable kMaxBits : nat.
Variable DCHECK_IS_ON : bool.

Local Abbreviation kSuperPageSize := (Constants.kSuperPageSize kSuperPageShift).
Local Abbreviation kSuperPageOffsetMask :=
  (Constants.kSuperPageOffsetMask kSuperPageShift).

(** Modelled from the spec: [bits::Align] of base/bits.h, which is not among
    the sources: [size] rounded up to a multiple of the power of two
    [alignment], in [size_t] arithmetic. *)
Definition Align (size alignment : Z) : Z :=
  Z.land (wrap64 (size + alignment - 1)) (not64 (alignment - 1)).

(** [std::bitset::test], [set] and [reset] stop the program on a position
    that is out of range. *)
Definition test (bits : gset nat) (pos : nat) : result bool :=
  if pos <? kMaxBits then Ret (bool_decide (pos ∈ bits)) else Abort.

Definition set (bits : gset nat) (pos : nat) : result (gset nat) :=
  if pos <? kMaxBits then Ret ({[pos]} ∪ bits) else Abort.

Definition reset (bits : gset nat) (pos : nat) : result (gset nat) :=
  if pos <? kMaxBits then Ret (bits ∖ {[pos]}) else Abort.

(** The constructor. *)
Definition Pool_new (ptr length : Z) : result Pool :=
  let total_bits := Z.to_nat (length / kSuperPageSize) in
  CHECK (total_bits <=? kMaxBits);;
  CHECK (Z.land ptr kSuperPageOffsetMask =? 0)%Z;;
  CHECK (Z.land length kSuperPageOffsetMask =? 0)%Z;;
  DCHECK DCHECK_IS_ON (ptr <? wrap64 (ptr + length))%Z;;
  Ret {| total_bits_ := total_bits;
         address_begin_ := ptr;
         address_end_ := wrap64 (ptr + length);
         bit_hint_ := 0;
         alloc_bitset_ := ∅ |}.

(** The inner loop of [FindChunk],
    [for (; curr_bit < end_bit; ++curr_bit)], run for [n] more bits.  It
    returns [curr_bit], [beg_bit], [bit_hint_] and [found]. *)
Fixpoint scan (bits : gset nat) (n : nat)
    (curr_bit beg_bit bit_hint : nat) (found : bool)
  : result (nat * nat * nat * bool) :=
  match n with
  | O => Ret (curr_bit, beg_bit, bit_hint, found)
  | S n' =>
    b ← test bits curr_bit;
    if b : bool then
      scan bits n' (S curr_bit) (S curr_bit)
        (if bit_hint =? curr_bit then S bit_hint else bit_hint) false
    else scan bits n' (S curr_bit) beg_bit bit_hint found
  end.

(** [for (size_t i = beg_bit; i < end_bit; ++i)] of the found case, run for
    [n] more bits from [i]. *)
Fixpoint fill (bits : gset nat) (n : nat) (i : nat) : result (gset nat) :=
  match n with
  | O => Ret bits
  | S n' =>
    (if DCHECK_IS_ON then b ← test bits i; CHECK (negb b) else Ret tt);;
    bits' ← set bits i;
    fill bits' n' (S i)
  end.

(** The [while (true)] loop of [FindChunk]. *)
Fixpoint find_loop (fuel : nat) (p : Pool) (required_size : Z)
    (need_bits beg_bit curr_bit : nat) : result (Pool * Z) :=
  match fuel with
  | O => OutOfFuel
  | S fuel' =>
    let end_bit := beg_bit + need_bits in
    if total_bits_ p <? end_bit then Ret (p, 0%Z)
    else
      '(curr_bit', beg_bit', bit_hint', found) ←
        scan (alloc_bitset_ p) (end_bit - curr_bit) curr_bit beg_bit
          (bit_hint_ p) true;
      let p := with_hint p bit_hint' in
      if found : bool then
        bits ← fill (alloc_bitset_ p) (end_bit - beg_bit') beg_bit';
        let p := with_bitset p bits in
        let p :=
          if bit_hint_ p =? beg_bit' then with_hint p end_bit else p in
        let address :=
          wrap64 (address_begin_ p + Z.of_nat beg_bit' * kSuperPageSize) in
        DCHECK DCHECK_IS_ON
          (wrap64 (address + required_size) <=? address_end_ p)%Z;;
        Ret (p, address)
      else find_loop fuel' p required_size need_bits beg_bit' curr_bit'
  end.

(** [FindChunk]: the new state of the pool and the address, [0] when no
    chunk was found.  Every pass of the outer loop that does not return
    moves [curr_bit] forward, so [total_bits_ + 1] passes are enough. *)
Definition FindChunk (p : Pool) (requested_size : Z) : result (Pool * Z) :=
  let required_size := Align requested_size kSuperPageSize in
  let need_bits := Z.to_nat (Z.shiftr required_size kSuperPageShift) in
  find_loop (S (total_bits_ p)) p required_size need_bits
    (bit_hint_ p) (bit_hint_ p).

(** [for (size_t i = beg_bit; i < end_bit; ++i)] of [FreeChunk]. *)
Fixpoint clear (bits : gset nat) (n : nat) (i : nat) : result (gset nat) :=
  match n with
  | O => Ret bits
  | S n' =>
    (if DCHECK_IS_ON then b ← test bits i; CHECK b else Ret tt);;
    bits' ← reset bits i;
    clear bits' n' (S i)
  end.

Definition FreeChunk (p : Pool) (address free_size : Z) : result Pool :=
  DCHECK DCHECK_IS_ON (Z.land address kSuperPageOffsetMask =? 0)%Z;;
  let size := Align free_size kSuperPageSize in
  DCHECK DCHECK_IS_ON (address_begin_ p <=? address)%Z;;
  DCHECK DCHECK_IS_ON (wrap64 (address + size) <=? address_end_ p)%Z;;
  let beg_bit :=
    Z.to_nat (wrap64 (address - address_begin_ p) / kSuperPageSize) in
  let end_bit := beg_bit + Z.to_nat (size / kSuperPageSize) in
  bits ← clear (alloc_bitset_ p) (end_bit - beg_bit) beg_bit;
  Ret (with_hint (with_bitset p bits) (Nat.min (bit_hint_ p) beg_bit)).

(** *** What the properties of a pool are stated with *)

(** [ceil(size / super_page)]. *)
Definition super_pages (size : Z) : nat :=
  Z.to_nat ((size + kSuperPageSize - 1) / kSuperPageSize).

(** A request that can be rounded up to super pages within [size_t]. *)
Definition roundable (size : Z) : Prop :=
  (0 <= size /\ size + kSuperPageSize <= modulus)%Z.

(** The state of a pool that the constructor builds and that the two
    operations keep: the region is not at address [0] and ends within the
    address space, and no bit is set past [total_bits_]. *)
Definition pool_wf (p : Pool) : Prop :=
  total_bits_ p <= kMaxBits
  /\ bit_hint_ p <= total_bits_ p
  /\ (0 < address_begin_ p)%Z
  /\ (address_begin_ p mod kSuperPageSize = 0)%Z
  /\ (address_end_ p
      = address_begin_ p + Z.of_nat (total_bits_ p) * kSuperPageSize)%Z
  /\ (address_end_ p < modulus)%Z
  /\ (forall i, i ∈ alloc_bitset_ p -> i < total_bits_ p).

(** The address of the chunk that starts at bit [beg_bit]. *)
Definition chunk_address (p : Pool) (beg_bit : nat) : Z :=
  (address_begin_ p + Z.of_nat beg_bit * kSuperPageSize)%Z.

(** The bits of the chunk of [size] bytes at [address]. *)
Definition chunk_bits (p : Pool) (chunk : Z * Z) : gset nat :=
  set_seq (Z.to_nat ((chunk.1 - address_begin_ p) / kSuperPageSize))
    (super_pages chunk.2).

(** [bits] is the disjoint union of [ranges]. *)
Fixpoint covers (ranges : list (gset nat)) (bits : gset nat) : Prop :=
  match ranges with
  | [] => bits = ∅
  | r :: ranges' => r ⊆ bits /\ covers ranges' (bits ∖ r)
  end.

(** One call on a pool, together with the chunks that are live: the
    allocations, as pairs of an address and a size, that [FindChunk]
    returned and that were not freed since.  [free_chunk] releases a live
    chunk, with the size it was asked with. *)
Inductive step : Pool * list (Z * Z) -> call -> Pool * list (Z * Z) -> Prop :=
| step_find (p p' : Pool) (live : list (Z * Z)) (size address : Z) :
    FindChunk p size = Ret (p', address) ->
    address <> 0%Z ->
    step (p, live) (find_chunk size) (p', (address, size) :: live)
| step_find_fail (p p' : Pool) (live : list (Z * Z)) (size : Z) :
    FindChunk p size = Ret (p', 0%Z) ->
    step (p, live) (find_chunk size) (p', live)
| step_free (p p' : Pool) (live1 live2 : list (Z * Z)) (size address : Z) :
    FreeChunk p address size = Ret p' ->
    step (p, live1 ++ (address, size) :: live2) (free_chunk address size)
      (p', live1 ++ live2).

Inductive steps
  : Pool * list (Z * Z) -> list call -> Pool * list (Z * Z) -> Prop :=
| steps_nil (s : Pool * list (Z * Z)) : steps s [] s
| steps_cons (s1 s2 s3 : Pool * list (Z * Z)) (c : call) (cs : list call) :
    step s1 c s2 -> steps s2 cs s3 -> steps s1 (c :: cs) s3.

(** A live chunk is a run of the pool, for a size that can be rounded up. *)
Definition chunk_ok (p : Pool) (chunk : Z * Z) : Prop :=
  roundable chunk.2
  /\ exists b, chunk.1 = chunk_address p b
               /\ b + super_pages chunk.2 <= total_bits_ p.

(** What every call keeps: the pool is well formed and its bitmap is the
    disjoint union of the runs of the live chunks. *)
Definition pool_inv (s : Pool * list (Z * Z)) : Prop :=
  pool_wf s.1
  /\ Forall (chunk_ok s.1) s.2
  /\ covers (chunk_bits s.1 <$> s.2) (alloc_bitset_ s.1).

(** The calls as a program: [exec] makes one call and keeps the list of the
    live chunks, [run] makes a sequence of calls.  Freeing a chunk that is
    not live is not a call of the sequences considered: [Abort]. *)
Fixpoint remove_chunk (chunk : Z * Z) (live : list (Z * Z))
  : option (list (Z * Z)) :=
  match live with
  | [] => None
  | c :: live' =>
    if decide (chunk = c) then Some live'
    else cons c <$> remove_chunk chunk live'
  end.

Definition exec (s : Pool * list (Z * Z)) (c : call)
  : result (Pool * list (Z * Z)) :=
  match c with
  | find_chunk size =>
    '(p, address) ← FindChunk s.1 size;
    Ret (p, if (address =? 0)%Z then s.2 else (address, size) :: s.2)
  | free_chunk address size =>
    match remove_chunk (address, size) s.2 with
    | None => Abort
    | Some live =>
      p ← FreeChunk s.1 address size;
      Ret (p, live)
    end
  end.

Fixpoint run (s : Pool * list (Z * Z)) (calls : list call)
  : result (Pool * list (Z * Z)) :=
  match calls with
  | [] => Ret s
  | c :: calls' =>
    s' ← exec s c;
    run s' calls'
  end.

(** The sizes that a sequence of calls asks [FindChunk] for can all be
    rounded up. *)
Definition requests_roundable (calls : list call) : Prop :=
  Forall (fun c => match c with
                   | find_chunk size => roundable size
                   | free_chunk _ _ => True
                   end) calls.

End Defs.

End Pool.

(** ** [SchedulerLoopQuarantineBranch] (scheduler_loop_quarantine.cc) *)

Module Slq.

Record QuarantineSlot : Type := {
  slot_start : Z;
  usable_size : Z
}.

(** The counters of [SchedulerLoopQuarantineRoot], all [std::atomic_size_t].
    The model is sequential: one call runs at a time. *)
Record SchedulerLoopQuarantineRoot : Type := {
  size_in_bytes_ : Z;
  count_ : Z;
  cumulative_count_ : Z;
  cumulative_size_in_bytes_ : Z;
  quarantine_miss_count_ : Z
}.

(** Modelled from the spec: what the quarantine asks of the allocator root
    and of the slot-span metadata (partition_root.h and partition_page.h are
    not among the sources).  A slot span is the address of its metadata;
    [IsDirectMappedBucket] and [bucket_slot_size] read [slot_span->bucket],
    [FromSlotStart] and [FromObject] are the two static functions of
    [SlotSpanMetadata]. *)
Record PartitionRoot : Type := {
  IsDirectMappedBucket : Z -> bool;
  GetSlotUsableSize : Z -> Z;
  SlotStartToObject : Z -> Z;
  FromSlotStart : Z -> Z;
  FromObject : Z -> Z;
  bucket_slot_size : Z -> Z;
  brp_enabled : bool
}.

(** The calls by which a branch acts on the memory it holds, in the order
    in which they are made. *)
Inductive event : Type :=
| FreeNoHooksImmediate (object slot_span slot_start : Z)
| SecureMemset (object value size : Z)
| PreReleaseFromAllocator (slot_start slot_size : Z).

Definition kMaxFreeTimesPerPurge : nat := 1024.

(** [slots_.back()] with [slots_.pop_back()]. *)
Definition pop_back {A : Type} (l : list A) : option (list A * A) :=
  match rev l with
  | [] => None
  | x :: r => Some (rev r, x)
  end.

(** [std::swap(slots_[i], slots_.back())]. *)
Definition swap_with_back {A : Type} (l : list A) (i : nat) : list A :=
  match l !! i, last l with
  | Some x, Some y => <[i := y]> (<[pred (length l) := x]> l)
  | _, _ => l
  end.

Section Defs.

(** [base::InsecureRandomGenerator] (rand_util.h) is not among the sources:
    its state and [RandUint32] are parameters. *)
Variable Rng : Type.
Variable RandUint32 : Rng -> Z * Rng.

Variable allocator_root_ : PartitionRoot.
Variable DCHECKS_ARE_ON : bool.
Variable ENABLE_BACKUP_REF_PTR_SUPPORT : bool.
Variable kFreedByte : Z.

(** [to_be_freed_working_memory_] is [true] when the pointer is not null. *)
Record Branch : Type := {
  random_ : Rng;
  enable_quarantine_ : bool;
  enable_zapping_ : bool;
  leak_on_destruction_ : bool;
  pause_quarantine_ : Z;
  slots_ : list QuarantineSlot;
  branch_size_in_bytes_ : Z;
  branch_capacity_in_bytes_ : Z;
  to_be_freed_working_memory_ : bool
}.

(** A branch, the root it was configured with and the calls made so far. *)
Record State : Type := {
  branch : Branch;
  root_ : SchedulerLoopQuarantineRoot;
  events : list event
}.

Definition with_slots (st : State) (slots : list QuarantineSlot) (size : Z)
  : State :=
  let b := branch st in
  {| branch :=
       {| random_ := random_ b;
          enable_quarantine_ := enable_quarantine_ b;
          enable_zapping_ := enable_zapping_ b;
          leak_on_destruction_ := leak_on_destruction_ b;
          pause_quarantine_ := pause_quarantine_ b;
          slots_ := slots;
          branch_size_in_bytes_ := size;
          branch_capacity_in_bytes_ := branch_capacity_in_bytes_ b;
          to_be_freed_working_memory_ := to_be_freed_working_memory_ b |};
     root_ := root_ st;
     events := events st |}.

Definition with_random (st : State) (random : Rng) : State :=
  let b := branch st in
  {| branch :=
       {| random_ := random;
          enable_quarantine_ := enable_quarantine_ b;
          enable_zapping_ := enable_zapping_ b;
          leak_on_destruction_ := leak_on_destruction_ b;
          pause_quarantine_ := pause_quarantine_ b;
          slots_ := slots_ b;
          branch_size_in_bytes_ := branch_size_in_bytes_ b;
          branch_capacity_in_bytes_ := branch_capacity_in_bytes_ b;
          to_be_freed_working_memory_ := to_be_freed_working_memory_ b |};
     root_ := root_ st;
     events := events st |}.

Definition with_working_memory (st : State) (present : bool) : State :=
  let b := branch st in
  {| branch :=
       {| random_ := random_ b;
          enable_quarantine_ := enable_quarantine_ b;
          enable_zapping_ := enable_zapping_ b;
          leak_on_destruction_ := leak_on_destruction_ b;
          pause_quarantine_ := pause_quarantine_ b;
          slots_ := slots_ b;
          branch_size_in_bytes_ := branch_size_in_bytes_ b;
          branch_capacity_in_bytes_ := branch_capacity_in_bytes_ b;
          to_be_freed_working_memory_ := present |};
     root_ := root_ st;
     events := events st |}.

Definition with_capacity (st : State) (capacity : Z) : State :=
  let b := branch st in
  {| branch :=
       {| random_ := random_ b;
          enable_quarantine_ := enable_quarantine_ b;
          enable_zapping_ := enable_zapping_ b;
          leak_on_destruction_ := leak_on_destruction_ b;
          pause_quarantine_ := pause_quarantine_ b;
          slots_ := slots_ b;
          branch_size_in_bytes_ := branch_size_in_bytes_ b;
          branch_capacity_in_bytes_ := capacity;
          to_be_freed_working_memory_ := to_be_freed_working_memory_ b |};
     root_ := root_ st;
     events := events st |}.

Definition with_root (st : State) (root : SchedulerLoopQuarantineRoot)
  : State :=
  {| branch := branch st; root_ := root; events := events st |}.

Definition emit (st : State) (e : event) : State :=
  {| branch := branch st; root_ := root_ st; events := events st ++ [e] |}.

Local Abbreviation PA_DCHECK := (DCHECK DCHECKS_ARE_ON).

(** [allocator_root_->FreeNoHooksImmediate(object, slot_span, slot_start)]. *)
Definition free_immediate (st : State) (object slot_span slot_start : Z)
  : State :=
  emit st (FreeNoHooksImmediate object slot_span slot_start).

(** The statistics that [Quarantine] adds to the root for one entry. *)
Definition root_add_entry (r : SchedulerLoopQuarantineRoot) (usable_size : Z)
  : SchedulerLoopQuarantineRoot :=
  {| size_in_bytes_ := wrap64 (size_in_bytes_ r + usable_size);
     count_ := wrap64 (count_ r + 1);
     cumulative_count_ := wrap64 (cumulative_count_ r + 1);
     cumulative_size_in_bytes_ :=
       wrap64 (cumulative_size_in_bytes_ r + usable_size);
     quarantine_miss_count_ := quarantine_miss_count_ r |}.

(** [root_->size_in_bytes_.fetch_sub(freed_size_in_bytes)] and
    [root_->count_.fetch_sub(freed_count)]. *)
Definition root_sub_freed (r : SchedulerLoopQuarantineRoot)
    (freed_size_in_bytes freed_count : Z) : SchedulerLoopQuarantineRoot :=
  {| size_in_bytes_ := wrap64 (size_in_bytes_ r - freed_size_in_bytes);
     count_ := wrap64 (count_ r - freed_count);
     cumulative_count_ := cumulative_count_ r;
     cumulative_size_in_bytes_ := cumulative_size_in_bytes_ r;
     quarantine_miss_count_ := quarantine_miss_count_ r |}.

Definition root_add_miss (r : SchedulerLoopQuarantineRoot)
  : SchedulerLoopQuarantineRoot :=
  {| size_in_bytes_ := size_in_bytes_ r;
     count_ := count_ r;
     cumulative_count_ := cumulative_count_ r;
     cumulative_size_in_bytes_ := cumulative_size_in_bytes_ r;
     quarantine_miss_count_ := wrap64 (quarantine_miss_count_ r + 1) |}.

(** The loop of [PurgeInternal].  [slots_.back()] of an empty vector is a
    failing [PA_DCHECK] or undefined: [Abort].  The two [int64_t] sums are
    kept exact; they are wrapped when they are subtracted from the
    counters of the root. *)
Fixpoint PurgeInternal_loop (fuel : nat) (target_size_in_bytes : Z)
    (st : State) (freed_count freed_size_in_bytes : Z)
  : result (State * Z * Z) :=
  match fuel with
  | O => OutOfFuel
  | S fuel' =>
    if target_size_in_bytes <? branch_size_in_bytes_ (branch st) then
      match pop_back (slots_ (branch st)) with
      | None => Abort
      | Some (rest, to_free) =>
        let to_free_size := usable_size to_free in
        let slot_span := FromSlotStart allocator_root_ (slot_start to_free) in
        let object := SlotStartToObject allocator_root_ (slot_start to_free) in
        PA_DCHECK (slot_span =? FromObject allocator_root_ object);;
        PA_DCHECK (negb (slot_start to_free =? 0));;
        let st := free_immediate st object slot_span (slot_start to_free) in
        let st :=
          with_slots st rest
            (wrap64 (branch_size_in_bytes_ (branch st) - to_free_size)) in
        PurgeInternal_loop fuel' target_size_in_bytes st
          (freed_count + 1) (freed_size_in_bytes + to_free_size)
      end
    else Ret (st, freed_count, freed_size_in_bytes)
  end.

(** Every pass of the loop pops a slot: one more pass than there are slots
    is enough fuel. *)
Definition PurgeInternal (target_size_in_bytes : Z) (st : State)
  : result State :=
  '(st, freed_count, freed_size_in_bytes) ←
    PurgeInternal_loop (S (length (slots_ (branch st))))
      target_size_in_bytes st 0 0;
  Ret (with_root st
         (root_sub_freed (root_ st) freed_size_in_bytes freed_count)).

(** The loop of [PurgeInternalWithDefferedFree]; [to_be_freed] holds the
    [num_of_slots] entries written so far. *)
Fixpoint PurgeInternalWithDefferedFree_loop (fuel : nat)
    (target_size_in_bytes : Z) (st : State) (to_be_freed : list Z)
    (freed_size_in_bytes : Z) : result (State * list Z * Z) :=
  match fuel with
  | O => OutOfFuel
  | S fuel' =>
    if target_size_in_bytes <? branch_size_in_bytes_ (branch st) then
      match pop_back (slots_ (branch st)) with
      | None => Abort
      | Some (rest, to_free) =>
        let to_free_size := usable_size to_free in
        let to_be_freed := to_be_freed ++ [slot_start to_free] in
        let st :=
          with_slots st rest
            (wrap64 (branch_size_in_bytes_ (branch st) - to_free_size)) in
        let freed_size_in_bytes := freed_size_in_bytes + to_free_size in
        if (kMaxFreeTimesPerPurge <=? length to_be_freed)%nat then
          Ret (st, to_be_freed, freed_size_in_bytes)
        else
          PurgeInternalWithDefferedFree_loop fuel' target_size_in_bytes st
            to_be_freed freed_size_in_bytes
      end
    else Ret (st, to_be_freed, freed_size_in_bytes)
  end.

(** It returns the state and the filled part of [to_be_freed], whose length
    is [num_of_slots]. *)
Definition PurgeInternalWithDefferedFree (target_size_in_bytes : Z)
    (st : State) : result (State * list Z) :=
  '(st, to_be_freed, freed_size_in_bytes) ←
    PurgeInternalWithDefferedFree_loop (S (length (slots_ (branch st))))
      target_size_in_bytes st [] 0;
  Ret (with_root st
         (root_sub_freed (root_ st) freed_size_in_bytes
            (Z.of_nat (length to_be_freed))),
       to_be_freed).

Fixpoint BatchFree (st : State) (to_be_freed : list Z) : result State :=
  match to_be_freed with
  | [] => Ret st
  | slot_start :: rest =>
    PA_DCHECK (negb (slot_start =? 0));;
    let slot_span := FromSlotStart allocator_root_ slot_start in
    let object := SlotStartToObject allocator_root_ slot_start in
    PA_DCHECK (slot_span =? FromObject allocator_root_ object);;
    BatchFree (free_immediate st object slot_span slot_start) rest
  end.

Definition QuarantineEpilogue (st : State)
    (object slot_span slot_start usable_size : Z) : State :=
  let st :=
    if enable_zapping_ (branch st)
    then emit st (SecureMemset object kFreedByte usable_size)
    else st in
  if ENABLE_BACKUP_REF_PTR_SUPPORT && brp_enabled allocator_root_
  then emit st
         (PreReleaseFromAllocator slot_start
            (bucket_slot_size allocator_root_ slot_span))
  else st.

(** The part that the two specialisations of [Quarantine] share: the entry is
    put onto the list and swapped with a random one. *)
Definition push_and_shuffle (st : State) (slot_start usable_size : Z)
  : State :=
  let st :=
    with_slots st
      (slots_ (branch st)
       ++ [{| slot_start := slot_start; usable_size := usable_size |}])
      (wrap64 (branch_size_in_bytes_ (branch st) + usable_size)) in
  let '(r, random) := RandUint32 (random_ (branch st)) in
  let st := with_random st random in
  let random_index :=
    Z.to_nat (r mod Z.of_nat (length (slots_ (branch st)))) in
  with_slots st (swap_with_back (slots_ (branch st)) random_index)
    (branch_size_in_bytes_ (branch st)).

(** [SchedulerLoopQuarantineBranch<true>::Quarantine]. *)
Definition Quarantine_thread_bound (st : State)
    (object slot_span slot_start usable_size : Z) : result State :=
  if negb (enable_quarantine_ (branch st))
     || negb (pause_quarantine_ (branch st) =? 0)
     || IsDirectMappedBucket allocator_root_ slot_span
  then Ret (free_immediate st object slot_span slot_start)
  else
    PA_DCHECK (usable_size =? GetSlotUsableSize allocator_root_ slot_span);;
    let capacity_in_bytes := branch_capacity_in_bytes_ (branch st) in
    if capacity_in_bytes <? usable_size then
      let st := free_immediate st object slot_span slot_start in
      Ret (with_root st (root_add_miss (root_ st)))
    else
      st ← PurgeInternal (capacity_in_bytes - usable_size) st;
      let st := push_and_shuffle st slot_start usable_size in
      let st := with_root st (root_add_entry (root_ st) usable_size) in
      Ret (QuarantineEpilogue st object slot_span slot_start usable_size).

(** [SchedulerLoopQuarantineBranch<false>::Quarantine].  The working memory
    is borrowed (or allocated when it is in use) and given back at the
    end. *)
Definition Quarantine_shared (st : State)
    (object slot_span slot_start usable_size : Z) : result State :=
  if negb (enable_quarantine_ (branch st))
     || negb (pause_quarantine_ (branch st) =? 0)
     || IsDirectMappedBucket allocator_root_ slot_span
  then Ret (free_immediate st object slot_span slot_start)
  else
    PA_DCHECK (usable_size =? GetSlotUsableSize allocator_root_ slot_span);;
    let capacity_in_bytes := branch_capacity_in_bytes_ (branch st) in
    if capacity_in_bytes <? usable_size then
      let st := free_immediate st object slot_span slot_start in
      Ret (with_root st (root_add_miss (root_ st)))
    else
      let st := with_working_memory st false in
      '(st, to_be_freed) ←
        PurgeInternalWithDefferedFree (capacity_in_bytes - usable_size) st;
      let st := push_and_shuffle st slot_start usable_size in
      st ← BatchFree st to_be_freed;
      let st := with_working_memory st true in
      let st := with_root st (root_add_entry (root_ st) usable_size) in
      Ret (QuarantineEpilogue st object slot_span slot_start usable_size).

Definition Quarantine (thread_bound : bool) :=
  if thread_bound then Quarantine_thread_bound else Quarantine_shared.

(** [Purge]; [shrink_to_fit] does not change the contents of the vector. *)
Definition Purge (st : State) : result State := PurgeInternal 0 st.

Definition SetCapacityInBytes (st : State) (capacity_in_bytes : Z) : State :=
  with_capacity st capacity_in_bytes.

(** *** What the properties of a branch are stated with *)

(** The bytes that a list of entries holds. *)
Definition sum_sizes (slots : list QuarantineSlot) : Z :=
  foldr (fun s acc => usable_size s + acc) 0 slots.

(** The call that frees the entry of a slot. *)
Definition free_of (slot_start : Z) : event :=
  FreeNoHooksImmediate (SlotStartToObject allocator_root_ slot_start)
    (FromSlotStart allocator_root_ slot_start) slot_start.

(** The two debug checks that freeing an entry makes: its slot start is not
    null, and the allocator finds the same slot span from the slot start as
    from the object. *)
Definition slot_checked (slot_start : Z) : Prop :=
  DCHECKS_ARE_ON = true ->
  slot_start <> 0
  /\ FromSlotStart allocator_root_ slot_start
     = FromObject allocator_root_ (SlotStartToObject allocator_root_ slot_start).

(** The state of a branch between two calls: [branch_size_in_bytes_] is the
    sum of the sizes of the entries, sizes and capacity are [size_t] values,
    and the entries pass the debug checks of a free. *)
Definition branch_wf (st : State) : Prop :=
  branch_size_in_bytes_ (branch st) = sum_sizes (slots_ (branch st))
  /\ Forall (fun s => 0 <= usable_size s) (slots_ (branch st))
  /\ is_u64 (branch_size_in_bytes_ (branch st))
  /\ is_u64 (branch_capacity_in_bytes_ (branch st))
  /\ Forall (fun s => slot_checked (slot_start s)) (slots_ (branch st)).

End Defs.

Arguments random_ {Rng} _.
Arguments enable_quarantine_ {Rng} _.
Arguments enable_zapping_ {Rng} _.
Arguments leak_on_destruction_ {Rng} _.
Arguments pause_quarantine_ {Rng} _.
Arguments slots_ {Rng} _.
Arguments branch_size_in_bytes_ {Rng} _.
Arguments branch_capacity_in_bytes_ {Rng} _.
Arguments to_be_freed_working_memory_ {Rng} _.
Arguments branch {Rng} _.
Arguments root_ {Rng} _.
Arguments events {Rng} _.

End Slq.

(** ** [SchedulerLoopQuarantineRuntimeStats]
       (scheduler_loop_quarantine_runtime_stats.cc) *)

Module RuntimeStats.

Definition kMaxTimesToTrack : nat := 1024.

(** [struct BucketStats].  The [int] and [int64_t] members are signed: their
    overflow is undefined, and they are kept exact. *)
Record BucketStats : Type := {
  paused_ : Z;
  cycled_ : Z;
  valid_ : bool;
  idx_ : nat;
  reported_idx_ : nat;
  sum_ns_ : Z;
  average_ns_ : Z;
  bucket_times_ : list Z
}.

(** The default member initialisers. *)
Definition BucketStats_default : BucketStats := {|
  paused_ := 0;
  cycled_ := 0;
  valid_ := false;
  idx_ := 0;
  reported_idx_ := kMaxTimesToTrack - 1;
  sum_ns_ := 0;
  average_ns_ := 0;
  bucket_times_ := replicate kMaxTimesToTrack 0
|}.

Definition Reset (b : BucketStats) : BucketStats := {|
  paused_ := paused_ b;
  cycled_ := cycled_ b;
  valid_ := false;
  idx_ := 0;
  reported_idx_ := kMaxTimesToTrack - 1;
  sum_ns_ := 0;
  average_ns_ := 0;
  bucket_times_ := bucket_times_ b
|}.

Definition Reported (b : BucketStats) : BucketStats :=
  if valid_ b then
    {| paused_ := 0;
       cycled_ := 0;
       valid_ := valid_ b;
       idx_ := idx_ b;
       reported_idx_ := idx_ b;
       sum_ns_ := sum_ns_ b;
       average_ns_ := average_ns_ b;
       bucket_times_ := bucket_times_ b |}
  else b.

Definition IncreasePaused (b : BucketStats) : BucketStats := {|
  paused_ := paused_ b + 1;
  cycled_ := cycled_ b;
  valid_ := valid_ b;
  idx_ := idx_ b;
  reported_idx_ := reported_idx_ b;
  sum_ns_ := sum_ns_ b;
  average_ns_ := average_ns_ b;
  bucket_times_ := bucket_times_ b
|}.

(** [bucket_times_[idx_]] is in range: [idx_] starts at [0] and goes back to
    [0] after [bucket_times_.size() - 1].  In [sum_ns_ / kMaxTimesToTrack]
    the divisor is a [size_t]: the [int64_t] sum is converted to the
    unsigned 64-bit type and the division is the unsigned one; its quotient
    is below [2^54] and is stored in the [int64_t] as it is. *)
Definition RecordValue (b : BucketStats) (value_ns : Z) : BucketStats :=
  let sum_ns :=
    sum_ns_ b + (if value_ns =? 0 then 1 else value_ns)
    - (if valid_ b then default 0 (bucket_times_ b !! idx_ b) else 0) in
  let bucket_times := <[idx_ b := value_ns]> (bucket_times_ b) in
  let hit := (idx_ b =? reported_idx_ b)%nat in
  let valid := if hit then true else valid_ b in
  let cycled := if hit then cycled_ b + 1 else cycled_ b in
  let idx :=
    if (idx_ b =? length bucket_times - 1)%nat then O else S (idx_ b) in
  {| paused_ := paused_ b;
     cycled_ := cycled;
     valid_ := valid;
     idx_ := idx;
     reported_idx_ := reported_idx_ b;
     sum_ns_ := sum_ns;
     average_ns_ :=
       if valid then wrap64 sum_ns / Z.of_nat kMaxTimesToTrack
       else average_ns_ b;
     bucket_times_ := bucket_times |}.

(** Modelled from the spec: [base::TimeTicks] and [base::TimeDelta] of
    partition_alloc_base/time/time.h, which is not among the sources: a
    point in time and a duration, as their tick counts.  The null
    [TimeTicks] and the zero [TimeDelta] are [0], and their sums and
    differences are kept exact. *)
Definition TimeTicks : Type := Z.
Definition TimeDelta : Type := Z.

Record SchedulerLoopQuarantineRuntimeStats : Type := {
  initialized_ : bool;
  max_above_avg_zap_delta_ : TimeDelta;
  long_zap_pause_delta_ : TimeDelta;
  pause_until_ : TimeTicks;
  zap_buckets_ : list BucketStats;
  purge_buckets_ : list BucketStats;
  total_time_buckets_ : list BucketStats
}.

(** The default member initialisers. *)
Definition stats_default : SchedulerLoopQuarantineRuntimeStats := {|
  initialized_ := false;
  max_above_avg_zap_delta_ := 0;
  long_zap_pause_delta_ := 0;
  pause_until_ := 0;
  zap_buckets_ := [];
  purge_buckets_ := [];
  total_time_buckets_ := []
|}.

(** [buckets[bucket_index].f(...)]; an index out of range is undefined. *)
Definition at_bucket (buckets : list BucketStats) (bucket_index : nat)
    (f : BucketStats -> BucketStats) : result (list BucketStats) :=
  match buckets !! bucket_index with
  | Some b => Ret (<[bucket_index := f b]> buckets)
  | None => Abort
  end.

Definition read_bucket (buckets : list BucketStats) (bucket_index : nat)
  : result BucketStats :=
  match buckets !! bucket_index with
  | Some b => Ret b
  | None => Abort
  end.

Section Defs.

(** [BucketIndexLookup::kNumBuckets] (bucket_lookup.h), the conversions
    [TimeDelta::InNanoseconds] and [base::Nanoseconds] (time.h) and the build
    flag are not among the sources. *)
Variable kNumBuckets : nat.
Variable InNanoseconds : TimeDelta -> Z.
Variable Nanoseconds : Z -> TimeDelta.
Variable DCHECKS_ARE_ON : bool.

Local Abbreviation PA_DCHECK := (DCHECK DCHECKS_ARE_ON).

Definition with_buckets (st : SchedulerLoopQuarantineRuntimeStats)
    (zap purge total : list BucketStats)
  : SchedulerLoopQuarantineRuntimeStats :=
  {| initialized_ := initialized_ st;
     max_above_avg_zap_delta_ := max_above_avg_zap_delta_ st;
     long_zap_pause_delta_ := long_zap_pause_delta_ st;
     pause_until_ := pause_until_ st;
     zap_buckets_ := zap;
     purge_buckets_ := purge;
     total_time_buckets_ := total |}.

Definition with_pause_until (st : SchedulerLoopQuarantineRuntimeStats)
    (pause_until : TimeTicks) : SchedulerLoopQuarantineRuntimeStats :=
  {| initialized_ := initialized_ st;
     max_above_avg_zap_delta_ := max_above_avg_zap_delta_ st;
     long_zap_pause_delta_ := long_zap_pause_delta_ st;
     pause_until_ := pause_until;
     zap_buckets_ := zap_buckets_ st;
     purge_buckets_ := purge_buckets_ st;
     total_time_buckets_ := total_time_buckets_ st |}.

Definition AddStats (st : SchedulerLoopQuarantineRuntimeStats)
    (bucket_index : nat)
    (quarantine_start purge_start zap_start quarantine_end : TimeTicks)
  : result SchedulerLoopQuarantineRuntimeStats :=
  if negb (initialized_ st) then Ret st
  else
    PA_DCHECK (negb (quarantine_start =? 0));;
    PA_DCHECK (negb (quarantine_end =? 0));;
    total ←
      at_bucket (total_time_buckets_ st) bucket_index
        (fun b => RecordValue b
                    (InNanoseconds (quarantine_end - quarantine_start)));
    zap_bucket ← read_bucket (zap_buckets_ st) bucket_index;
    let average_ns := average_ns_ zap_bucket in
    '(zap_time, zap, purge) ←
      (if negb (zap_start =? 0) then
         PA_DCHECK (negb (purge_start =? 0));;
         let zap_time := quarantine_end - zap_start in
         purge ←
           at_bucket (purge_buckets_ st) bucket_index
             (fun b => RecordValue b (InNanoseconds (zap_start - purge_start)));
         zap ←
           at_bucket (zap_buckets_ st) bucket_index
             (fun b => RecordValue b (InNanoseconds zap_time));
         Ret (zap_time, zap, purge)
       else if negb (purge_start =? 0) then
         purge ←
           at_bucket (purge_buckets_ st) bucket_index
             (fun b =>
                RecordValue b (InNanoseconds (quarantine_end - purge_start)));
         Ret (0, zap_buckets_ st, purge)
       else Ret (0, zap_buckets_ st, purge_buckets_ st));
    let st := with_buckets st zap purge total in
    let should_pause_on_long_zap :=
      negb (max_above_avg_zap_delta_ st =? 0) && negb (zap_time =? 0) in
    zap_bucket ← read_bucket (zap_buckets_ st) bucket_index;
    if negb (valid_ zap_bucket) || negb should_pause_on_long_zap then Ret st
    else if max_above_avg_zap_delta_ st <? zap_time - Nanoseconds average_ns
    then
      PA_DCHECK (negb (long_zap_pause_delta_ st =? 0));;
      let st := with_pause_until st (quarantine_end + long_zap_pause_delta_ st) in
      zap ← at_bucket (zap_buckets_ st) bucket_index IncreasePaused;
      Ret (with_buckets st zap (purge_buckets_ st) (total_time_buckets_ st))
    else Ret st.

Definition InitOrResetStats (st : SchedulerLoopQuarantineRuntimeStats)
    (pause_delay max_above_avg_zap_delta : TimeDelta)
  : SchedulerLoopQuarantineRuntimeStats :=
  let '(zap, purge, total) :=
    if negb (initialized_ st) then
      (resize kNumBuckets BucketStats_default (zap_buckets_ st),
       resize kNumBuckets BucketStats_default (purge_buckets_ st),
       resize kNumBuckets BucketStats_default (total_time_buckets_ st))
    else
      (Reset <$> zap_buckets_ st,
       Reset <$> purge_buckets_ st,
       Reset <$> total_time_buckets_ st) in
  {| initialized_ := true;
     max_above_avg_zap_delta_ := max_above_avg_zap_delta;
     long_zap_pause_delta_ := pause_delay;
     pause_until_ := pause_until_ st;
     zap_buckets_ := zap;
     purge_buckets_ := purge;
     total_time_buckets_ := total |}.

Definition ShouldPause (st : SchedulerLoopQuarantineRuntimeStats)
    (start : TimeTicks) : bool :=
  if negb (initialized_ st) || (pause_until_ st =? 0) || (start =? 0)
  then false
  else start <? pause_until_ st.

Definition ReportedStats (st : SchedulerLoopQuarantineRuntimeStats)
  : SchedulerLoopQuarantineRuntimeStats :=
  if negb (initialized_ st) then st
  else
    with_buckets st (Reported <$> zap_buckets_ st)
      (Reported <$> purge_buckets_ st)
      (Reported <$> total_time_buckets_ st).

End Defs.

End RuntimeStats.

(** ** [AddressPoolManager] (address_pool_manager.cc) *)

Module AddressPoolManager.

Import Pool.

Local Open Scope nat_scope.

(** [pools_] is an array of [kNumPools] [std::unique_ptr<Pool>]: a list of
    that length whose null pointers are [None].  [first_free pools_ i] is the
    loop of [Add] over the rest [pools_] of the array, whose first index is
    [i]: it stops at the first null pointer. *)
Fixpoint first_free (pools_ : list (option Pool)) (i : nat) : option nat :=
  match pools_ with
  | [] => None
  | None :: _ => Some i
  | Some _ :: pools' => first_free pools' (S i)
  end.

(** [ResetForTesting]. *)
Definition ResetForTesting (pools_ : list (option Pool))
  : list (option Pool) :=
  (fun _ => None) <$> pools_.

Section Defs.

(** [kNumPools] (address_pool_manager.h) is not among the sources. *)
Variable kSuperPageShift : Z.
Variable kMaxBits : nat.
Variable kNumPools : nat.
Variable DCHECK_IS_ON : bool.
Variable out_of_range : option Pool.

Local Abbreviation kSuperPageOffsetMask :=
  (Constants.kSuperPageOffsetMask kSuperPageShift).

(** The array of a manager that was just constructed. *)
Definition pools_new : list (option Pool) := replicate kNumPools None.

(** [Add]: the new array and the handle.  [NOTREACHED()] is a debug check
    that fails; without debug checks the call goes on and returns [0]. *)
Definition Add (pools_ : list (option Pool)) (ptr length : Z)
  : result (list (option Pool) * nat) :=
  DCHECK DCHECK_IS_ON (Z.land ptr kSuperPageOffsetMask =? 0)%Z;;
  DCHECK DCHECK_IS_ON
    (Z.land (wrap64 (ptr + length)) kSuperPageOffsetMask =? 0)%Z;;
  match first_free pools_ 0 with
  | Some i =>
    pool ← Pool_new kSuperPageShift kMaxBits DCHECK_IS_ON ptr length;
    Ret (<[i := Some pool]> pools_, S i)
  | None =>
    DCHECK DCHECK_IS_ON false;;
    Ret (pools_, 0)
  end.

(** [Remove].  The handle is checked by a debug check only; for the handle
    [0], where [handle - 1] wraps around, or a handle above [kNumPools],
    [pools_[handle - 1]] is outside the array, which is undefined behaviour:
    the array itself is left as it is. *)
Definition Remove (pools_ : list (option Pool)) (handle : nat)
  : result (list (option Pool)) :=
  DCHECK DCHECK_IS_ON ((0 <? handle) && (handle <=? kNumPools));;
  Ret (match handle with
       | O => pools_
       | S i => <[i := None]> pools_
       end).

(** [GetPool]: the pointer that it returns, [None] for the null pointer.
    [DCHECK(pool)] is a debug check only: in a build without debug checks
    the null pointer of an empty slot is returned.  [pools_[handle - 1]]
    for the handle [0], where [handle - 1] wraps around, or for a handle
    above [kNumPools], is a read outside the array, which is undefined
    behaviour: what is read there is not determined by the program, it is
    the parameter [out_of_range]. *)
Definition GetPool (pools_ : list (option Pool)) (handle : nat)
  : result (option Pool) :=
  DCHECK DCHECK_IS_ON ((0 <? handle) && (handle <=? kNumPools));;
  let pool :=
    match handle with
    | O => out_of_range
    | S i => default out_of_range (pools_ !! i)
    end in
  DCHECK DCHECK_IS_ON (bool_decide (is_Some pool));;
  Ret pool.

(** The pool object behind a handle after a member function changed it;
    an object outside the array is not part of [pools_]. *)
Definition store (pools_ : list (option Pool)) (handle : nat) (pool : Pool)
  : list (option Pool) :=
  match handle with
  | O => pools_
  | S i => <[i := Some pool]> pools_
  end.

(** [Alloc]: the array with the pool as [FindChunk] left it, and the
    address.  [pool->FindChunk(length)] through the null pointer reads the
    members of no object: [Abort]. *)
Definition Alloc (pools_ : list (option Pool)) (handle : nat) (length : Z)
  : result (list (option Pool) * Z) :=
  pool ← GetPool pools_ handle;
  match pool with
  | Some pool =>
    '(pool, address) ←
      FindChunk kSuperPageShift kMaxBits DCHECK_IS_ON pool length;
    Ret (store pools_ handle pool, address)
  | None => Abort
  end.

Definition Free (pools_ : list (option Pool)) (handle : nat) (ptr length : Z)
  : result (list (option Pool)) :=
  pool ← GetPool pools_ handle;
  match pool with
  | Some pool =>
    pool ← FreeChunk kSuperPageShift kMaxBits DCHECK_IS_ON pool ptr length;
    Ret (store pools_ handle pool)
  | None => Abort
  end.

End Defs.

(** *** What the search of [FindChunk] is stated with *)

(** The [n] bits from [b] on lie in the pool and are clear. *)
Definition free_run (p : Pool) (b n : nat) : Prop :=
  b + n <= total_bits_ p /\ forall i, b <= i < b + n -> i ∉ alloc_bitset_ p.

(** "We know there are no free chunks before [bit_hint_]": every bit below
    the hint is set. *)
Definition hint_sound (p : Pool) : Prop :=
  forall i, i < bit_hint_ p -> i ∈ alloc_bitset_ p.

End AddressPoolManager.

(** ** [PartitionAddressSpace::Init] (partition_address_space.cc)

    partition_address_space.cc implements an earlier revision of the class
    than the header among the sources declares: one reserved region, with a
    direct-map pool and a normal-bucket pool inside it. *)

Module AddressSpaceInit.

Import Pool AddressPoolManager.

(** The static members of that revision. *)
Record PartitionAddressSpace : Type := {
  reserved_address_start_ : Z;
  reserved_base_address_ : Z;
  direct_map_pool_ : nat;
  normal_bucket_pool_ : nat
}.

Section Defs.

(** The constants of the header of that revision are not among the
    sources. *)
Variable kSuperPageShift : Z.
Variable kMaxBits : nat.
Variable DCHECK_IS_ON : bool.
Variable kReservedAddressSpaceAlignment : Z.
Variable kReservedAddressSpaceSize : Z.
Variable kDirectMapPoolSize : Z.
Variable kNormalBucketPoolSize : Z.
Variable kDesiredAddressSpaceSize : Z.
Variable kReservedAddressSpaceOffsetMask : Z.

Local Abbreviation Add :=
  (AddressPoolManager.Add kSuperPageShift kMaxBits DCHECK_IS_ON).

(** The initialisers of the static members. *)
Definition before_Init : PartitionAddressSpace := {|
  reserved_address_start_ := 0;
  reserved_base_address_ := kReservedAddressSpaceOffsetMask;
  direct_map_pool_ := 0;
  normal_bucket_pool_ := 0
|}.

(** [Init()] on the static members [s] and the array of the pool manager.
    [SystemAllocPages] is the address that the call of that name returns
    for [kReservedAddressSpaceSize] bytes, [0] when it fails. *)
Definition Init (SystemAllocPages : Z) (s : PartitionAddressSpace)
    (pools_ : list (option Pool))
  : result (PartitionAddressSpace * list (option Pool)) :=
  DCHECK DCHECK_IS_ON (reserved_address_start_ s =? 0);;
  let reserved_address_start := SystemAllocPages in
  CHECK (negb (reserved_address_start =? 0));;
  let reserved_address_end :=
    wrap64 (reserved_address_start + kReservedAddressSpaceSize) in
  let reserved_base_address :=
    Align reserved_address_start kReservedAddressSpaceAlignment in
  DCHECK DCHECK_IS_ON (reserved_address_start <=? reserved_base_address);;
  DCHECK DCHECK_IS_ON
    (Z.land reserved_base_address kReservedAddressSpaceOffsetMask =? 0);;
  let current := reserved_base_address in
  '(pools_, direct_map_pool) ← Add pools_ current kDirectMapPoolSize;
  DCHECK DCHECK_IS_ON (negb (direct_map_pool =? 0)%nat);;
  let current := wrap64 (current + kDirectMapPoolSize) in
  '(pools_, normal_bucket_pool) ← Add pools_ current kNormalBucketPoolSize;
  DCHECK DCHECK_IS_ON (negb (normal_bucket_pool =? 0)%nat);;
  let current := wrap64 (current + kNormalBucketPoolSize) in
  DCHECK DCHECK_IS_ON (current <=? reserved_address_end);;
  DCHECK DCHECK_IS_ON
    (current =? wrap64 (reserved_base_address + kDesiredAddressSpaceSize));;
  Ret ({| reserved_address_start_ := reserved_address_start;
          reserved_base_address_ := reserved_base_address;
          direct_map_pool_ := direct_map_pool;
          normal_bucket_pool_ := normal_bucket_pool |},
       pools_).

(** [UninitForTesting()]; the pages that [FreePages] gives back are not
    modelled. *)
Definition UninitForTesting (s : PartitionAddressSpace)
    (pools_ : list (option Pool))
  : result (PartitionAddressSpace * list (option Pool)) :=
  DCHECK DCHECK_IS_ON (negb (reserved_address_start_ s =? 0));;
  Ret (before_Init, ResetForTesting pools_).

End Defs.

End AddressSpaceInit.

(** ** Offsets in the pools of [PartitionAddressSpace]
       (partition_address_space.h) *)

Module AddressSpaceOffsets.

Import AddressSpace.

Section Defs.

Variable kPoolMaxSize : Z.
Variable DCHECK_IS_ON : bool.

(** [OffsetInBRPPool]. *)
Definition OffsetInBRPPool (setup_ : GigaCageSetup) (address : Z)
  : result Z :=
  DCHECK DCHECK_IS_ON (IsInBRPPool kPoolMaxSize setup_ address);;
  Ret (wrap64 (address - brp_pool_base_address_ setup_)).

(** "Each pool will be aligned at its own size boundary": a base address
    that is a multiple of the size of its pool. *)
Definition base_aligned (base_address size : Z) : Prop :=
  is_u64 base_address /\ base_address mod size = 0.

(** The cage once the three pools are set up. *)
Definition cage_aligned (setup_ : GigaCageSetup) : Prop :=
  base_aligned (non_brp_pool_base_address_ setup_)
    (kNonBRPPoolSize kPoolMaxSize)
  /\ base_aligned (brp_pool_base_address_ setup_) (kBRPPoolSize kPoolMaxSize)
  /\ base_aligned (configurable_pool_base_address_ setup_)
       kConfigurablePoolSize.

End Defs.

End AddressSpaceOffsets.

(** ** Writing and walking freelist links (pool_offset_freelist.h) *)

Module FreelistOps.

Import AddressSpace Freelist.

(** What [SetNext] does: it writes the entry, or, in a build with debug
    checks, it calls [FreelistCorruptionDetected(0)], which does not
    return. *)
Inductive set_next : Type :=
| written (e : PoolOffsetFreelistEntry)
| SetNextCorruptionDetected.

Section Defs.

Variable kPoolMaxSize : Z.
Variable USE_BACKUP_REF_PTR : bool.
Variable DCHECK_IS_ON : bool.
Variable kPtrTagMask : Z.
Variable kSuperPageShift : Z.
Variable PartitionPageSize : Z.
Variable setup_ : GigaCageSetup.

Local Abbreviation kSuperPageBaseMask :=
  (Constants.kSuperPageBaseMask kSuperPageShift).
Local Abbreviation EncodeToOffset :=
  (EncodeToOffset kPoolMaxSize USE_BACKUP_REF_PTR DCHECK_IS_ON kPtrTagMask
     setup_).
Local Abbreviation SlotStartPtr2Addr := (SlotStartPtr2Addr kPtrTagMask).

(** [SetNext(entry)] on the entry at [here]. *)
Definition SetNext (here entry : Z) : result set_next :=
  if DCHECK_IS_ON
     && (negb (entry =? 0)
         && negb (Z.land (SlotStartPtr2Addr here) kSuperPageBaseMask
                  =? Z.land (SlotStartPtr2Addr entry) kSuperPageBaseMask))
  then Ret SetNextCorruptionDetected
  else
    encoded ← EncodeToOffset entry;
    Ret (written {| next_ := encoded; shadow_ := not64 encoded |}).

(** [CheckFreeList] on the memory [memory], which gives the two words
    stored at an address, starting at [entry].  The loop returns nothing;
    the model records the entries that it visited and how it ended: at
    [nullptr], or in [FreelistCorruptionDetected].  On a list with a cycle
    the loop does not end. *)
Fixpoint CheckFreeList (fuel : nat) (memory : Z -> PoolOffsetFreelistEntry)
    (entry slot_size : Z) (visited : list Z) : result (list Z * get_next) :=
  match fuel with
  | O => OutOfFuel
  | S fuel' =>
    if entry =? 0 then Ret (visited, returned 0)
    else
      next ←
        GetNext kPoolMaxSize USE_BACKUP_REF_PTR DCHECK_IS_ON kPtrTagMask
          kSuperPageShift PartitionPageSize setup_ entry (memory entry)
          slot_size;
      match next with
      | returned next =>
        CheckFreeList fuel' memory next slot_size (visited ++ [entry])
      | FreelistCorruptionDetected _ _ _ => Ret (visited ++ [entry], next)
      end
  end.

(** The super page of a slot-start pointer. *)
Definition super_page_of (ptr : Z) : Z :=
  Z.land (SlotStartPtr2Addr ptr) kSuperPageBaseMask.

End Defs.

End FreelistOps.

(** ** Configuring and pausing a branch
       (scheduler_loop_quarantine.cc, scheduler_loop_quarantine.h) *)

Module SlqLifecycle.

Import Slq.

(** [struct SchedulerLoopQuarantineConfig]. *)
Record SchedulerLoopQuarantineConfig : Type := {
  branch_capacity_in_bytes : Z;
  leak_on_destruction : bool;
  enable_quarantine : bool;
  enable_zapping : bool
}.

Section Defs.

(** [PartitionRoot::ObjectToSlotStartUnchecked] (partition_root.h) is not
    among the sources. *)
Variable Rng : Type.
Variable allocator_root_ : PartitionRoot.
Variable ObjectToSlotStartUnchecked : Z -> Z.
Variable DCHECKS_ARE_ON : bool.
Variable ENABLE_BACKUP_REF_PTR_SUPPORT : bool.
Variable kFreedByte : Z.

Local Abbreviation State := (Slq.State Rng).
Local Abbreviation PA_DCHECK := (DCHECK DCHECKS_ARE_ON).

Definition with_config (st : State) (config : SchedulerLoopQuarantineConfig)
  : State :=
  let b := branch st in
  {| branch :=
       {| random_ := random_ b;
          enable_quarantine_ := enable_quarantine config;
          enable_zapping_ := enable_zapping config;
          leak_on_destruction_ := leak_on_destruction config;
          pause_quarantine_ := pause_quarantine_ b;
          slots_ := slots_ b;
          branch_size_in_bytes_ := branch_size_in_bytes_ b;
          branch_capacity_in_bytes_ := branch_capacity_in_bytes config;
          to_be_freed_working_memory_ := to_be_freed_working_memory_ b |};
     root_ := root_ st;
     events := events st |}.

Definition with_pause (st : State) (pause : Z) : State :=
  let b := branch st in
  {| branch :=
       {| random_ := random_ b;
          enable_quarantine_ := enable_quarantine_ b;
          enable_zapping_ := enable_zapping_ b;
          leak_on_destruction_ := leak_on_destruction_ b;
          pause_quarantine_ := pause;
          slots_ := slots_ b;
          branch_size_in_bytes_ := branch_size_in_bytes_ b;
          branch_capacity_in_bytes_ := branch_capacity_in_bytes_ b;
          to_be_freed_working_memory_ := to_be_freed_working_memory_ b |};
     root_ := root_ st;
     events := events st |}.

(** [Configure(root, config)], where [root] is the root of the state: a
    branch that is not enabled reads nothing of the root it had, and an
    enabled branch is configured again with its own root.  The two
    comparisons of pointers, [allocator_root_ == &root.allocator_root_] and
    [tcache_->GetRoot() == &root.allocator_root_], are given as booleans.
    [config_for_testing_], which no other member reads, is left out. *)
Definition Configure (thread_bound : bool) (st : State)
    (root_matches tcache_matches : bool)
    (config : SchedulerLoopQuarantineConfig) : result State :=
  CHECK (pause_quarantine_ (branch st) =? 0);;
  CHECK root_matches;;
  (if thread_bound then CHECK tcache_matches else Ret tt);;
  st ←
    (if enable_quarantine_ (branch st) then
       st ← PurgeInternal Rng allocator_root_ DCHECKS_ARE_ON 0 st;
       CHECK (bool_decide (slots_ (branch st) = []));;
       Ret st
     else Ret st);
  let st := with_config st config in
  Ret (with_working_memory Rng st
         (enable_quarantine_ (branch st) && negb thread_bound)).

Definition IsQuarantinedForTesting (st : State) (object : Z) : bool :=
  let slot_start' := ObjectToSlotStartUnchecked object in
  existsb (fun slot => slot_start slot =? slot_start') (slots_ (branch st)).

(** The constructor and the destructor of [ScopedQuarantineExclusion].
    [pause_quarantine_] is an [int], kept exact. *)
Definition ScopedQuarantineExclusion_enter (thread_bound : bool) (st : State)
  : result State :=
  PA_DCHECK (negb (enable_quarantine_ (branch st)) || thread_bound);;
  Ret (with_pause st (pause_quarantine_ (branch st) + 1)).

Definition ScopedQuarantineExclusion_exit (st : State) : State :=
  with_pause st (pause_quarantine_ (branch st) - 1).

(** *** What the properties of these operations are stated with *)

(** The calls of [QuarantineEpilogue]. *)
Definition epilogue_events (st : State)
    (object slot_span slot_start usable_size : Z) : list event :=
  (if enable_zapping_ (branch st)
   then [SecureMemset object kFreedByte usable_size] else [])
  ++ (if ENABLE_BACKUP_REF_PTR_SUPPORT && brp_enabled allocator_root_
      then [PreReleaseFromAllocator slot_start
              (bucket_slot_size allocator_root_ slot_span)]
      else []).

(** The counters of a root with one branch follow the branch. *)
Definition root_tracks (st : State) : Prop :=
  count_ (root_ st) = Z.of_nat (length (slots_ (branch st)))
  /\ size_in_bytes_ (root_ st) = branch_size_in_bytes_ (branch st).

(** The settings of a branch, which [Quarantine] and [Purge] only read. *)
Definition same_settings (st st' : State) : Prop :=
  enable_quarantine_ (branch st') = enable_quarantine_ (branch st)
  /\ enable_zapping_ (branch st') = enable_zapping_ (branch st)
  /\ leak_on_destruction_ (branch st') = leak_on_destruction_ (branch st)
  /\ pause_quarantine_ (branch st') = pause_quarantine_ (branch st)
  /\ branch_capacity_in_bytes_ (branch st')
     = branch_capacity_in_bytes_ (branch st).

End Defs.

End SlqLifecycle.

(** ** The window of a bucket of the runtime statistics
       (scheduler_loop_quarantine_runtime_stats.cc) *)

Module StatsWindow.

Import RuntimeStats.

(** [RecordValue] called with each of [samples], in their order. *)
Definition record_all (b : BucketStats) (samples : list Z) : BucketStats :=
  foldl RecordValue b samples.

(** The number of samples that are zero. *)
Definition zero_samples (samples : list Z) : Z :=
  Z.of_nat (length (filter (fun v => v = 0) samples)).

Definition sum_times (times : list Z) : Z := foldr Z.add 0 times.

(** A bucket as the constructor and [Reset] leave it: its window has to be
    filled before it is valid. *)
Definition fresh_window (b : BucketStats) : Prop :=
  valid_ b = false
  /\ idx_ b = O
  /\ reported_idx_ b = (kMaxTimesToTrack - 1)%nat
  /\ sum_ns_ b = 0
  /\ length (bucket_times_ b) = kMaxTimesToTrack.

(** The state of a bucket after [samples] were recorded in a fresh
    window. *)
Definition window_inv (b0 b : BucketStats) (samples : list Z) : Prop :=
  length (bucket_times_ b) = kMaxTimesToTrack
  /\ reported_idx_ b = (kMaxTimesToTrack - 1)%nat
  /\ paused_ b = paused_ b0
  /\ ((length samples < kMaxTimesToTrack)%nat ->
      valid_ b = false
      /\ idx_ b = length samples
      /\ cycled_ b = cycled_ b0
      /\ average_ns_ b = average_ns_ b0
      /\ sum_ns_ b
         = sum_times (take (length samples) (bucket_times_ b))
           + zero_samples samples)
  /\ ((kMaxTimesToTrack <= length samples)%nat ->
      valid_ b = true
      /\ (idx_ b < kMaxTimesToTrack)%nat
      /\ cycled_ b0 < cycled_ b
      /\ average_ns_ b = wrap64 (sum_ns_ b) / Z.of_nat kMaxTimesToTrack
      /\ sum_ns_ b = sum_times (bucket_times_ b) + zero_samples samples).

End StatsWindow.

(** ** Concrete configurations

    The constants of a 64-bit build (2 MiB super pages, 16 KiB partition
    pages, 16 GiB pools, the top byte of a pointer as its memory tag) and
    small states, on which the operations are evaluated further down. *)

Module Examples.

Definition kSuperPageShift : Z := 21.
Definition PartitionPageSize : Z := 2 ^ 14.
Definition kPoolMaxSize : Z := 2 ^ 34.
Definition kPtrTagMask : Z := 0xff00000000000000.

(** The cage once [Init()] has put the non-BRP pool at [2^34] and the BRP
    pool behind it. *)
Definition setup_after_init : AddressSpace.GigaCageSetup := {|
  AddressSpace.non_brp_pool_base_address_ := 2 ^ 34;
  AddressSpace.brp_pool_base_address_ := 2 ^ 35;
  AddressSpace.configurable_pool_base_address_ :=
    AddressSpace.kConfigurablePoolOffsetMask;
  AddressSpace.non_brp_pool_ := 1;
  AddressSpace.brp_pool_ := 2;
  AddressSpace.configurable_pool_ := 0
|}.

(** The operations on freelist links in that cage, in a build with the
    [BackupRefPtr] pool; their first argument is [DCHECK_IS_ON]. *)
Abbreviation pool_info_of :=
  (Freelist.pool_info_of kPoolMaxSize true kPtrTagMask setup_after_init).

Abbreviation EncodeToOffset := (fun DCHECK_IS_ON : bool =>
  Freelist.EncodeToOffset kPoolMaxSize true DCHECK_IS_ON kPtrTagMask
    setup_after_init).

Abbreviation GetNextInternal := (fun DCHECK_IS_ON : bool =>
  Freelist.GetNextInternal kPoolMaxSize true DCHECK_IS_ON kPtrTagMask
    kSuperPageShift PartitionPageSize setup_after_init).

(** The non-BRP pool's info, as [GetPoolInfo] returns it for the base of the
    pool. *)
Definition non_brp_info : AddressSpace.PoolInfo := {|
  AddressSpace.handle := 1;
  AddressSpace.base := 2 ^ 34;
  AddressSpace.base_mask := AddressSpace.kNonBRPPoolBaseMask kPoolMaxSize;
  AddressSpace.offset := 0
|}.

(** An entry at [2^34 + 0x8000] whose next entry is at [2^34 + 0x4000]. *)
Definition entry_here : Z := 2 ^ 34 + 0x8000.

Definition entry_to_0x4000 : Freelist.PoolOffsetFreelistEntry := {|
  Freelist.next_ := 0x4000;
  Freelist.shadow_ := not64 0x4000
|}.

(** The same entry after bit [k] of [next_] was flipped. *)
Definition flip_bit (e : Freelist.PoolOffsetFreelistEntry) (k : Z)
  : Freelist.PoolOffsetFreelistEntry := {|
  Freelist.next_ := Z.lxor (Freelist.next_ e) (Z.shiftl 1 k);
  Freelist.shadow_ := Freelist.shadow_ e
|}.


(** A pool of four super pages at [0x1000_0000_0000], in a build with debug
    checks whose bitmaps have 16 bits, and the calls of the first scenario of
    the specification. *)
Definition kMaxBits : nat := 16.
Definition SP : Z := 2 ^ 21.
Definition pool_base : Z := 0x100000000000.

Abbreviation FindChunk := (Pool.FindChunk kSuperPageShift kMaxBits true).
Abbreviation FreeChunk := (Pool.FreeChunk kSuperPageShift kMaxBits true).

Definition fresh_pool : Pool.Pool := {|
  Pool.total_bits_ := 4;
  Pool.address_begin_ := pool_base;
  Pool.address_end_ := pool_base + 4 * SP;
  Pool.bit_hint_ := 0;
  Pool.alloc_bitset_ := ∅
|}.

Definition scenario_calls : list Pool.call :=
  [ Pool.find_chunk SP; Pool.find_chunk (2 * SP); Pool.find_chunk SP;
    Pool.find_chunk SP; Pool.free_chunk (pool_base + SP) (2 * SP);
    Pool.find_chunk SP ].

Definition scenario_pool : Pool.Pool := {|
  Pool.total_bits_ := 4;
  Pool.address_begin_ := pool_base;
  Pool.address_end_ := pool_base + 4 * SP;
  Pool.bit_hint_ := 2;
  Pool.alloc_bitset_ := {[ 0%nat; 1%nat; 3%nat ]}
|}.

Definition scenario_live : list (Z * Z) :=
  [ (pool_base + SP, SP); (pool_base + 3 * SP, SP); (pool_base, SP) ].

(** The pool after [find_chunk SP] alone. *)
Definition one_chunk_pool : Pool.Pool := {|
  Pool.total_bits_ := 4;
  Pool.address_begin_ := pool_base;
  Pool.address_end_ := pool_base + 4 * SP;
  Pool.bit_hint_ := 1;
  Pool.alloc_bitset_ := {[ 0%nat ]}
|}.

(** The pool with all its four bits set. *)
Definition full_pool : Pool.Pool := {|
  Pool.total_bits_ := 4;
  Pool.address_begin_ := pool_base;
  Pool.address_end_ := pool_base + 4 * SP;
  Pool.bit_hint_ := 4;
  Pool.alloc_bitset_ := {[ 0%nat; 1%nat; 2%nat; 3%nat ]}
|}.

(** A generator, an allocator root whose slot spans are numbered by the
    usable size of their slots, those from [2^20] on being direct-mapped,
    and branches in a build with debug checks. *)
Definition RandUint32 (s : Z) : Z * Z :=
  let s' := (s * 1103515245 + 12345) mod 2 ^ 32 in (s', s').

Definition allocator_root : Slq.PartitionRoot := {|
  Slq.IsDirectMappedBucket := fun slot_span => 2 ^ 20 <=? slot_span;
  Slq.GetSlotUsableSize := fun slot_span => slot_span;
  Slq.SlotStartToObject := fun slot_start => slot_start;
  Slq.FromSlotStart := fun slot_start => slot_start / 2 ^ 14;
  Slq.FromObject := fun object => object / 2 ^ 14;
  Slq.bucket_slot_size := fun slot_span => slot_span;
  Slq.brp_enabled := false
|}.

Abbreviation Quarantine :=
  (Slq.Quarantine Z RandUint32 allocator_root true false 0xCD).

Abbreviation Purge := (Slq.Purge Z allocator_root true).

Definition empty_root : Slq.SchedulerLoopQuarantineRoot := {|
  Slq.size_in_bytes_ := 0;
  Slq.count_ := 0;
  Slq.cumulative_count_ := 0;
  Slq.cumulative_size_in_bytes_ := 0;
  Slq.quarantine_miss_count_ := 0
|}.

(** An enabled branch that holds [slots], with no call made yet. *)
Definition branch_state (capacity : Z) (slots : list Slq.QuarantineSlot)
  : Slq.State Z := {|
  Slq.branch := {|
    Slq.random_ := 0;
    Slq.enable_quarantine_ := true;
    Slq.enable_zapping_ := false;
    Slq.leak_on_destruction_ := false;
    Slq.pause_quarantine_ := 0;
    Slq.slots_ := slots;
    Slq.branch_size_in_bytes_ := Slq.sum_sizes slots;
    Slq.branch_capacity_in_bytes_ := capacity;
    Slq.to_be_freed_working_memory_ := true
  |};
  Slq.root_ := {|
    Slq.size_in_bytes_ := Slq.sum_sizes slots;
    Slq.count_ := Z.of_nat (length slots);
    Slq.cumulative_count_ := Z.of_nat (length slots);
    Slq.cumulative_size_in_bytes_ := Slq.sum_sizes slots;
    Slq.quarantine_miss_count_ := 0
  |};
  Slq.events := []
|}.

(** [n] entries of one byte each. *)
Definition one_byte_slots (n : nat) : list Slq.QuarantineSlot :=
  (fun i => {| Slq.slot_start := 2 ^ 14 + 16 * Z.of_nat i;
               Slq.usable_size := 1 |}) <$> seq 0 n.

Definition two_slots : list Slq.QuarantineSlot :=
  [ {| Slq.slot_start := 2 ^ 14; Slq.usable_size := 64 |};
    {| Slq.slot_start := 2 ^ 14 + 64; Slq.usable_size := 64 |} ].

(** An entry whose usable size is zero. *)
Definition zero_size_slot : Slq.QuarantineSlot :=
  {| Slq.slot_start := 2 ^ 14; Slq.usable_size := 0 |}.

(** The bytes held and the capacity of the branch that a call returns. *)
Definition size_and_capacity (r : result (Slq.State Z)) : option (Z * Z) :=
  match r with
  | Ret st =>
    Some (Slq.branch_size_in_bytes_ (Slq.branch st),
          Slq.branch_capacity_in_bytes_ (Slq.branch st))
  | _ => None
  end.

(** The entries and the calls made of the state that a call returns. *)
Definition slots_and_events (r : result (Slq.State Z))
  : option (list Slq.QuarantineSlot * list Slq.event) :=
  match r with
  | Ret st => Some (Slq.slots_ (Slq.branch st), Slq.events st)
  | _ => None
  end.

(** Runtime statistics of two size buckets whose ticks are microseconds,
    configured to pause for 100 ticks after a zap that is more than 10
    ticks above the average. *)
Definition InNanoseconds (delta : Z) : Z := delta * 1000.
Definition Nanoseconds (ns : Z) : Z := Z.quot ns 1000.

Abbreviation AddStats :=
  (RuntimeStats.AddStats InNanoseconds Nanoseconds true).

(** The statistics right after [InitOrResetStats]: no window is filled. *)
Definition fresh_stats : RuntimeStats.SchedulerLoopQuarantineRuntimeStats :=
  RuntimeStats.InitOrResetStats 2 RuntimeStats.stats_default 100 10.

(** A bucket whose window was filled once with samples of 2000 ns. *)
Definition warm_bucket : RuntimeStats.BucketStats := {|
  RuntimeStats.paused_ := 0;
  RuntimeStats.cycled_ := 1;
  RuntimeStats.valid_ := true;
  RuntimeStats.idx_ := 0;
  RuntimeStats.reported_idx_ := RuntimeStats.kMaxTimesToTrack - 1;
  RuntimeStats.sum_ns_ := 1024 * 2000;
  RuntimeStats.average_ns_ := 2000;
  RuntimeStats.bucket_times_ := replicate RuntimeStats.kMaxTimesToTrack 2000
|}.

Definition warm_stats : RuntimeStats.SchedulerLoopQuarantineRuntimeStats := {|
  RuntimeStats.initialized_ := true;
  RuntimeStats.max_above_avg_zap_delta_ := 10;
  RuntimeStats.long_zap_pause_delta_ := 100;
  RuntimeStats.pause_until_ := 0;
  RuntimeStats.zap_buckets_ := [warm_bucket; RuntimeStats.BucketStats_default];
  RuntimeStats.purge_buckets_ :=
    [warm_bucket; RuntimeStats.BucketStats_default];
  RuntimeStats.total_time_buckets_ :=
    [warm_bucket; RuntimeStats.BucketStats_default]
|}.

(** [pause_until_] of the statistics that a call returns, and what
    [ShouldPause] then answers at [start]. *)
Definition pause_until_after
    (r : result RuntimeStats.SchedulerLoopQuarantineRuntimeStats)
  : option Z :=
  match r with
  | Ret st => Some (RuntimeStats.pause_until_ st)
  | _ => None
  end.

Definition should_pause_after
    (r : result RuntimeStats.SchedulerLoopQuarantineRuntimeStats) (start : Z)
  : option bool :=
  match r with
  | Ret st => Some (RuntimeStats.ShouldPause st start)
  | _ => None
  end.

End Examples.

(** Further configurations and states. *)

Module MoreExamples.

(** The cage with the three pools set up: the configurable pool is at
    [2^36]. *)
Definition setup_with_configurable : AddressSpace.GigaCageSetup := {|
  AddressSpace.non_brp_pool_base_address_ := 2 ^ 34;
  AddressSpace.brp_pool_base_address_ := 2 ^ 35;
  AddressSpace.configurable_pool_base_address_ := 2 ^ 36;
  AddressSpace.non_brp_pool_ := 1;
  AddressSpace.brp_pool_ := 2;
  AddressSpace.configurable_pool_ := 3
|}.

(** A memory that holds a list of two entries: the entry at
    [2^34 + 0x8000] links to the one at [2^34 + 0x4000], which is the
    last. *)
Definition two_entry_memory (address : Z) : Freelist.PoolOffsetFreelistEntry :=
  if address =? Examples.entry_here then Examples.entry_to_0x4000
  else Freelist.entry_null.

(** The pool info of an address of the non-BRP pool of the example cage. *)
Definition info_at (offset_ : Z) : AddressSpace.PoolInfo := {|
  AddressSpace.handle := 1;
  AddressSpace.base := 2 ^ 34;
  AddressSpace.base_mask := AddressSpace.kNonBRPPoolBaseMask Examples.kPoolMaxSize;
  AddressSpace.offset := offset_
|}.

(** The statistics after the long zap of 3800 ticks on the bucket whose
    window is filled. *)
Definition after_long_zap : RuntimeStats.SchedulerLoopQuarantineRuntimeStats :=
  match Examples.AddStats Examples.warm_stats 0 1000 1100 1200 5000 with
  | Ret st => st
  | _ => Examples.warm_stats
  end.

End MoreExamples.

(** * Properties *)

(** ** Machine words *)

Module WordFacts.

Lemma modulus_pos : 0 < modulus.
Proof. reflexivity. Qed.

Lemma wrap64_range x : is_u64 (wrap64 x).
Proof. unfold is_u64, wrap64. apply Z.mod_pos_bound, modulus_pos. Qed.

Lemma wrap64_small x : is_u64 x -> wrap64 x = x.
Proof. unfold is_u64, wrap64. intros H. apply Z.mod_small, H. Qed.

Lemma wrap64_testbit x i :
  Z.testbit (wrap64 x) i = (i <? 64) && Z.testbit x i.
Proof.
  unfold wrap64, modulus.
  destruct (Z.ltb_spec i 64) as [Hlt|Hge]; simpl.
  - destruct (Z.ltb_spec i 0) as [Hneg|Hpos].
    + now rewrite !Z.testbit_neg_r.
    + apply Z.mod_pow2_bits_low. lia.
  - apply Z.mod_pow2_bits_high. lia.
Qed.

Lemma not64_testbit x i :
  0 <= i ->
  Z.testbit (not64 x) i = (i <? 64) && negb (Z.testbit x i).
Proof.
  intros Hi. unfold not64. rewrite wrap64_testbit.
  now rewrite Z.lnot_spec.
Qed.

Lemma u64_testbit_high x i : is_u64 x -> 64 <= i -> Z.testbit x i = false.
Proof.
  intros Hx Hi. rewrite <- (wrap64_small x Hx), wrap64_testbit.
  destruct (Z.ltb_spec i 64); [lia | reflexivity].
Qed.

Lemma u64_of_bits x :
  0 <= x -> (forall i, 64 <= i -> Z.testbit x i = false) -> is_u64 x.
Proof.
  intros Hx Hbits.
  assert (Hw : wrap64 x = x).
  { apply Z.bits_inj'. intros i Hi. rewrite wrap64_testbit.
    destruct (Z.ltb_spec i 64) as [Hlt|Hge]; simpl; [reflexivity|].
    symmetry. now apply Hbits. }
  rewrite <- Hw. apply wrap64_range.
Qed.

Lemma land_u64 x y : is_u64 x -> is_u64 (Z.land x y).
Proof.
  intros Hx. apply u64_of_bits.
  - apply Z.land_nonneg. left. apply Hx.
  - intros i Hi. rewrite Z.land_spec, (u64_testbit_high x i Hx Hi).
    reflexivity.
Qed.

Lemma lxor_u64 x y : is_u64 x -> is_u64 y -> is_u64 (Z.lxor x y).
Proof.
  intros Hx Hy. apply u64_of_bits.
  - apply Z.lxor_nonneg. unfold is_u64 in *. lia.
  - intros i Hi.
    rewrite Z.lxor_spec, (u64_testbit_high x i Hx Hi),
      (u64_testbit_high y i Hy Hi).
    reflexivity.
Qed.

Lemma not64_u64 x : is_u64 x -> not64 x = modulus - 1 - x.
Proof.
  unfold is_u64, not64, wrap64, Z.lnot. intros Hx.
  replace (Z.pred (- x)) with (modulus - 1 - x + (-1) * modulus) by lia.
  rewrite Z.mod_add by (pose proof modulus_pos; lia).
  apply Z.mod_small. lia.
Qed.

Lemma not64_inj x y : is_u64 x -> is_u64 y -> not64 x = not64 y -> x = y.
Proof.
  intros Hx Hy. rewrite (not64_u64 x Hx), (not64_u64 y Hy). lia.
Qed.

(** Removing the bits of a mask is subtracting the bits it selects. *)
Lemma sub_land_not64 a m :
  is_u64 a -> wrap64 (a - Z.land a m) = Z.land a (not64 m).
Proof.
  intros Ha.
  assert (Hdisj : Z.land (Z.ldiff a m) (Z.land a m) = 0).
  { apply Z.bits_inj'. intros i Hi.
    rewrite !Z.land_spec, Z.ldiff_spec, Z.bits_0.
    destruct (Z.testbit a i), (Z.testbit m i); reflexivity. }
  assert (Hsplit : Z.ldiff a m + Z.land a m = a).
  { rewrite Z.add_nocarry_lxor by exact Hdisj.
    rewrite Z.lxor_lor by exact Hdisj. apply Z.lor_ldiff_and. }
  replace (a - Z.land a m) with (Z.ldiff a m) by lia.
  apply Z.bits_inj'. intros i Hi.
  rewrite wrap64_testbit, Z.ldiff_spec, Z.land_spec, not64_testbit by lia.
  destruct (Z.ltb_spec i 64) as [Hlt|Hge]; simpl; [reflexivity|].
  rewrite (u64_testbit_high a i Ha Hge). reflexivity.
Qed.

End WordFacts.

Import WordFacts.

(** ** The pools before [PartitionAddressSpace::Init()] *)

Module AddressSpaceFacts.

Import AddressSpace.

Section Facts.

Variable kPoolMaxSize : Z.
Variable USE_BACKUP_REF_PTR : bool.
Variable DCHECK_IS_ON : bool.
Variable kPtrTagMask : Z.

(** The two [static_assert]s of partition_address_space.h on the sizes. *)
Hypothesis pool_size_power_of_two : IsPowerOfTwo kPoolMaxSize.
Hypothesis configurable_pool_fits : kConfigurablePoolSize <= kPoolMaxSize.

Lemma offset_mask_bit0 (size : Z) :
  IsPowerOfTwo size -> 2 <= size -> Z.testbit (wrap64 (size - 1)) 0 = true.
Proof.
  intros (n & Hn & ->) Hsize.
  assert (Hn1 : 1 <= n).
  { destruct (Z.eq_dec n 0) as [->|Hnz]; [simpl in Hsize; lia | lia]. }
  rewrite wrap64_testbit.
  change (2 ^ n - 1) with (Z.pred (2 ^ n)). rewrite <- Z.ones_equiv.
  rewrite Z.ones_spec_low by lia. reflexivity.
Qed.

(** No address passes the membership test of a pool whose base address is
    still the offset mask: the base mask clears bit 0, the offset mask has
    it set. *)
Lemma sentinel_never_matches (size address : Z) :
  IsPowerOfTwo size -> 2 <= size ->
  (Z.land address (not64 (wrap64 (size - 1))) =? wrap64 (size - 1)) = false.
Proof.
  intros Hpow Hsize. apply Z.eqb_neq. intros Heq.
  pose proof (offset_mask_bit0 size Hpow Hsize) as Hbit.
  assert (Hclear :
    Z.testbit (Z.land address (not64 (wrap64 (size - 1)))) 0 = false).
  { rewrite Z.land_spec, not64_testbit, Hbit by lia.
    apply andb_false_r. }
  rewrite Heq in Hclear. congruence.
Qed.

Lemma configurable_size_power_of_two : IsPowerOfTwo kConfigurablePoolSize.
Proof. exists 32. split; [lia | reflexivity]. Qed.

(** C6.  Before [PartitionAddressSpace::Init()] every pool's base address
    holds its offset mask.  Then the membership test
    [(address & base_mask) == base_address] is false for every address and
    for each of the three pools, no address is managed by the allocator, and
    the classifier answers [none]. *)
Theorem no_pool_before_init (setup_ : GigaCageSetup) (address : Z) :
  non_brp_pool_base_address_ setup_ = kNonBRPPoolOffsetMask kPoolMaxSize ->
  brp_pool_base_address_ setup_ = kBRPPoolOffsetMask kPoolMaxSize ->
  configurable_pool_base_address_ setup_ = kConfigurablePoolOffsetMask ->
  IsInNonBRPPool kPoolMaxSize setup_ address = false
  /\ IsInBRPPool kPoolMaxSize setup_ address = false
  /\ IsInConfigurablePool setup_ address = false
  /\ IsManagedByPartitionAlloc kPoolMaxSize USE_BACKUP_REF_PTR setup_ address
     = false
  /\ classify kPoolMaxSize setup_ address = none.
Proof.
  intros Hnon Hbrp Hconf.
  assert (Hsize : 2 <= kPoolMaxSize).
  { unfold kConfigurablePoolSize, kGiB in configurable_pool_fits. lia. }
  assert (H1 : IsInNonBRPPool kPoolMaxSize setup_ address = false).
  { unfold IsInNonBRPPool, kNonBRPPoolBaseMask. rewrite Hnon.
    now apply sentinel_never_matches. }
  assert (H2 : IsInBRPPool kPoolMaxSize setup_ address = false).
  { unfold IsInBRPPool, kBRPPoolBaseMask. rewrite Hbrp.
    now apply sentinel_never_matches. }
  assert (H3 : IsInConfigurablePool setup_ address = false).
  { unfold IsInConfigurablePool, kConfigurablePoolBaseMask. rewrite Hconf.
    apply sentinel_never_matches.
    - apply configurable_size_power_of_two.
    - unfold kConfigurablePoolSize, kGiB. lia. }
  unfold IsManagedByPartitionAlloc, classify.
  rewrite H1, H2, H3, andb_false_r. repeat split; reflexivity.
Qed.

End Facts.

(** The theorem at a 16 GiB pool size, on the state that the default member
    initialisers build. *)
Lemma no_pool_before_init_witness :
  IsInNonBRPPool (2 ^ 34) (setup_before_init (2 ^ 34)) 0x7fff12345678 = false
  /\ IsInBRPPool (2 ^ 34) (setup_before_init (2 ^ 34)) 0x7fff12345678 = false
  /\ IsInConfigurablePool (setup_before_init (2 ^ 34)) 0x7fff12345678 = false
  /\ IsManagedByPartitionAlloc (2 ^ 34) true (setup_before_init (2 ^ 34))
       0x7fff12345678 = false
  /\ classify (2 ^ 34) (setup_before_init (2 ^ 34)) 0x7fff12345678 = none.
Proof.
  apply (no_pool_before_init (2 ^ 34) true).
  - exists 34. split; [lia | reflexivity].
  - vm_compute. discriminate.
  - reflexivity.
  - reflexivity.
  - reflexivity.
Defined.

End AddressSpaceFacts.

(** ** Freelist links *)

Module FreelistFacts.

Import Constants AddressSpace Freelist.

(** Equality of two words, bit by bit; [p] is a word whose bits from 64
    on are clear. *)
Ltac by_bits p Hp :=
  let i := fresh "i" in
  let Hi := fresh "Hi" in
  apply Z.bits_inj'; intros i Hi;
  repeat first
    [ rewrite Z.lor_spec | rewrite Z.land_spec | rewrite Z.lxor_spec
    | rewrite not64_testbit by lia | rewrite wrap64_testbit ];
  destruct (Z.ltb_spec i 64);
  [ | rewrite (u64_testbit_high p i Hp) by lia ];
  repeat match goal with
         | |- context [Z.testbit ?x i] => destruct (Z.testbit x i)
         end;
  reflexivity.

Section Facts.

Variable kPoolMaxSize : Z.
Variable USE_BACKUP_REF_PTR : bool.
Variable DCHECK_IS_ON : bool.
Variable kPtrTagMask : Z.
Variable kSuperPageShift : Z.
Variable PartitionPageSize : Z.
Variable setup_ : GigaCageSetup.

Abbreviation pool_info_of :=
  (pool_info_of kPoolMaxSize USE_BACKUP_REF_PTR kPtrTagMask setup_).
Abbreviation EncodeToOffset :=
  (EncodeToOffset kPoolMaxSize USE_BACKUP_REF_PTR DCHECK_IS_ON kPtrTagMask
     setup_).
Abbreviation DecodeFromOffset := (DecodeFromOffset DCHECK_IS_ON).
Abbreviation IsWellFormed :=
  (IsWellFormed kPtrTagMask kSuperPageShift PartitionPageSize).
Abbreviation GetNextInternal :=
  (GetNextInternal kPoolMaxSize USE_BACKUP_REF_PTR DCHECK_IS_ON kPtrTagMask
     kSuperPageShift PartitionPageSize setup_).

(** What [GetPoolInfo] says of an address that lies in a pool. *)
Lemma pool_info_of_inv (address : Z) (info : PoolInfo) :
  pool_info_of address = Ret info ->
  Z.land (UntagAddr kPtrTagMask address) (base_mask info) = base info
  /\ offset info = wrap64 (UntagAddr kPtrTagMask address - base info).
Proof.
  unfold Freelist.pool_info_of, GetPoolInfo.
  destruct (IsInNonBRPPool _ _ _) eqn:Hnon.
  { intros [= <-]. simpl. split; [|reflexivity].
    now apply Z.eqb_eq in Hnon. }
  destruct (USE_BACKUP_REF_PTR && IsInBRPPool _ _ _) eqn:Hbrp.
  { intros [= <-]. simpl. split; [|reflexivity].
    apply andb_true_iff in Hbrp as [_ Hbrp]. now apply Z.eqb_eq in Hbrp. }
  destruct (IsInConfigurablePool _ _) eqn:Hconf.
  { intros [= <-]. simpl. split; [|reflexivity].
    now apply Z.eqb_eq in Hconf. }
  discriminate.
Qed.

(** The pool offset of an address is the address under the offset mask. *)
Lemma pool_offset_masked (p : Z) (info : PoolInfo) :
  is_u64 p ->
  pool_info_of p = Ret info ->
  offset info = Z.land (Z.land p (not64 kPtrTagMask)) (not64 (base_mask info)).
Proof.
  intros Hp Hinfo. destruct (pool_info_of_inv p info Hinfo) as [Hbase ->].
  rewrite <- Hbase. unfold UntagAddr.
  apply sub_land_not64, land_u64, Hp.
Qed.

Lemma encode_value (p : Z) (info : PoolInfo) :
  is_u64 p -> p <> 0 ->
  pool_info_of p = Ret info ->
  EncodeToOffset p
  = Ret (Z.land p (Z.lor kPtrTagMask (not64 (base_mask info)))).
Proof.
  intros Hp Hnz Hinfo. unfold Freelist.EncodeToOffset.
  destruct (Z.eqb_spec p 0) as [|_]; [contradiction|].
  fold pool_info_of. rewrite Hinfo. simpl.
  rewrite (pool_offset_masked p info Hp Hinfo).
  replace (Z.land p (Z.lor kPtrTagMask (not64 (base_mask info)))
           =? Z.lor (Z.land (Z.land p (not64 kPtrTagMask))
                       (not64 (base_mask info)))
                (Z.land p kPtrTagMask)) with true.
  - unfold DCHECK. rewrite andb_false_r. reflexivity.
  - symmetry. apply Z.eqb_eq. by_bits p Hp.
Qed.

Lemma decode_value (p : Z) (info : PoolInfo) :
  is_u64 p ->
  pool_info_of p = Ret info ->
  Z.lor (base info) (Z.land p (Z.lor kPtrTagMask (not64 (base_mask info))))
  = p.
Proof.
  intros Hp Hinfo. destruct (pool_info_of_inv p info Hinfo) as [Hbase _].
  rewrite <- Hbase. unfold UntagAddr. by_bits p Hp.
Qed.

(** C4, as amended.  A pointer that is not null and lies in a known pool is
    encoded as its pool offset together with its tag bits.  Whenever that
    encoded word is not [0], the word kept for [nullptr] on which
    [DecodeFromOffset] may not be called, or the build has no debug checks,
    decoding it with the pool info of the pointer gives the pointer back,
    tag bits included. *)
Theorem decode_encode_nonzero_offset (p : Z) (info : PoolInfo) :
  is_u64 p -> p <> 0 ->
  pool_info_of p = Ret info ->
  exists tagged_offset : Z,
    EncodeToOffset p = Ret tagged_offset
    /\ (tagged_offset <> 0 \/ DCHECK_IS_ON = false ->
        DecodeFromOffset tagged_offset info = Ret p).
Proof.
  intros Hp Hnz Hinfo.
  exists (Z.land p (Z.lor kPtrTagMask (not64 (base_mask info)))).
  split; [now apply encode_value|].
  intros Hoff. unfold Freelist.DecodeFromOffset, kNullptrOffset, DCHECK.
  replace (DCHECK_IS_ON
           && negb (negb (Z.land p (Z.lor kPtrTagMask
                                      (not64 (base_mask info))) =? 0)))
    with false.
  - cbn [mbind result_bind]. now rewrite decode_value.
  - symmetry. destruct Hoff as [Hoff| ->]; [|reflexivity].
    apply Z.eqb_neq in Hoff. rewrite Hoff. apply andb_false_r.
Qed.

(** A well-formed entry has a shadow that is the complement of its link. *)
Lemma well_formed_shadow (for_thread_cache : bool) (info : PoolInfo)
    (here : Z) (e : PoolOffsetFreelistEntry) (next : Z) :
  IsWellFormed for_thread_cache info here e next = true ->
  shadow_ e = not64 (next_ e).
Proof.
  unfold Freelist.IsWellFormed. intros Hwf.
  destruct for_thread_cache;
    repeat (apply andb_true_iff in Hwf as [Hwf ?]);
    match goal with
    | H : (not64 _ =? _) = true |- _ => apply Z.eqb_eq in H; now rewrite H
    end.
Qed.

(** An entry whose shadow is not the complement of its link is not
    well-formed. *)
Lemma shadow_mismatch (for_thread_cache : bool) (info : PoolInfo)
    (here : Z) (e : PoolOffsetFreelistEntry) (next : Z) :
  not64 (next_ e) <> shadow_ e ->
  IsWellFormed for_thread_cache info here e next = false.
Proof.
  intros Hne. unfold Freelist.IsWellFormed.
  destruct (Z.eqb_spec (not64 (next_ e)) (shadow_ e)) as [|_];
    [contradiction|].
  destruct for_thread_cache;
    now rewrite ?andb_false_r, ?andb_false_l.
Qed.

Lemma flipped_differs (x k : Z) : 0 <= k -> Z.lxor x (Z.shiftl 1 k) <> x.
Proof.
  intros Hk Heq.
  assert (Hbit : Z.testbit (Z.lxor x (Z.shiftl 1 k)) k = Z.testbit x k)
    by now rewrite Heq.
  rewrite Z.lxor_spec, Z.shiftl_spec, Z.sub_diag in Hbit by lia.
  simpl in Hbit. destruct (Z.testbit x k); discriminate.
Qed.

Lemma shifted_bit_u64 (k : Z) : 0 <= k < 64 -> is_u64 (Z.shiftl 1 k).
Proof.
  intros Hk. rewrite Z.shiftl_1_l. unfold is_u64, modulus. split.
  - apply Z.pow_nonneg. lia.
  - apply Z.pow_lt_mono_r; lia.
Qed.

(** C5, as amended.  Take a well-formed entry whose link is not [0] and flip
    one of the 64 bits of [next_], leaving [shadow_] as it was.  If the
    flipped link is not [0], the next [GetNextInternal] does not return the
    decoded pointer: it calls [FreelistCorruptionDetected] with the link and
    the shadow when [crash_on_corruption] is set, and returns [nullptr] when
    it is not. *)
Theorem flipped_link_detected (crash_on_corruption for_thread_cache : bool)
    (here : Z) (e : PoolOffsetFreelistEntry) (info : PoolInfo)
    (next k slot_size : Z) :
  is_u64 (next_ e) -> next_ e <> 0 ->
  pool_info_of here = Ret info ->
  IsWellFormed for_thread_cache info here e next = true ->
  0 <= k < 64 ->
  Z.lxor (next_ e) (Z.shiftl 1 k) <> 0 ->
  GetNextInternal crash_on_corruption for_thread_cache here
    {| next_ := Z.lxor (next_ e) (Z.shiftl 1 k); shadow_ := shadow_ e |}
    slot_size
  = Ret (if crash_on_corruption
         then FreelistCorruptionDetected slot_size
                (Z.lxor (next_ e) (Z.shiftl 1 k)) (shadow_ e)
         else returned 0).
Proof.
  intros Hu Hnz Hinfo Hwf Hk Hflip.
  unfold Freelist.GetNextInternal, IsEncodedNextPtrZero, kNullptrOffset.
  cbn [next_ shadow_].
  destruct (Z.eqb_spec (Z.lxor (next_ e) (Z.shiftl 1 k)) 0) as [|_];
    [contradiction|].
  fold pool_info_of. rewrite Hinfo. cbn [mbind result_bind].
  unfold Freelist.DecodeFromOffset, kNullptrOffset.
  destruct (Z.eqb_spec (Z.lxor (next_ e) (Z.shiftl 1 k)) 0) as [|_];
    [contradiction|].
  unfold DCHECK. rewrite andb_false_r. cbn [mbind result_bind negb].
  rewrite shadow_mismatch;
    [cbn [negb]; destruct crash_on_corruption; reflexivity|].
  cbn [next_ shadow_].
  rewrite (well_formed_shadow _ _ _ _ _ Hwf). intros Heq.
  apply not64_inj in Heq.
  - now apply (flipped_differs (next_ e) k).
  - apply lxor_u64; [exact Hu | now apply shifted_bit_u64].
  - exact Hu.
Qed.

End Facts.

(** The pool base itself is a pointer of the pool that is not null; its
    encoded word is [0], on which [DecodeFromOffset] fails its check, and
    the entry that links to it reads back as [nullptr]. *)
Lemma decode_encode_pool_base :
  Examples.pool_info_of (2 ^ 34) = Ret Examples.non_brp_info
  /\ Examples.EncodeToOffset true (2 ^ 34) = Ret 0
  /\ DecodeFromOffset true 0 Examples.non_brp_info = Abort
  /\ Examples.GetNextInternal false true false Examples.entry_here
       {| next_ := 0; shadow_ := not64 0 |} 32
     = Ret (returned 0).
Proof. repeat split; vm_compute; reflexivity. Qed.

(** The theorem on a pointer with a memory tag in its top byte. *)
Lemma decode_encode_nonzero_offset_witness :
  exists tagged_offset : Z,
    Examples.EncodeToOffset true (0x0b00000400004000) = Ret tagged_offset
    /\ (tagged_offset <> 0 \/ true = false ->
        DecodeFromOffset true tagged_offset Examples.non_brp_info
        = Ret 0x0b00000400004000).
Proof.
  apply (decode_encode_nonzero_offset Examples.kPoolMaxSize true true
           Examples.kPtrTagMask Examples.setup_after_init
           0x0b00000400004000
           {| handle := 1; base := 2 ^ 34;
              base_mask := kNonBRPPoolBaseMask Examples.kPoolMaxSize;
              offset := 0x4000 |}).
  - unfold is_u64, modulus. lia.
  - lia.
  - vm_compute. reflexivity.
Defined.

(** A well-formed entry whose link is the single bit 14: flipping that bit
    leaves the link [0], and [GetNext], which crashes on corruption, returns
    [nullptr] as at the end of a list. *)
Lemma flipped_to_null_undetected :
  Examples.pool_info_of Examples.entry_here = Ret
    {| handle := 1; base := 2 ^ 34;
       base_mask := kNonBRPPoolBaseMask Examples.kPoolMaxSize;
       offset := 0x8000 |}
  /\ IsWellFormed Examples.kPtrTagMask Examples.kSuperPageShift
       Examples.PartitionPageSize false
       {| handle := 1; base := 2 ^ 34;
          base_mask := kNonBRPPoolBaseMask Examples.kPoolMaxSize;
          offset := 0x8000 |}
       Examples.entry_here Examples.entry_to_0x4000 (2 ^ 34 + 0x4000) = true
  /\ next_ Examples.entry_to_0x4000 <> 0
  /\ Examples.GetNextInternal true true false Examples.entry_here
       Examples.entry_to_0x4000 32
     = Ret (returned (2 ^ 34 + 0x4000))
  /\ Examples.GetNextInternal true true false Examples.entry_here
       (Examples.flip_bit Examples.entry_to_0x4000 14) 32
     = Ret (returned 0).
Proof. repeat split; vm_compute; try reflexivity; discriminate. Qed.

(** The theorem on the same entry, with bit 15 flipped. *)
Lemma flipped_link_detected_witness :
  Examples.GetNextInternal true true false Examples.entry_here
    (Examples.flip_bit Examples.entry_to_0x4000 15) 32
  = Ret (FreelistCorruptionDetected 32 0xc000 (not64 0x4000)).
Proof.
  apply (flipped_link_detected Examples.kPoolMaxSize true true
           Examples.kPtrTagMask Examples.kSuperPageShift
           Examples.PartitionPageSize Examples.setup_after_init
           true false Examples.entry_here Examples.entry_to_0x4000
           {| handle := 1; base := 2 ^ 34;
              base_mask := kNonBRPPoolBaseMask Examples.kPoolMaxSize;
              offset := 0x8000 |}
           (2 ^ 34 + 0x4000) 15 32).
  - unfold is_u64, modulus. simpl. lia.
  - simpl. lia.
  - vm_compute. reflexivity.
  - vm_compute. reflexivity.
  - lia.
  - vm_compute. discriminate.
Defined.

End FreelistFacts.

(** ** The pool bitmap *)

Module PoolFacts.

Import Constants Pool.

Section Facts.

Variable kSuperPageShift : Z.
Variable kMaxBits : nat.
Variable DCHECK_IS_ON : bool.

Hypothesis shift_range : 0 <= kSuperPageShift < 64.

Abbreviation SP := (kSuperPageSize kSuperPageShift).
Abbreviation Align := Pool.Align.
Abbreviation FindChunk := (Pool.FindChunk kSuperPageShift kMaxBits DCHECK_IS_ON).
Abbreviation FreeChunk := (Pool.FreeChunk kSuperPageShift kMaxBits DCHECK_IS_ON).
Abbreviation pool_wf := (Pool.pool_wf kSuperPageShift kMaxBits).
Abbreviation super_pages := (Pool.super_pages kSuperPageShift).
Abbreviation roundable := (Pool.roundable kSuperPageShift).

Lemma SP_pow : SP = 2 ^ kSuperPageShift.
Proof. unfold kSuperPageSize. apply Z.shiftl_1_l. Qed.

Lemma SP_pos : 0 < SP.
Proof. rewrite SP_pow. apply Z.pow_pos_nonneg; lia. Qed.

Lemma SP_lt_modulus : SP < modulus.
Proof. rewrite SP_pow. unfold modulus. apply Z.pow_lt_mono_r; lia. Qed.

Lemma offset_mask_ones : SP - 1 = Z.ones kSuperPageShift.
Proof. rewrite Z.ones_equiv, SP_pow. lia. Qed.

(** Masking with the base mask of a super page rounds down. *)
Lemma land_base_mask (x : Z) :
  is_u64 x -> Z.land x (not64 (SP - 1)) = SP * (x / SP).
Proof.
  intros Hx. rewrite <- sub_land_not64 by exact Hx.
  rewrite offset_mask_ones, Z.land_ones by lia. rewrite <- SP_pow.
  pose proof SP_pos. pose proof (Z.mod_pos_bound x SP ltac:(lia)).
  rewrite wrap64_small.
  - pose proof (Z.div_mod x SP ltac:(lia)). lia.
  - unfold is_u64 in *. pose proof (Z.mod_le x SP). lia.
Qed.

Lemma Align_roundable (size : Z) :
  roundable size ->
  Align size SP = Z.of_nat (super_pages size) * SP.
Proof.
  intros [H0 Hle]. unfold Pool.Align, Pool.super_pages.
  pose proof SP_pos.
  assert (Hu : is_u64 (size + SP - 1)) by (unfold is_u64; lia).
  rewrite (wrap64_small _ Hu), land_base_mask by exact Hu.
  rewrite Z2Nat.id by (apply Z.div_pos; lia). lia.
Qed.

Lemma need_bits_roundable (size : Z) :
  roundable size ->
  Z.to_nat (Z.shiftr (Align size SP) kSuperPageShift) = super_pages size.
Proof.
  intros Hr. rewrite Align_roundable by exact Hr.
  rewrite Z.shiftr_div_pow2, <- SP_pow by lia.
  pose proof SP_pos. rewrite Z.div_mul by lia. apply Nat2Z.id.
Qed.

Lemma free_bits_roundable (size : Z) :
  roundable size ->
  Z.to_nat (Align size SP / SP) = super_pages size.
Proof.
  intros Hr. rewrite Align_roundable by exact Hr.
  pose proof SP_pos. rewrite Z.div_mul by lia. apply Nat2Z.id.
Qed.

Lemma super_pages_0 : super_pages 0 = O.
Proof.
  unfold Pool.super_pages. pose proof SP_pos.
  rewrite Z.div_small by lia. reflexivity.
Qed.

Lemma roundable_0 : roundable 0.
Proof. pose proof SP_lt_modulus. unfold Pool.roundable. lia. Qed.

Local Open Scope nat_scope.

Abbreviation scan := (Pool.scan kMaxBits).
Abbreviation fill := (Pool.fill kMaxBits DCHECK_IS_ON).
Abbreviation clear := (Pool.clear kMaxBits DCHECK_IS_ON).
Abbreviation find_loop :=
  (Pool.find_loop kSuperPageShift kMaxBits DCHECK_IS_ON).
Abbreviation test := (Pool.test kMaxBits).

Lemma test_in_range (bits : gset nat) (pos : nat) :
  pos < kMaxBits -> test bits pos = Ret (bool_decide (pos ∈ bits)).
Proof.
  intros Hpos. unfold Pool.test.
  destruct (Nat.ltb_spec pos kMaxBits); [reflexivity | lia].
Qed.

(** The inner loop stops at [curr_bit + n].  Either it met no set bit and
    changed nothing, or it met one: then [found] is false, [beg_bit] is just
    past the last set bit it met, and the hint moved forward at most to the
    end of the scan. *)
Lemma scan_spec (bits : gset nat) (n curr beg hint : nat) (found : bool) :
  curr + n <= kMaxBits ->
  exists beg' hint' found',
    scan bits n curr beg hint found = Ret (curr + n, beg', hint', found')
    /\ hint <= hint' <= Nat.max hint (curr + n)
    /\ ((found' = found /\ beg' = beg /\ hint' = hint
         /\ forall i, curr <= i < curr + n -> i ∉ bits)
        \/ (found' = false /\ curr < beg' <= curr + n
            /\ forall i, beg' <= i < curr + n -> i ∉ bits)).
Proof.
  revert curr beg hint found.
  induction n as [|n IH]; intros curr beg hint found Hrange.
  - exists beg, hint, found. cbn [Pool.scan]. rewrite Nat.add_0_r.
    split; [reflexivity|]. split; [lia|]. left. repeat split; lia.
  - cbn [Pool.scan]. rewrite test_in_range by lia.
    cbn [mbind result_bind].
    destruct (bool_decide_reflect (curr ∈ bits)) as [Hin|Hout].
    + destruct (IH (S curr) (S curr)
                  (if hint =? curr then S hint else hint) false
                  ltac:(lia))
        as (beg' & hint' & found' & Heq & Hhint & Hcases).
      exists beg', hint', found'.
      rewrite Heq. replace (S curr + n) with (curr + S n) by lia.
      split; [reflexivity|].
      split; [destruct (Nat.eqb_spec hint curr); lia|].
      right. destruct Hcases as [(-> & -> & _ & Hclear)|(-> & Hbeg & Hclear)].
      * repeat split; try lia. intros i Hi. apply Hclear. lia.
      * repeat split; try lia. intros i Hi. apply Hclear. lia.
    + destruct (IH (S curr) beg hint found ltac:(lia))
        as (beg' & hint' & found' & Heq & Hhint & Hcases).
      exists beg', hint', found'.
      rewrite Heq. replace (S curr + n) with (curr + S n) by lia.
      split; [reflexivity|]. split; [lia|].
      destruct Hcases as [(-> & -> & -> & Hclear)|(-> & Hbeg & Hclear)].
      * left. repeat split; try lia. intros i Hi.
        destruct (Nat.eq_dec i curr) as [->|Hne]; [exact Hout|].
        apply Hclear. lia.
      * right. repeat split; try lia. intros i Hi. apply Hclear. lia.
Qed.

(** Filling a run of clear bits sets exactly these bits. *)
Lemma fill_spec (bits : gset nat) (n i : nat) :
  i + n <= kMaxBits ->
  (forall j, i <= j < i + n -> j ∉ bits) ->
  fill bits n i = Ret (set_seq i n ∪ bits).
Proof.
  revert bits i. induction n as [|n IH]; intros bits i Hrange Hclear.
  - cbn [Pool.fill]. f_equal. apply set_eq. intros x.
    rewrite elem_of_union, elem_of_set_seq. intuition lia.
  - cbn [Pool.fill].
    assert (Hi : i ∉ bits) by (apply Hclear; lia).
    replace (if DCHECK_IS_ON
             then b ← test bits i; CHECK (negb b)
             else Ret ()) with (Ret () : result unit).
    2:{ destruct DCHECK_IS_ON; [|reflexivity].
        rewrite test_in_range by lia. cbn [mbind result_bind].
        rewrite bool_decide_false by exact Hi. reflexivity. }
    cbn [mbind result_bind]. unfold Pool.set.
    destruct (Nat.ltb_spec i kMaxBits); [|lia].
    cbn [mbind result_bind].
    rewrite IH.
    + f_equal. apply set_eq. intros x.
      rewrite !elem_of_union, !elem_of_set_seq, elem_of_singleton.
      intuition lia.
    + lia.
    + intros j Hj. assert (j ∉ bits) by (apply Hclear; lia).
      rewrite elem_of_union, elem_of_singleton. intuition lia.
Qed.

(** Clearing a run of set bits clears exactly these bits. *)
Lemma clear_spec (bits : gset nat) (n i : nat) :
  i + n <= kMaxBits ->
  (forall j, i <= j < i + n -> j ∈ bits) ->
  clear bits n i = Ret (bits ∖ set_seq i n).
Proof.
  revert bits i. induction n as [|n IH]; intros bits i Hrange Hset.
  - cbn [Pool.clear]. f_equal. apply set_eq. intros x.
    rewrite elem_of_difference, elem_of_set_seq. intuition lia.
  - cbn [Pool.clear].
    assert (Hi : i ∈ bits) by (apply Hset; lia).
    replace (if DCHECK_IS_ON
             then b ← test bits i; CHECK b
             else Ret ()) with (Ret () : result unit).
    2:{ destruct DCHECK_IS_ON; [|reflexivity].
        rewrite test_in_range by lia. cbn [mbind result_bind].
        rewrite bool_decide_true by exact Hi. reflexivity. }
    cbn [mbind result_bind]. unfold Pool.reset.
    destruct (Nat.ltb_spec i kMaxBits); [|lia].
    cbn [mbind result_bind].
    rewrite IH.
    + f_equal. apply set_eq. intros x.
      rewrite !elem_of_difference, !elem_of_set_seq, elem_of_singleton.
      intuition lia.
    + lia.
    + intros j Hj. assert (j ∈ bits) by (apply Hset; lia).
      rewrite elem_of_difference, elem_of_singleton. intuition lia.
Qed.

(** With debug checks, clearing a run that has a clear bit fails the check
    on that bit. *)
Lemma clear_aborts (bits : gset nat) (n i : nat) :
  i + n <= kMaxBits ->
  (exists j, i <= j < i + n /\ j ∉ bits) ->
  Pool.clear kMaxBits true bits n i = Abort.
Proof.
  revert bits i.
  induction n as [|n IH]; intros bits i Hrange (j & Hj & Hout); [lia|].
  cbn [Pool.clear]. rewrite test_in_range by lia.
  cbn [mbind result_bind].
  destruct (bool_decide_reflect (i ∈ bits)) as [Hin|Hnin]; [|reflexivity].
  cbn [CHECK mbind result_bind]. unfold Pool.reset.
  destruct (Nat.ltb_spec i kMaxBits); [|lia].
  cbn [mbind result_bind]. apply IH; [lia|].
  exists j. split.
  - destruct (Nat.eq_dec j i) as [->|]; [contradiction | lia].
  - rewrite elem_of_difference. tauto.
Qed.

Lemma pool_wf_with_hint (p : Pool) (hint : nat) :
  pool_wf p -> hint <= total_bits_ p -> pool_wf (with_hint p hint).
Proof.
  intros (H1 & H2 & H3 & H4 & H5 & H6 & H7) Hhint.
  unfold Pool.pool_wf. cbn. repeat split; assumption.
Qed.

(** The outer loop.  It is entered with [curr_bit] at most [total_bits_] and
    with the bits from [beg_bit] up to [curr_bit] clear; with more fuel than
    there are bits left to scan it returns, either [0] with the bitmap as it
    was, or the address of a run of [need_bits] bits that were clear and are
    now set. *)
Lemma find_loop_spec (fuel : nat) (p : Pool) (need beg curr : nat) :
  pool_wf p ->
  beg <= curr <= total_bits_ p ->
  (forall i, beg <= i < curr -> i ∉ alloc_bitset_ p) ->
  total_bits_ p - curr < fuel ->
  exists p' address,
    find_loop fuel p (Z.of_nat need * SP)%Z need beg curr = Ret (p', address)
    /\ pool_wf p'
    /\ total_bits_ p' = total_bits_ p
    /\ address_begin_ p' = address_begin_ p
    /\ address_end_ p' = address_end_ p
    /\ ((address = 0%Z /\ alloc_bitset_ p' = alloc_bitset_ p)
        \/ (exists b,
              address = chunk_address kSuperPageShift p b
              /\ b + need <= total_bits_ p
              /\ (forall i, b <= i < b + need -> i ∉ alloc_bitset_ p)
              /\ alloc_bitset_ p' = set_seq b need ∪ alloc_bitset_ p)).
Proof.
  revert p beg curr.
  induction fuel as [|fuel IH]; intros p beg curr Hwf Hcurr Hclear Hfuel;
    [lia|].
  cbn [Pool.find_loop].
  destruct (Nat.ltb_spec (total_bits_ p) (beg + need)) as [Hover|Hfits].
  { exists p, 0%Z. split; [reflexivity|]. split; [exact Hwf|].
    do 3 (split; [reflexivity|]). left. split; reflexivity. }
  pose proof Hwf as (Htotal & Hhint & Hbegin & Halign & Hend & Hmod & Hbits).
  destruct (scan_spec (alloc_bitset_ p) (beg + need - curr) curr beg
              (bit_hint_ p) true ltac:(lia))
    as (beg' & hint' & found' & Hscan & Hhint' & Hcases).
  rewrite Hscan. cbn [mbind result_bind].
  destruct Hcases as [(-> & -> & -> & Hrun)|(-> & Hbeg' & Hrun)].
  - (* found *)
    cbn [with_hint alloc_bitset_ bit_hint_ address_begin_ address_end_].
    rewrite fill_spec.
    2:{ lia. }
    2:{ intros j Hj. destruct (Nat.lt_ge_cases j curr).
        - apply Hclear. lia.
        - apply Hrun. lia. }
    cbn [mbind result_bind].
    replace (beg + need - beg) with need by lia.
    set (bits' := set_seq beg need ∪ alloc_bitset_ p).
    set (p_ :=
      if bit_hint_ (with_bitset (with_hint p (bit_hint_ p)) bits') =? beg
      then with_hint (with_bitset (with_hint p (bit_hint_ p)) bits')
             (beg + need)
      else with_bitset (with_hint p (bit_hint_ p)) bits').
    assert (Hstatic :
      total_bits_ p_ = total_bits_ p
      /\ address_begin_ p_ = address_begin_ p
      /\ address_end_ p_ = address_end_ p
      /\ alloc_bitset_ p_ = bits'
      /\ bit_hint_ p_ <= total_bits_ p).
    { subst p_. destruct (_ =? beg); cbn; repeat split; lia. }
    destruct Hstatic as (Ht & Hb & He & Hbs & Hh).
    pose proof SP_pos as HSP.
    assert (Haddr :
      wrap64 (address_begin_ p_ + Z.of_nat beg * SP)
      = chunk_address kSuperPageShift p beg).
    { rewrite Hb. unfold chunk_address. apply wrap64_small.
      unfold is_u64. nia. }
    rewrite Haddr.
    assert (Hcheck :
      DCHECK DCHECK_IS_ON
        (wrap64 (chunk_address kSuperPageShift p beg + Z.of_nat need * SP)
         <=? address_end_ p_)%Z = Ret ()).
    { unfold DCHECK.
      replace (wrap64 _ <=? address_end_ p_)%Z with true;
        [now rewrite andb_false_r|].
      symmetry. apply Z.leb_le. rewrite He. unfold chunk_address.
      rewrite wrap64_small; [nia|]. unfold is_u64. nia. }
    rewrite Hcheck. cbn [mbind result_bind].
    exists p_, (chunk_address kSuperPageShift p beg).
    split; [reflexivity|]. split.
    { unfold Pool.pool_wf. rewrite Ht, Hb, He, Hbs.
      repeat split; try assumption.
      intros i Hi. subst bits'. apply elem_of_union in Hi as [Hi|Hi].
      - apply elem_of_set_seq in Hi. lia.
      - now apply Hbits. }
    do 3 (split; [assumption|]).
    right. exists beg. split; [reflexivity|]. split; [lia|].
    split; [|exact Hbs].
    intros j Hj. destruct (Nat.lt_ge_cases j curr).
    + apply Hclear. lia.
    + apply Hrun. lia.
  - (* a set bit was met: the next pass starts past it *)
    destruct (IH (with_hint p hint') beg' (curr + (beg + need - curr)))
      as (p' & address & Heq & Hwf' & Ht & Hb & He & Hres).
    + apply pool_wf_with_hint; [exact Hwf | lia].
    + cbn. lia.
    + cbn. exact Hrun.
    + cbn. lia.
    + exists p', address. split; [exact Heq|]. cbn in *.
      split; [exact Hwf'|]. do 3 (split; [assumption|]). exact Hres.
Qed.

Abbreviation chunk_address := (Pool.chunk_address kSuperPageShift).
Abbreviation chunk_bits := (Pool.chunk_bits kSuperPageShift).
Abbreviation Pool_new := (Pool.Pool_new kSuperPageShift kMaxBits DCHECK_IS_ON).
Abbreviation step := (Pool.step kSuperPageShift kMaxBits DCHECK_IS_ON).
Abbreviation steps := (Pool.steps kSuperPageShift kMaxBits DCHECK_IS_ON).
Abbreviation requests_roundable := (Pool.requests_roundable kSuperPageShift).

(** [FindChunk] on a well-formed pool returns: [0], and then the bitmap is
    as it was, or the address of a run of [ceil(size / super_page)] bits
    that were clear and are now set. *)
Lemma FindChunk_spec (p : Pool) (size : Z) :
  pool_wf p -> roundable size ->
  exists p' address,
    FindChunk p size = Ret (p', address)
    /\ pool_wf p'
    /\ total_bits_ p' = total_bits_ p
    /\ address_begin_ p' = address_begin_ p
    /\ address_end_ p' = address_end_ p
    /\ ((address = 0%Z /\ alloc_bitset_ p' = alloc_bitset_ p)
        \/ (exists b,
              address = chunk_address p b
              /\ b + super_pages size <= total_bits_ p
              /\ (forall i, b <= i < b + super_pages size ->
                            i ∉ alloc_bitset_ p)
              /\ alloc_bitset_ p'
                 = set_seq b (super_pages size) ∪ alloc_bitset_ p)).
Proof.
  intros Hwf Hsize. unfold Pool.FindChunk.
  rewrite need_bits_roundable, Align_roundable by exact Hsize.
  pose proof Hwf as (_ & Hhint & _).
  apply find_loop_spec; [exact Hwf | lia | intros i Hi; lia | lia].
Qed.

Lemma land_offset_mask (x : Z) : Z.land x (SP - 1) = (x mod SP)%Z.
Proof. rewrite offset_mask_ones, Z.land_ones, SP_pow by lia. reflexivity. Qed.

Lemma chunk_address_range (p : Pool) (b : nat) :
  pool_wf p -> b <= total_bits_ p ->
  (address_begin_ p <= chunk_address p b <= address_end_ p)%Z
  /\ (chunk_address p b mod SP = 0)%Z
  /\ ((chunk_address p b - address_begin_ p) / SP = Z.of_nat b)%Z.
Proof.
  intros (_ & _ & Hbegin & Halign & Hend & Hmod & _) Hb.
  pose proof SP_pos. unfold Pool.chunk_address. split; [nia|]. split.
  - rewrite Z.mod_add by lia. exact Halign.
  - replace (address_begin_ p + Z.of_nat b * SP - address_begin_ p)%Z
      with (Z.of_nat b * SP)%Z by lia.
    apply Z.div_mul. lia.
Qed.

(** [FreeChunk] of a run of set bits, for a size that need not be a
    multiple of the super page. *)
Lemma FreeChunk_spec (p : Pool) (b : nat) (size : Z) :
  pool_wf p -> roundable size ->
  b + super_pages size <= total_bits_ p ->
  (forall i, b <= i < b + super_pages size -> i ∈ alloc_bitset_ p) ->
  FreeChunk p (chunk_address p b) size
  = Ret (with_hint
           (with_bitset p (alloc_bitset_ p ∖ set_seq b (super_pages size)))
           (Nat.min (bit_hint_ p) b)).
Proof.
  intros Hwf Hsize Hfits Hset.
  pose proof Hwf as (Htotal & Hhint & Hbegin & Halign & Hend & Hmod & Hbits).
  destruct (chunk_address_range p b Hwf ltac:(lia)) as (Hin & Hal & Hdiv).
  pose proof SP_pos as HSP.
  unfold Pool.FreeChunk.
  rewrite land_offset_mask, Hal, Align_roundable by exact Hsize.
  assert (Hsum :
    (chunk_address p b + Z.of_nat (super_pages size) * SP
     <= address_end_ p)%Z).
  { unfold Pool.chunk_address. rewrite Hend. nia. }
  rewrite (wrap64_small (chunk_address p b + _)) by (unfold is_u64; nia).
  rewrite (wrap64_small (chunk_address p b - _)) by (unfold is_u64; nia).
  rewrite Hdiv, Nat2Z.id, Z.div_mul, Nat2Z.id by lia.
  unfold DCHECK.
  replace (address_begin_ p <=? chunk_address p b)%Z with true
    by (symmetry; apply Z.leb_le; lia).
  replace (chunk_address p b + Z.of_nat (super_pages size) * SP
           <=? address_end_ p)%Z with true
    by (symmetry; apply Z.leb_le; lia).
  rewrite Z.eqb_refl, !andb_false_r. cbn [mbind result_bind].
  replace (b + super_pages size - b) with (super_pages size) by lia.
  rewrite clear_spec by (assumption || lia). reflexivity.
Qed.

Lemma pool_wf_after_free (p : Pool) (b n : nat) :
  pool_wf p ->
  pool_wf (with_hint (with_bitset p (alloc_bitset_ p ∖ set_seq b n))
             (Nat.min (bit_hint_ p) b)).
Proof.
  intros (H1 & H2 & H3 & H4 & H5 & H6 & H7).
  unfold Pool.pool_wf. cbn.
  split; [assumption|]. split; [lia|]. do 4 (split; [assumption|]).
  intros i Hi. apply elem_of_difference in Hi as [Hi _]. now apply H7.
Qed.

(** The pool that the constructor builds. *)
Lemma Pool_new_wf (ptr length : Z) (p : Pool) :
  (0 < ptr)%Z -> (0 <= length)%Z -> (ptr + length < modulus)%Z ->
  Pool_new ptr length = Ret p ->
  pool_wf p /\ alloc_bitset_ p = ∅.
Proof.
  intros Hptr Hlen Hend. unfold Pool.Pool_new, CHECK, DCHECK.
  destruct (Nat.leb_spec (Z.to_nat (length / SP)) kMaxBits) as [Hmax|];
    [|discriminate].
  cbn [mbind result_bind]. rewrite !land_offset_mask.
  destruct (Z.eqb_spec (ptr mod SP) 0) as [Hal|]; [|discriminate].
  destruct (Z.eqb_spec (length mod SP) 0) as [Hll|]; [|discriminate].
  cbn [mbind result_bind].
  destruct (DCHECK_IS_ON && negb (ptr <? wrap64 (ptr + length))%Z);
    [discriminate|].
  cbn [mbind result_bind]. intros [= <-].
  pose proof SP_pos as HSP.
  assert (Hdiv : (0 <= length / SP)%Z) by (apply Z.div_pos; lia).
  assert (Hexact : (length = length / SP * SP)%Z).
  { pose proof (Z.div_mod length SP ltac:(lia)). lia. }
  split; [|reflexivity].
  unfold Pool.pool_wf. cbn.
  rewrite wrap64_small by (unfold is_u64; lia).
  rewrite Z2Nat.id by exact Hdiv.
  split; [exact Hmax|]. split; [lia|]. split; [exact Hptr|].
  split; [exact Hal|]. split; [lia|]. split; [exact Hend|].
  intros i Hi. now apply not_elem_of_empty in Hi.
Qed.

Abbreviation chunk_ok := (Pool.chunk_ok kSuperPageShift).
Abbreviation pool_inv := (Pool.pool_inv kSuperPageShift kMaxBits).
Abbreviation exec := (Pool.exec kSuperPageShift kMaxBits DCHECK_IS_ON).
Abbreviation run := (Pool.run kSuperPageShift kMaxBits DCHECK_IS_ON).

Lemma covers_size (ranges : list (gset nat)) (bits : gset nat) :
  covers ranges bits -> size bits = sum_list (size <$> ranges).
Proof.
  revert bits. induction ranges as [|r ranges IH]; intros bits Hcov.
  - cbn in Hcov. subst bits. apply size_empty.
  - destruct Hcov as [Hsub Hcov]. cbn [fmap list_fmap sum_list sum_list_with].
    rewrite <- (IH _ Hcov).
    rewrite (union_difference_L r bits Hsub) at 1.
    apply size_union. set_solver.
Qed.

Lemma covers_add (ranges : list (gset nat)) (bits r : gset nat) :
  covers ranges bits -> r ## bits -> covers (r :: ranges) (r ∪ bits).
Proof.
  intros Hcov Hdisj. split; [set_solver|].
  replace ((r ∪ bits) ∖ r) with bits; [exact Hcov|].
  apply set_eq. intros x. set_solver.
Qed.

Lemma covers_remove (l1 l2 : list (gset nat)) (bits r : gset nat) :
  covers (l1 ++ r :: l2) bits -> r ⊆ bits /\ covers (l1 ++ l2) (bits ∖ r).
Proof.
  revert bits. induction l1 as [|r1 l1 IH]; intros bits Hcov.
  - exact Hcov.
  - destruct Hcov as [Hsub Hcov]. destruct (IH _ Hcov) as [Hr Hrest].
    split; [set_solver|]. split; [set_solver|].
    replace (bits ∖ r ∖ r1) with (bits ∖ r1 ∖ r); [exact Hrest|].
    apply set_eq. intros x. set_solver.
Qed.

Lemma chunk_bits_at (p : Pool) (b : nat) (size : Z) :
  pool_wf p -> b <= total_bits_ p ->
  chunk_bits p (chunk_address p b, size) = set_seq b (super_pages size).
Proof.
  intros Hwf Hb. unfold Pool.chunk_bits. cbn [fst snd].
  destruct (chunk_address_range p b Hwf Hb) as (_ & _ & ->).
  now rewrite Nat2Z.id.
Qed.

Lemma chunk_bits_static (p p' : Pool) (live : list (Z * Z)) :
  address_begin_ p' = address_begin_ p ->
  chunk_bits p' <$> live = chunk_bits p <$> live.
Proof.
  intros Hb. apply list_fmap_ext. intros _ c _.
  unfold Pool.chunk_bits. now rewrite Hb.
Qed.

Lemma chunk_ok_static (p p' : Pool) (live : list (Z * Z)) :
  address_begin_ p' = address_begin_ p ->
  total_bits_ p' = total_bits_ p ->
  Forall (chunk_ok p) live -> Forall (chunk_ok p') live.
Proof.
  intros Hb Ht Hall. eapply Forall_impl; [exact Hall|].
  intros c (Hr & b & Ha & Hfit).
  split; [exact Hr|]. exists b. unfold Pool.chunk_address in *.
  rewrite Hb, Ht. split; assumption.
Qed.

Lemma chunk_address_nonzero (p : Pool) (b : nat) :
  pool_wf p -> chunk_address p b <> 0%Z.
Proof.
  intros (_ & _ & Hbegin & _). pose proof SP_pos.
  unfold Pool.chunk_address. nia.
Qed.

(** A call on a pool in a state of the invariant leaves a state of the
    invariant. *)
Lemma step_inv (s s' : Pool * list (Z * Z)) (c : call) :
  step s c s' ->
  match c with find_chunk size => roundable size | free_chunk _ _ => True end ->
  pool_inv s -> pool_inv s'.
Proof.
  intros Hstep Hsize (Hwf & Hok & Hcov).
  destruct Hstep as [p p' live size address Hfind Hnz
                    |p p' live size Hfind
                    |p p' live1 live2 size address Hfree];
    unfold Pool.pool_inv; cbn [fst snd] in *.
  - destruct (FindChunk_spec p size Hwf Hsize)
      as (p1 & a1 & Heq & Hwf' & Ht & Hb & He & Hres).
    rewrite Hfind in Heq. injection Heq as <- <-.
    destruct Hres as [[Hzero _]|(b & Ha & Hfit & Hclear & Hbits)];
      [contradiction|].
    split; [exact Hwf'|]. split.
    + constructor; [|now apply (chunk_ok_static p)].
      split; [exact Hsize|]. exists b. unfold Pool.chunk_address in *.
      rewrite Hb, Ht. split; assumption.
    + cbn [fmap list_fmap]. fold (fmap (chunk_bits p') live).
      rewrite (chunk_bits_static p p' live Hb).
      replace (chunk_bits p' (address, size))
        with (set_seq (C:=gset nat) b (super_pages size)).
      2:{ rewrite Ha. unfold Pool.chunk_bits, Pool.chunk_address.
          cbn [fst snd]. rewrite Hb.
          fold (chunk_address p b).
          destruct (chunk_address_range p b Hwf ltac:(lia)) as (_ & _ & ->).
          now rewrite Nat2Z.id. }
      rewrite Hbits. apply covers_add; [exact Hcov|].
      intros x Hx Hx'. apply elem_of_set_seq in Hx. now apply (Hclear x).
  - destruct (FindChunk_spec p size Hwf Hsize)
      as (p1 & a1 & Heq & Hwf' & Ht & Hb & He & Hres).
    rewrite Hfind in Heq. injection Heq as <- <-.
    destruct Hres as [[_ Hbits]|(b & Ha & _)].
    2:{ symmetry in Ha. now apply chunk_address_nonzero in Ha. }
    split; [exact Hwf'|]. split; [now apply (chunk_ok_static p)|].
    rewrite (chunk_bits_static p p' live Hb), Hbits. exact Hcov.
  - rewrite fmap_app in Hcov. cbn [fmap list_fmap] in Hcov.
    apply covers_remove in Hcov as [Hsub Hcov].
    pose proof Hok as Hc. apply Forall_app in Hc as [Hok1 Hc].
    apply Forall_cons in Hc as [(Hr & b & Ha & Hfit) Hok2].
    cbn [fst snd] in *. subst address.
    rewrite (chunk_bits_at p b size Hwf ltac:(lia)) in Hsub, Hcov.
    rewrite FreeChunk_spec in Hfree; try assumption.
    2:{ intros i Hi. apply Hsub, elem_of_set_seq. lia. }
    injection Hfree as <-.
    split; [now apply pool_wf_after_free|]. split.
    + apply Forall_app. split; now apply (chunk_ok_static p).
    + erewrite (chunk_bits_static p); [|reflexivity].
      cbn [alloc_bitset_ with_hint with_bitset]. rewrite fmap_app.
      exact Hcov.
Qed.

Lemma steps_inv (s s' : Pool * list (Z * Z)) (calls : list call) :
  steps s calls s' -> requests_roundable calls -> pool_inv s -> pool_inv s'.
Proof.
  induction 1 as [s|s1 s2 s3 c cs Hstep _ IH]; intros Hreq Hinv.
  - exact Hinv.
  - apply Forall_cons in Hreq as [Hc Hreq].
    apply IH; [exact Hreq|]. now apply (step_inv s1 s2 c).
Qed.

Lemma pool_inv_count (p : Pool) (live : list (Z * Z)) :
  pool_inv (p, live) ->
  size (alloc_bitset_ p) = sum_list ((fun c => super_pages c.2) <$> live).
Proof.
  intros (_ & _ & Hcov). cbn [fst snd] in Hcov.
  rewrite (covers_size _ _ Hcov), <- list_fmap_compose.
  f_equal. apply list_fmap_ext. intros _ c _. cbn.
  unfold Pool.chunk_bits. apply size_set_seq.
Qed.

(** Every call that the sequences are made of can be made: the operations
    do not stop on a failing check and do not run out of fuel. *)
Lemma step_exists (s : Pool * list (Z * Z)) (c : call) :
  pool_inv s ->
  match c with
  | find_chunk size => roundable size
  | free_chunk address size => (address, size) ∈ s.2
  end ->
  exists s', step s c s'.
Proof.
  destruct s as [p live]. intros (Hwf & Hok & Hcov) Hc. cbn [fst snd] in *.
  destruct c as [size|address size].
  - destruct (FindChunk_spec p size Hwf Hc) as (p' & a & Heq & _).
    destruct (Z.eq_dec a 0%Z) as [->|Hnz].
    + eexists. eapply step_find_fail. exact Heq.
    + eexists. eapply step_find; [exact Heq | exact Hnz].
  - apply list_elem_of_split in Hc as (l1 & l2 & ->).
    rewrite fmap_app in Hcov. cbn [fmap list_fmap] in Hcov.
    apply covers_remove in Hcov as [Hsub _].
    apply Forall_app in Hok as [_ Hok].
    apply Forall_cons in Hok as [(Hr & b & Ha & Hfit) _].
    cbn [fst snd] in *. subst address.
    rewrite (chunk_bits_at p b size Hwf ltac:(lia)) in Hsub.
    eexists. apply step_free. apply FreeChunk_spec; try assumption.
    intros i Hi. apply Hsub, elem_of_set_seq. lia.
Qed.

Lemma remove_chunk_split (c : Z * Z) (live live' : list (Z * Z)) :
  remove_chunk c live = Some live' ->
  exists l1 l2, live = l1 ++ c :: l2 /\ live' = l1 ++ l2.
Proof.
  revert live'. induction live as [|c' live IH]; intros live' Hrem;
    [discriminate|].
  cbn [remove_chunk] in Hrem. destruct (decide (c = c')) as [<-|Hne].
  - injection Hrem as <-. now exists [], live.
  - destruct (remove_chunk c live) as [l|]; [|discriminate].
    injection Hrem as <-. destruct (IH l eq_refl) as (l1 & l2 & -> & ->).
    now exists (c' :: l1), l2.
Qed.

Lemma exec_step (s s' : Pool * list (Z * Z)) (c : call) :
  exec s c = Ret s' -> step s c s'.
Proof.
  destruct s as [p live]. destruct c as [size|address size];
    cbn [Pool.exec fst snd].
  - destruct (FindChunk p size) as [[p' a]| |] eqn:Hfind; try discriminate.
    cbn [mbind result_bind]. intros [= <-].
    destruct (Z.eqb_spec a 0%Z) as [->|Hnz].
    + now apply step_find_fail.
    + now apply step_find.
  - destruct (remove_chunk (address, size) live) as [live'|] eqn:Hrem;
      [|discriminate].
    destruct (FreeChunk p address size) as [p'| |] eqn:Hfree;
      try discriminate.
    cbn [mbind result_bind]. intros [= <-].
    apply remove_chunk_split in Hrem as (l1 & l2 & -> & ->).
    now apply step_free.
Qed.

Lemma run_steps (s s' : Pool * list (Z * Z)) (calls : list call) :
  run s calls = Ret s' -> steps s calls s'.
Proof.
  revert s. induction calls as [|c calls IH]; intros s; cbn [Pool.run].
  - intros [= <-]. apply steps_nil.
  - destruct (exec s c) as [s1| |] eqn:Hexec; try discriminate.
    cbn [mbind result_bind]. intros Hrun.
    eapply steps_cons; [apply exec_step; exact Hexec | apply IH; exact Hrun].
Qed.

(** C7, as amended.  From the pool that the constructor builds, after any
    sequence of [find_chunk] and [free_chunk] calls in which every
    [free_chunk] releases a live chunk with the size it was allocated with
    and every [find_chunk] asks for a size that can be rounded up to super
    pages within [size_t], the number of set bits of the bitmap is the sum
    of [ceil(size / super_page)] over the live chunks. *)
Theorem set_bits_count (ptr length : Z) (p0 p : Pool) (calls : list call)
    (live : list (Z * Z)) :
  (0 < ptr)%Z -> (0 <= length)%Z -> (ptr + length < modulus)%Z ->
  Pool_new ptr length = Ret p0 ->
  requests_roundable calls ->
  steps (p0, []) calls (p, live) ->
  size (alloc_bitset_ p) = sum_list ((fun c => super_pages c.2) <$> live).
Proof.
  intros Hptr Hlen Hend Hnew Hreq Hsteps.
  destruct (Pool_new_wf ptr length p0 Hptr Hlen Hend Hnew) as [Hwf Hempty].
  apply pool_inv_count.
  apply (steps_inv (p0, []) (p, live) calls Hsteps Hreq).
  split; [exact Hwf|]. split; [constructor|]. exact Hempty.
Qed.

(** C8, as amended.  In a build with debug checks [FreeChunk] stops on an
    address that is not aligned on a super page.  The size is not checked:
    it is rounded up to super pages.  For the address of a run of the pool
    and a size, aligned or not, whose rounded-up run lies in the pool, the
    call clears the bits of the run and sets the hint to
    [min(bit_hint_, beg_bit)] when all these bits are set, and in a build
    with debug checks it stops when one of them is clear. *)
Theorem FreeChunk_checks (p : Pool) (address size : Z) (b : nat) :
  pool_wf p -> roundable size ->
  (Z.land address (kSuperPageOffsetMask kSuperPageShift) <> 0%Z ->
   Pool.FreeChunk kSuperPageShift kMaxBits true p address size = Abort)
  /\ (b + super_pages size <= total_bits_ p ->
      ((forall i, b <= i < b + super_pages size -> i ∈ alloc_bitset_ p) ->
       FreeChunk p (chunk_address p b) size
       = Ret (with_hint
                (with_bitset p
                   (alloc_bitset_ p ∖ set_seq b (super_pages size)))
                (Nat.min (bit_hint_ p) b)))
      /\ ((exists i, b <= i < b + super_pages size /\ i ∉ alloc_bitset_ p) ->
          Pool.FreeChunk kSuperPageShift kMaxBits true p (chunk_address p b)
            size = Abort)).
Proof.
  intros Hwf Hsize. split.
  { intros Hmis. unfold Pool.FreeChunk, DCHECK.
    destruct (Z.eqb_spec (Z.land address (kSuperPageOffsetMask kSuperPageShift))
                0) as [|_]; [contradiction|].
    reflexivity. }
  intros Hfits. split; [now apply FreeChunk_spec|].
  intros Hclear.
  pose proof Hwf as (Htotal & Hhint & Hbegin & Halign & Hend & Hmod & Hbits).
  destruct (chunk_address_range p b Hwf ltac:(lia)) as (Hin & Hal & Hdiv).
  pose proof SP_pos as HSP.
  unfold Pool.FreeChunk.
  fold (kSuperPageOffsetMask kSuperPageShift).
  unfold kSuperPageOffsetMask.
  rewrite land_offset_mask, Hal, Align_roundable by exact Hsize.
  assert (Hsum :
    (chunk_address p b + Z.of_nat (super_pages size) * SP
     <= address_end_ p)%Z).
  { unfold Pool.chunk_address. rewrite Hend. nia. }
  rewrite (wrap64_small (chunk_address p b + _)) by (unfold is_u64; nia).
  rewrite (wrap64_small (chunk_address p b - _)) by (unfold is_u64; nia).
  rewrite Hdiv, Nat2Z.id, Z.div_mul, Nat2Z.id by lia.
  unfold DCHECK.
  replace (address_begin_ p <=? chunk_address p b)%Z with true
    by (symmetry; apply Z.leb_le; lia).
  replace (chunk_address p b + Z.of_nat (super_pages size) * SP
           <=? address_end_ p)%Z with true
    by (symmetry; apply Z.leb_le; lia).
  rewrite Z.eqb_refl. cbn [negb andb mbind result_bind].
  replace (b + super_pages size - b) with (super_pages size) by lia.
  rewrite clear_aborts; [reflexivity | lia | exact Hclear].
Qed.

(** C10.  On every well-formed pool [FindChunk] of 0 bytes does not fail: it
    leaves the pool, its bitmap included, as it was and returns
    [address_begin_ + bit_hint_ * kSuperPageSize], which is not [0] and
    which is the end of the pool, one past its last byte, when the hint is
    [total_bits_]. *)
Theorem FindChunk_zero (p : Pool) :
  pool_wf p ->
  FindChunk p 0 = Ret (p, chunk_address p (bit_hint_ p))
  /\ chunk_address p (bit_hint_ p) <> 0%Z
  /\ (bit_hint_ p = total_bits_ p ->
      chunk_address p (bit_hint_ p) = address_end_ p).
Proof.
  intros Hwf.
  pose proof Hwf as (Htotal & Hhint & Hbegin & Halign & Hend & Hmod & Hbits).
  pose proof SP_pos as HSP.
  split; [|split].
  - unfold Pool.FindChunk.
    rewrite need_bits_roundable, Align_roundable, super_pages_0
      by apply roundable_0.
    cbn [Pool.find_loop]. rewrite Nat.add_0_r, Nat.sub_diag.
    destruct (Nat.ltb_spec (total_bits_ p) (bit_hint_ p)); [lia|].
    cbn [Pool.scan Pool.fill mbind result_bind with_hint with_bitset
         bit_hint_ alloc_bitset_ address_begin_ address_end_].
    rewrite Nat.eqb_refl, Nat.sub_diag.
    cbn [Pool.fill mbind result_bind with_hint with_bitset bit_hint_
         alloc_bitset_ address_begin_ address_end_].
    fold (chunk_address p (bit_hint_ p)).
    assert (Hu : is_u64 (chunk_address p (bit_hint_ p))).
    { unfold Pool.chunk_address, is_u64. nia. }
    rewrite (wrap64_small _ Hu). change (Z.of_nat 0 * SP)%Z with 0%Z.
    rewrite Z.add_0_r, (wrap64_small _ Hu). unfold DCHECK.
    replace (chunk_address p (bit_hint_ p) <=? address_end_ p)%Z with true.
    + rewrite andb_false_r. cbn [mbind result_bind]. now destruct p.
    + symmetry. apply Z.leb_le. unfold Pool.chunk_address. nia.
  - now apply chunk_address_nonzero.
  - intros Hfull. unfold Pool.chunk_address. rewrite Hfull, Hend.
    reflexivity.
Qed.

End Facts.

(** The first scenario of the specification. *)
Lemma set_bits_count_witness :
  size (alloc_bitset_ Examples.scenario_pool)
  = sum_list ((fun c => super_pages Examples.kSuperPageShift c.2)
              <$> Examples.scenario_live).
Proof.
  apply (set_bits_count Examples.kSuperPageShift Examples.kMaxBits true
           ltac:(unfold Examples.kSuperPageShift; lia)
           Examples.pool_base (4 * Examples.SP)
           Examples.fresh_pool Examples.scenario_pool
           Examples.scenario_calls Examples.scenario_live).
  - reflexivity.
  - discriminate.
  - reflexivity.
  - vm_compute. reflexivity.
  - repeat constructor; discriminate.
  - apply run_steps; [unfold Examples.kSuperPageShift; lia|].
    vm_compute. reflexivity.
Defined.

(** C7 as stated fails for a request that cannot be rounded up to super
    pages within [size_t]: [bits::Align] of [2^64 - 1] wraps around to [0],
    so on the empty pool of four super pages [FindChunk] returns the start
    of the region, as it does for a request of no byte, and sets no bit,
    while [ceil((2^64 - 1) / super_page)] is not zero. *)
Lemma unroundable_request_sets_no_bit :
  Pool.Pool_new Examples.kSuperPageShift Examples.kMaxBits true
    Examples.pool_base (4 * Examples.SP) = Ret Examples.fresh_pool
  /\ steps Examples.kSuperPageShift Examples.kMaxBits true
       (Examples.fresh_pool, []) [find_chunk (2 ^ 64 - 1)]
       (Examples.fresh_pool, [(Examples.pool_base, 2 ^ 64 - 1)])
  /\ size (alloc_bitset_ Examples.fresh_pool)
     <> sum_list ((fun c => super_pages Examples.kSuperPageShift c.2)
                  <$> [(Examples.pool_base, 2 ^ 64 - 1)]).
Proof.
  split; [vm_compute; reflexivity|]. split.
  { apply run_steps; [unfold Examples.kSuperPageShift; lia|].
    vm_compute. reflexivity. }
  change (alloc_bitset_ Examples.fresh_pool) with (∅ : gset nat).
  change (sum_list ((fun c => super_pages Examples.kSuperPageShift c.2)
                    <$> [(Examples.pool_base, 2 ^ 64 - 1)]))
    with (super_pages Examples.kSuperPageShift (2 ^ 64 - 1) + 0)%nat.
  rewrite size_empty, Nat.add_0_r. apply Nat.lt_neq.
  unfold Pool.super_pages.
  match goal with
  | |- (0 < Z.to_nat ?x)%nat =>
    assert (Hpos : 0 < x) by (vm_compute; reflexivity);
    exact (proj1 (Z2Nat.inj_lt 0 x (Z.le_refl 0) (Z.lt_le_incl _ _ Hpos))
             Hpos)
  end.
Qed.

Lemma example_pool_wf (hint : nat) (bits : gset nat) :
  (hint <= 4)%nat ->
  (forall i, i ∈ bits -> (i < 4)%nat) ->
  pool_wf Examples.kSuperPageShift Examples.kMaxBits
    {| total_bits_ := 4;
       address_begin_ := Examples.pool_base;
       address_end_ := Examples.pool_base + 4 * Examples.SP;
       bit_hint_ := hint;
       alloc_bitset_ := bits |}.
Proof.
  intros Hhint Hbits. unfold pool_wf, Examples.kMaxBits. cbn.
  split; [lia|]. split; [exact Hhint|]. split; [reflexivity|].
  split; [reflexivity|]. split; [reflexivity|]. split; [reflexivity|].
  exact Hbits.
Qed.

(** A size of one byte is not aligned on a super page; [FreeChunk] in a build
    with debug checks rounds it up and frees the super page. *)
Lemma FreeChunk_rounds_size_up :
  Z.land 1 (kSuperPageOffsetMask Examples.kSuperPageShift) <> 0
  /\ Examples.FreeChunk Examples.one_chunk_pool Examples.pool_base 1
     = Ret Examples.fresh_pool.
Proof. split; [discriminate | vm_compute; reflexivity]. Qed.

(** The theorem on the pool with one chunk, for a misaligned address and
    for the run at bit 0. *)
Lemma FreeChunk_checks_witness :
  (Z.land (Examples.pool_base + 1)
     (kSuperPageOffsetMask Examples.kSuperPageShift) <> 0 ->
   Examples.FreeChunk Examples.one_chunk_pool (Examples.pool_base + 1)
     Examples.SP = Abort)
  /\ ((0 + super_pages Examples.kSuperPageShift Examples.SP
       <= total_bits_ Examples.one_chunk_pool)%nat ->
      ((forall i,
          (0 <= i < 0 + super_pages Examples.kSuperPageShift Examples.SP)%nat ->
          i ∈ alloc_bitset_ Examples.one_chunk_pool) ->
       Examples.FreeChunk Examples.one_chunk_pool
         (chunk_address Examples.kSuperPageShift Examples.one_chunk_pool 0)
         Examples.SP
       = Ret (with_hint
                (with_bitset Examples.one_chunk_pool
                   (alloc_bitset_ Examples.one_chunk_pool
                    ∖ set_seq 0
                        (super_pages Examples.kSuperPageShift Examples.SP)))
                (Nat.min (bit_hint_ Examples.one_chunk_pool) 0)))
      /\ ((exists i,
             (0 <= i < 0 + super_pages Examples.kSuperPageShift Examples.SP)%nat
             /\ i ∉ alloc_bitset_ Examples.one_chunk_pool) ->
          Examples.FreeChunk Examples.one_chunk_pool
            (chunk_address Examples.kSuperPageShift Examples.one_chunk_pool 0)
            Examples.SP = Abort)).
Proof.
  apply (FreeChunk_checks Examples.kSuperPageShift Examples.kMaxBits true
           ltac:(unfold Examples.kSuperPageShift; lia)
           Examples.one_chunk_pool (Examples.pool_base + 1) Examples.SP 0).
  - apply example_pool_wf; [lia|].
    intros i Hi. apply elem_of_singleton in Hi. lia.
  - split; [discriminate | discriminate].
Defined.

(** The theorem on the pool whose four bits are set: the address returned
    is the end of the pool. *)
Lemma FindChunk_zero_witness :
  Pool.FindChunk Examples.kSuperPageShift Examples.kMaxBits true
    Examples.full_pool 0
  = Ret (Examples.full_pool,
         chunk_address Examples.kSuperPageShift Examples.full_pool
           (bit_hint_ Examples.full_pool))
  /\ chunk_address Examples.kSuperPageShift Examples.full_pool
       (bit_hint_ Examples.full_pool) <> 0
  /\ (bit_hint_ Examples.full_pool = total_bits_ Examples.full_pool ->
      chunk_address Examples.kSuperPageShift Examples.full_pool
        (bit_hint_ Examples.full_pool)
      = address_end_ Examples.full_pool).
Proof.
  apply (FindChunk_zero Examples.kSuperPageShift Examples.kMaxBits true
           ltac:(unfold Examples.kSuperPageShift; lia) Examples.full_pool).
  apply example_pool_wf; [lia|].
  intros i Hi. set_unfold in Hi. lia.
Defined.

End PoolFacts.

(** ** The scheduler-loop quarantine *)

Module SlqFacts.

Import Slq.

Lemma pop_back_nil {A : Type} : pop_back (@nil A) = None.
Proof. reflexivity. Qed.

Lemma pop_back_snoc {A : Type} (l : list A) (x : A) :
  pop_back (l ++ [x]) = Some (l, x).
Proof.
  unfold pop_back. rewrite rev_app_distr. cbn. now rewrite rev_involutive.
Qed.

Lemma swap_with_back_length {A : Type} (l : list A) (i : nat) :
  length (swap_with_back l i) = length l.
Proof.
  unfold swap_with_back. destruct (l !! i), (last l); try reflexivity.
  now rewrite !length_insert.
Qed.

Lemma swap_with_back_perm {A : Type} (l : list A) (i : nat) :
  swap_with_back l i ≡ₚ l.
Proof.
  unfold swap_with_back.
  destruct (l !! i) as [x|] eqn:Hx; [|reflexivity].
  destruct (last l) as [y|] eqn:Hy; [|reflexivity].
  destruct l as [|z l0 _] using rev_ind; [discriminate|].
  rewrite last_snoc in Hy. injection Hy as ->.
  rewrite length_app. cbn [length]. rewrite Nat.add_1_r. cbn [pred].
  rewrite insert_app_r_alt by lia. rewrite Nat.sub_diag. cbn [list_insert app].
  destruct (decide (i < length l0)%nat) as [Hlt|Hge].
  - rewrite lookup_app_l in Hx by exact Hlt.
    rewrite insert_app_l by exact Hlt.
    rewrite <- (take_drop_middle l0 i x Hx) at 2.
    rewrite insert_take_drop by exact Hlt.
    solve_Permutation.
  - apply lookup_lt_Some in Hx as Hi. rewrite length_app in Hi. cbn in Hi.
    assert (i = length l0) as -> by lia.
    rewrite lookup_app_r, Nat.sub_diag in Hx by lia. injection Hx as ->.
    rewrite insert_app_r_alt, Nat.sub_diag by lia. reflexivity.
Qed.

Section Facts.

Variable Rng : Type.
Variable RandUint32 : Rng -> Z * Rng.
Variable allocator_root_ : PartitionRoot.
Variable DCHECKS_ARE_ON : bool.
Variable ENABLE_BACKUP_REF_PTR_SUPPORT : bool.
Variable kFreedByte : Z.

Abbreviation State := (Slq.State Rng).
Abbreviation PurgeInternal_loop :=
  (Slq.PurgeInternal_loop Rng allocator_root_ DCHECKS_ARE_ON).
Abbreviation PurgeInternal :=
  (Slq.PurgeInternal Rng allocator_root_ DCHECKS_ARE_ON).
Abbreviation PurgeInternalWithDefferedFree_loop :=
  (Slq.PurgeInternalWithDefferedFree_loop Rng).
Abbreviation PurgeInternalWithDefferedFree :=
  (Slq.PurgeInternalWithDefferedFree Rng).
Abbreviation BatchFree := (Slq.BatchFree Rng allocator_root_ DCHECKS_ARE_ON).
Abbreviation QuarantineEpilogue :=
  (Slq.QuarantineEpilogue Rng allocator_root_ ENABLE_BACKUP_REF_PTR_SUPPORT
     kFreedByte).
Abbreviation push_and_shuffle := (Slq.push_and_shuffle Rng RandUint32).
Abbreviation Quarantine_thread_bound :=
  (Slq.Quarantine_thread_bound Rng RandUint32 allocator_root_ DCHECKS_ARE_ON
     ENABLE_BACKUP_REF_PTR_SUPPORT kFreedByte).
Abbreviation Quarantine_shared :=
  (Slq.Quarantine_shared Rng RandUint32 allocator_root_ DCHECKS_ARE_ON
     ENABLE_BACKUP_REF_PTR_SUPPORT kFreedByte).
Abbreviation Quarantine :=
  (Slq.Quarantine Rng RandUint32 allocator_root_ DCHECKS_ARE_ON
     ENABLE_BACKUP_REF_PTR_SUPPORT kFreedByte).
Abbreviation Purge := (Slq.Purge Rng allocator_root_ DCHECKS_ARE_ON).
Abbreviation branch_wf := (Slq.branch_wf Rng allocator_root_ DCHECKS_ARE_ON).
Abbreviation slot_checked := (Slq.slot_checked allocator_root_ DCHECKS_ARE_ON).
Abbreviation free_of := (Slq.free_of allocator_root_).
Abbreviation PA_DCHECK := (DCHECK DCHECKS_ARE_ON).

Lemma sum_sizes_app (l1 l2 : list QuarantineSlot) :
  sum_sizes (l1 ++ l2) = sum_sizes l1 + sum_sizes l2.
Proof.
  induction l1 as [|s l1 IH]; cbn [sum_sizes foldr app]; [reflexivity|].
  fold (sum_sizes (l1 ++ l2)). fold (sum_sizes l1). lia.
Qed.

Lemma sum_sizes_nonneg (l : list QuarantineSlot) :
  Forall (fun s => 0 <= usable_size s) l -> 0 <= sum_sizes l.
Proof.
  induction 1 as [|s l Hs _ IH]; cbn [sum_sizes foldr]; [lia|].
  fold (sum_sizes l). lia.
Qed.

Lemma sum_sizes_pos (l : list QuarantineSlot) :
  Forall (fun s => 0 < usable_size s) l -> l <> [] -> 0 < sum_sizes l.
Proof.
  intros Hall Hne. destruct Hall as [|s l Hs Hall]; [contradiction|].
  cbn [sum_sizes foldr]. fold (sum_sizes l).
  assert (0 <= sum_sizes l).
  { apply sum_sizes_nonneg. eapply Forall_impl; [exact Hall|].
    cbn. intros. lia. }
  lia.
Qed.

Lemma PA_DCHECK_true : PA_DCHECK true = Ret ().
Proof. unfold DCHECK. now rewrite andb_false_r. Qed.

Lemma PA_DCHECK_holds (c : bool) :
  (DCHECKS_ARE_ON = true -> c = true) -> PA_DCHECK c = Ret ().
Proof.
  intros Hc. unfold DCHECK.
  destruct DCHECKS_ARE_ON; [|reflexivity]. now rewrite Hc.
Qed.

Lemma free_checks_pass (slot_start : Z) :
  slot_checked slot_start ->
  PA_DCHECK (FromSlotStart allocator_root_ slot_start
             =? FromObject allocator_root_
                  (SlotStartToObject allocator_root_ slot_start)) = Ret ()
  /\ PA_DCHECK (negb (slot_start =? 0)) = Ret ().
Proof.
  intros Hs. split; apply PA_DCHECK_holds; intros Hon;
    destruct (Hs Hon) as [Hnz Heq].
  - apply Z.eqb_eq, Heq.
  - apply negb_true_iff, Z.eqb_neq, Hnz.
Qed.

(** The loop of [PurgeInternal] on a well-formed branch: with more fuel than
    there are entries it returns, having popped entries from the back and
    freed each of them once, in that order, until the bytes held are at
    most the target. *)
Lemma PurgeInternal_loop_spec (fuel : nat) (target : Z) (st : State)
    (freed_count freed_size : Z) :
  branch_wf st -> 0 <= target ->
  (length (slots_ (branch st)) < fuel)%nat ->
  exists kept popped,
    slots_ (branch st) = kept ++ popped
    /\ sum_sizes kept <= target
    /\ PurgeInternal_loop fuel target st freed_count freed_size
       = Ret (with_slots Rng
                {| branch := branch st;
                   root_ := root_ st;
                   events :=
                     events st
                     ++ (free_of <$> (slot_start <$> rev popped)) |}
                kept (sum_sizes kept),
              freed_count + Z.of_nat (length popped),
              freed_size + sum_sizes popped).
Proof.
  revert st freed_count freed_size.
  induction fuel as [|fuel IH]; intros st fc fs Hwf Htarget Hfuel; [lia|].
  pose proof Hwf as (Hsize & Hnonneg & Hu & Hcap & Hchecked).
  cbn [Slq.PurgeInternal_loop].
  destruct (Z.ltb_spec target (branch_size_in_bytes_ (branch st)))
    as [Hover|Hfits].
  - destruct (slots_ (branch st)) as [|s0 l0] eqn:Hslots using rev_ind.
    { cbn in Hsize. lia. }
    clear IHl0. rename l0 into l. rename s0 into x.
    rewrite pop_back_snoc.
    apply Forall_app in Hchecked as [Hchecked Hx].
    apply Forall_cons in Hx as [Hx _].
    apply Forall_app in Hnonneg as [Hnonneg Hxs].
    apply Forall_cons in Hxs as [Hxs _].
    destruct (free_checks_pass _ Hx) as [-> ->].
    cbn [mbind result_bind].
    rewrite sum_sizes_app in Hsize. cbn [sum_sizes foldr] in Hsize.
    pose proof (sum_sizes_nonneg l Hnonneg) as Hl.
    assert (Hnew :
      wrap64 (branch_size_in_bytes_ (branch st) - usable_size x)
      = sum_sizes l).
    { rewrite wrap64_small; [lia | unfold is_u64 in *; lia]. }
    match goal with
    | |- context [Slq.PurgeInternal_loop _ _ _ fuel target ?st1 _ _] =>
      destruct (IH st1 (fc + 1) (fs + usable_size x))
        as (kept & popped & Hsplit & Hkept & Heq)
    end.
    + unfold Slq.branch_wf. cbn. rewrite Hnew.
      split; [reflexivity|]. split; [exact Hnonneg|].
      split; [unfold is_u64 in *; lia|]. split; [exact Hcap|].
      exact Hchecked.
    + exact Htarget.
    + cbn. rewrite length_app in Hfuel. cbn in Hfuel. lia.
    + cbn in Hsplit. exists kept, (popped ++ [x]).
      split; [rewrite Hsplit; now rewrite app_assoc|].
      split; [exact Hkept|].
      rewrite Heq. cbn. rewrite rev_app_distr, !length_app, sum_sizes_app.
      cbn. rewrite <- !app_assoc. cbn.
      replace (fc + Z.of_nat (length popped + 1))
        with (fc + 1 + Z.of_nat (length popped)) by lia.
      replace (fs + (sum_sizes popped + (usable_size x + 0)))
        with (fs + usable_size x + sum_sizes popped) by lia.
      reflexivity.
  - exists (slots_ (branch st)), []. rewrite app_nil_r.
    split; [reflexivity|]. split; [lia|].
    cbn. rewrite app_nil_r, <- Hsize, !Z.add_0_r.
    destruct st as [[] ? ?]. reflexivity.
Qed.

(** [PurgeInternal] on a well-formed branch. *)
Lemma PurgeInternal_spec (target : Z) (st : State) :
  branch_wf st -> 0 <= target ->
  exists kept popped,
    slots_ (branch st) = kept ++ popped
    /\ sum_sizes kept <= target
    /\ PurgeInternal target st
       = Ret (with_root Rng
                (with_slots Rng
                   {| branch := branch st;
                      root_ := root_ st;
                      events :=
                        events st
                        ++ (free_of <$> (slot_start <$> rev popped)) |}
                   kept (sum_sizes kept))
                (root_sub_freed (root_ st) (sum_sizes popped)
                   (Z.of_nat (length popped)))).
Proof.
  intros Hwf Htarget. unfold Slq.PurgeInternal.
  destruct (PurgeInternal_loop_spec (S (length (slots_ (branch st)))) target
              st 0 0 Hwf Htarget ltac:(lia))
    as (kept & popped & Hsplit & Hkept & Heq).
  exists kept, popped. split; [exact Hsplit|]. split; [exact Hkept|].
  rewrite Heq. cbn [mbind result_bind]. rewrite !Z.add_0_l. reflexivity.
Qed.

(** What [Purge] does when no entry is empty.  On a well-formed branch
    whose entries all have a usable size that is not zero, [Purge] returns
    with no entry left and
    [branch_size_in_bytes_] at 0, and the calls it made are one
    [FreeNoHooksImmediate] for each entry that the branch held, from the
    back of the vector to its front; the root's counters go down by the
    number and the bytes of these entries. *)
Theorem Purge_frees_every_entry (st : State) :
  branch_wf st ->
  Forall (fun s => 0 < usable_size s) (slots_ (branch st)) ->
  exists st',
    Purge st = Ret st'
    /\ slots_ (branch st') = []
    /\ branch_size_in_bytes_ (branch st') = 0
    /\ events st'
       = events st
         ++ (free_of <$> (slot_start <$> rev (slots_ (branch st))))
    /\ root_ st'
       = root_sub_freed (root_ st) (sum_sizes (slots_ (branch st)))
           (Z.of_nat (length (slots_ (branch st)))).
Proof.
  intros Hwf Hpos. unfold Slq.Purge.
  destruct (PurgeInternal_spec 0 st Hwf ltac:(lia))
    as (kept & popped & Hsplit & Hkept & Heq).
  assert (Hnil : kept = []).
  { destruct kept as [|s kept]; [reflexivity|].
    rewrite Hsplit in Hpos. apply Forall_app in Hpos as [Hpos _].
    pose proof (sum_sizes_pos (s :: kept) Hpos ltac:(discriminate)). lia. }
  subst kept. cbn [app] in Hsplit. subst popped.
  eexists. split; [exact Heq|]. cbn. repeat split; reflexivity.
Qed.

(** The loop of [PurgeInternalWithDefferedFree]: it stops when the bytes
    held are at most the target, or when [to_be_freed] has
    [kMaxFreeTimesPerPurge] entries. *)
Lemma PurgeInternalWithDefferedFree_loop_spec (fuel : nat) (target : Z)
    (st : State) (to_be_freed : list Z) (freed_size : Z) :
  branch_wf st -> 0 <= target ->
  (length (slots_ (branch st)) < fuel)%nat ->
  (length to_be_freed < kMaxFreeTimesPerPurge)%nat ->
  exists kept popped,
    slots_ (branch st) = kept ++ popped
    /\ (sum_sizes kept <= target
        \/ (length to_be_freed + length popped)%nat = kMaxFreeTimesPerPurge)
    /\ PurgeInternalWithDefferedFree_loop fuel target st to_be_freed
         freed_size
       = Ret (with_slots Rng st kept (sum_sizes kept),
              to_be_freed ++ (slot_start <$> rev popped),
              freed_size + sum_sizes popped).
Proof.
  revert st to_be_freed freed_size.
  induction fuel as [|fuel IH]; intros st tbf fs Hwf Htarget Hfuel Hroom;
    [lia|].
  pose proof Hwf as (Hsize & Hnonneg & Hu & Hcap & Hchecked).
  cbn [Slq.PurgeInternalWithDefferedFree_loop].
  destruct (Z.ltb_spec target (branch_size_in_bytes_ (branch st)))
    as [Hover|Hfits].
  - destruct (slots_ (branch st)) as [|s0 l0] eqn:Hslots using rev_ind.
    { cbn in Hsize. lia. }
    clear IHl0. rename l0 into l. rename s0 into x.
    rewrite pop_back_snoc.
    apply Forall_app in Hchecked as [Hchecked _].
    apply Forall_app in Hnonneg as [Hnonneg Hxs].
    apply Forall_cons in Hxs as [Hxs _].
    rewrite sum_sizes_app in Hsize. cbn [sum_sizes foldr] in Hsize.
    pose proof (sum_sizes_nonneg l Hnonneg) as Hl.
    assert (Hnew :
      wrap64 (branch_size_in_bytes_ (branch st) - usable_size x)
      = sum_sizes l).
    { rewrite wrap64_small; [lia | unfold is_u64 in *; lia]. }
    rewrite Hnew.
    destruct (Nat.leb_spec kMaxFreeTimesPerPurge
                (length (tbf ++ [slot_start x]))) as [Hfull|Hmore].
    + exists l, [x]. split; [reflexivity|]. split.
      * right. rewrite length_app in Hfull. cbn [length] in *. lia.
      * cbn [rev app fmap list_fmap sum_sizes foldr].
        now rewrite Z.add_0_r.
    + destruct (IH (with_slots Rng st l (sum_sizes l))
                  (tbf ++ [slot_start x]) (fs + usable_size x))
        as (kept & popped & Hsplit & Hkept & Heq).
      * unfold Slq.branch_wf. cbn.
        split; [reflexivity|]. split; [exact Hnonneg|].
        split; [unfold is_u64 in *; lia|]. split; [exact Hcap|].
        exact Hchecked.
      * exact Htarget.
      * cbn. rewrite length_app in Hfuel. cbn in Hfuel. lia.
      * exact Hmore.
      * cbn in Hsplit. exists kept, (popped ++ [x]).
        split; [rewrite Hsplit; now rewrite app_assoc|]. split.
        { destruct Hkept as [Hkept|Hkept]; [now left | right].
          rewrite !length_app in *. cbn [length] in *. lia. }
        rewrite Heq. rewrite rev_app_distr, sum_sizes_app.
        cbn [rev app fmap list_fmap sum_sizes foldr].
        rewrite <- app_assoc. cbn [app].
        replace (fs + (sum_sizes popped + (usable_size x + 0)))
          with (fs + usable_size x + sum_sizes popped) by lia.
        reflexivity.
  - exists (slots_ (branch st)), []. rewrite !app_nil_r.
    split; [reflexivity|]. split; [left; lia|].
    cbn. rewrite <- Hsize, Z.add_0_r.
    destruct st as [[] ? ?]. reflexivity.
Qed.

Lemma BatchFree_spec (st : State) (to_be_freed : list Z) :
  Forall slot_checked to_be_freed ->
  BatchFree st to_be_freed
  = Ret {| branch := branch st;
           root_ := root_ st;
           events := events st ++ (free_of <$> to_be_freed) |}.
Proof.
  revert st. induction to_be_freed as [|s l IH]; intros st Hall.
  - cbn. rewrite app_nil_r. now destruct st.
  - apply Forall_cons in Hall as [Hs Hall]. cbn [Slq.BatchFree].
    destruct (free_checks_pass _ Hs) as [-> ->]. cbn [mbind result_bind].
    rewrite IH by exact Hall. cbn. now rewrite <- app_assoc.
Qed.

Lemma QuarantineEpilogue_branch (st : State)
    (object slot_span slot_start usable_size : Z) :
  branch (QuarantineEpilogue st object slot_span slot_start usable_size)
  = branch st
  /\ root_ (QuarantineEpilogue st object slot_span slot_start usable_size)
     = root_ st.
Proof.
  unfold Slq.QuarantineEpilogue.
  destruct (enable_zapping_ (branch st)),
    (ENABLE_BACKUP_REF_PTR_SUPPORT && brp_enabled allocator_root_);
    split; reflexivity.
Qed.

(** Putting an entry onto the list: the list is a permutation of the old
    one with the entry added, and only the list and the bytes held
    change. *)
Lemma push_and_shuffle_spec (st : State) (slot_start usable_size : Z) :
  slots_ (branch (push_and_shuffle st slot_start usable_size))
  ≡ₚ slots_ (branch st)
     ++ [{| slot_start := slot_start; usable_size := usable_size |}]
  /\ branch_size_in_bytes_
       (branch (push_and_shuffle st slot_start usable_size))
     = wrap64 (branch_size_in_bytes_ (branch st) + usable_size)
  /\ branch_capacity_in_bytes_
       (branch (push_and_shuffle st slot_start usable_size))
     = branch_capacity_in_bytes_ (branch st)
  /\ root_ (push_and_shuffle st slot_start usable_size) = root_ st
  /\ events (push_and_shuffle st slot_start usable_size) = events st.
Proof.
  unfold Slq.push_and_shuffle. cbn.
  destruct (RandUint32 (random_ (branch st))) as [r random]. cbn.
  split; [apply swap_with_back_perm|]. repeat split; reflexivity.
Qed.

(** C1, as amended.  Take a call of [Quarantine] that inserts its entry: the
    branch is enabled and not paused, the slot span is not direct-mapped and
    the usable size is at most the capacity.  On a thread-bound branch the
    bytes held after the call are at most the capacity.  On a shared branch
    they are at most the capacity unless the purge stopped at its limit of
    [kMaxFreeTimesPerPurge] entries, in which case the call took that many
    entries out and put one in.  In both the entry is on the list
    afterwards. *)
Theorem quarantine_within_capacity (st : State)
    (object slot_span slot_start usable_size : Z) :
  branch_wf st ->
  0 <= usable_size ->
  enable_quarantine_ (branch st) = true ->
  pause_quarantine_ (branch st) = 0 ->
  IsDirectMappedBucket allocator_root_ slot_span = false ->
  (DCHECKS_ARE_ON = true ->
   usable_size = GetSlotUsableSize allocator_root_ slot_span) ->
  usable_size <= branch_capacity_in_bytes_ (branch st) ->
  (exists st',
     Quarantine_thread_bound st object slot_span slot_start usable_size
     = Ret st'
     /\ {| slot_start := slot_start; usable_size := usable_size |}
        ∈ slots_ (branch st')
     /\ branch_size_in_bytes_ (branch st')
        <= branch_capacity_in_bytes_ (branch st'))
  /\ (exists st',
        Quarantine_shared st object slot_span slot_start usable_size = Ret st'
        /\ {| slot_start := slot_start; usable_size := usable_size |}
           ∈ slots_ (branch st')
        /\ (branch_size_in_bytes_ (branch st')
            <= branch_capacity_in_bytes_ (branch st')
            \/ (length (slots_ (branch st)) + 1
                = length (slots_ (branch st')) + kMaxFreeTimesPerPurge)%nat)).
Proof.
  intros Hwf Hus Hen Hpause Hdm Hdcheck Hcap.
  pose proof Hwf as (Hsize & Hnonneg & Hu & Hcapu & Hchecked).
  assert (Hcheck :
    PA_DCHECK (usable_size =? GetSlotUsableSize allocator_root_ slot_span)
    = Ret ()).
  { apply PA_DCHECK_holds. intros Hon. apply Z.eqb_eq. now apply Hdcheck. }
  split.
  - unfold Slq.Quarantine_thread_bound.
    rewrite Hen, Hpause, Hdm, Hcheck. cbn [negb orb Z.eqb mbind result_bind].
    destruct (Z.ltb_spec (branch_capacity_in_bytes_ (branch st)) usable_size);
      [lia|].
    destruct (PurgeInternal_spec
                (branch_capacity_in_bytes_ (branch st) - usable_size) st Hwf
                ltac:(lia))
      as (kept & popped & Hsplit & Hkept & Heq).
    rewrite Heq. cbn [mbind result_bind].
    eexists. split; [reflexivity|].
    match goal with
    | |- context [Slq.push_and_shuffle _ _ ?st1 _ _] =>
      destruct (push_and_shuffle_spec st1 slot_start usable_size)
        as (Hperm & Hsz & Hcp & _ & _)
    end.
    match goal with
    | |- context [Slq.QuarantineEpilogue _ _ _ _ ?st2 ?o ?sp ?ss ?us] =>
      destruct (QuarantineEpilogue_branch st2 o sp ss us) as [-> _]
    end.
    cbn [branch with_root] in *. split.
    + rewrite Hperm. apply elem_of_app. right. apply list_elem_of_singleton.
      reflexivity.
    + rewrite Hsz, Hcp. cbn.
      assert (0 <= sum_sizes kept).
      { apply sum_sizes_nonneg. rewrite Hsplit in Hnonneg.
        now apply Forall_app in Hnonneg as [? _]. }
      rewrite wrap64_small; [lia | unfold is_u64 in *; lia].
  - unfold Slq.Quarantine_shared.
    rewrite Hen, Hpause, Hdm, Hcheck. cbn [negb orb Z.eqb mbind result_bind].
    destruct (Z.ltb_spec (branch_capacity_in_bytes_ (branch st)) usable_size);
      [lia|].
    unfold Slq.PurgeInternalWithDefferedFree.
    destruct (PurgeInternalWithDefferedFree_loop_spec
                (S (length (slots_ (branch (with_working_memory Rng st false)))))
                (branch_capacity_in_bytes_ (branch st) - usable_size)
                (with_working_memory Rng st false) [] 0)
      as (kept & popped & Hsplit & Hkept & Heq).
    { unfold Slq.branch_wf. cbn. repeat split; try assumption;
        unfold is_u64 in *; lia. }
    { lia. }
    { lia. }
    { cbn [length]. unfold kMaxFreeTimesPerPurge. lia. }
    cbn [branch with_working_memory branch_capacity_in_bytes_] in Heq.
    cbn [branch with_working_memory branch_capacity_in_bytes_].
    rewrite Heq. cbn [mbind result_bind app].
    rewrite BatchFree_spec.
    2:{ cbn in Hsplit. rewrite Hsplit in Hchecked.
        apply Forall_app in Hchecked as [_ Hpopped].
        apply Forall_fmap. apply Forall_forall. intros s Hs.
        apply (proj1 (Forall_forall _ _) Hpopped).
        apply list_elem_of_In. apply list_elem_of_In in Hs.
        now apply in_rev. }
    cbn [mbind result_bind].
    eexists. split; [reflexivity|].
    match goal with
    | |- context [Slq.QuarantineEpilogue _ _ _ _ ?st2 ?o ?sp ?ss ?us] =>
      destruct (QuarantineEpilogue_branch st2 o sp ss us) as [-> _]
    end.
    match goal with
    | |- context [Slq.push_and_shuffle _ _ ?st1 _ _] =>
      destruct (push_and_shuffle_spec st1 slot_start usable_size)
        as (Hperm & Hsz & Hcp & _ & _)
    end.
    cbn [branch with_root with_working_memory slots_ branch_size_in_bytes_
         branch_capacity_in_bytes_] in *.
    split.
    + rewrite Hperm. apply elem_of_app. right. apply list_elem_of_singleton.
      reflexivity.
    + rewrite Hsz, Hcp.
      destruct Hkept as [Hkept|Hfull].
      * left.
        assert (0 <= sum_sizes kept).
        { apply sum_sizes_nonneg. rewrite Hsplit in Hnonneg.
          now apply Forall_app in Hnonneg as [? _]. }
        cbn [branch with_slots with_working_memory branch_size_in_bytes_
             branch_capacity_in_bytes_].
        rewrite wrap64_small; [lia | unfold is_u64 in *; lia].
      * right. apply Permutation_length in Hperm.
        rewrite Hperm. cbn [branch with_root with_slots slots_].
        rewrite Hsplit, !length_app. cbn [length] in *.
        rewrite <- Hfull. clear. lia.
Qed.

Lemma sum_sizes_perm (l l' : list QuarantineSlot) :
  l ≡ₚ l' -> sum_sizes l = sum_sizes l'.
Proof.
  induction 1 as [|x l l' _ IH|x y l|l l' l'' _ IH1 _ IH2];
    cbn [sum_sizes foldr]; fold sum_sizes; try lia.
  fold (sum_sizes l) (sum_sizes l') in *. lia.
Qed.

(** The well-formed states are the states that a thread-bound branch goes
    through: [Quarantine] keeps them, for entries that pass the debug checks
    of a free. *)
Lemma Quarantine_thread_bound_wf (st st' : State)
    (object slot_span slot_start usable_size : Z) :
  branch_wf st -> 0 <= usable_size -> slot_checked slot_start ->
  Quarantine_thread_bound st object slot_span slot_start usable_size = Ret st' ->
  branch_wf st'.
Proof.
  intros Hwf Hus Hslot. unfold Slq.Quarantine_thread_bound.
  pose proof Hwf as (Hsize & Hnonneg & Hu & Hcapu & Hchecked).
  destruct (negb (enable_quarantine_ (branch st))
            || negb (pause_quarantine_ (branch st) =? 0)
            || IsDirectMappedBucket allocator_root_ slot_span).
  { intros [= <-]. exact Hwf. }
  destruct (PA_DCHECK _) as [[]| |]; try discriminate.
  cbn [mbind result_bind].
  destruct (Z.ltb_spec (branch_capacity_in_bytes_ (branch st)) usable_size)
    as [|Hfits].
  { intros [= <-]. exact Hwf. }
  destruct (PurgeInternal_spec
              (branch_capacity_in_bytes_ (branch st) - usable_size) st Hwf
              ltac:(lia))
    as (kept & popped & Hsplit & Hkept & Heq).
  rewrite Heq. cbn [mbind result_bind]. intros [= <-].
  match goal with
  | |- context [Slq.push_and_shuffle _ _ ?st1 _ _] =>
    destruct (push_and_shuffle_spec st1 slot_start usable_size)
      as (Hperm & Hsz & Hcp & _ & _)
  end.
  unfold Slq.branch_wf.
  match goal with
  | |- context [Slq.QuarantineEpilogue _ _ _ _ ?st2 ?o ?sp ?ss ?us] =>
    destruct (QuarantineEpilogue_branch st2 o sp ss us) as [-> _]
  end.
  cbn [branch with_root with_slots slots_ branch_size_in_bytes_
       branch_capacity_in_bytes_] in *.
  rewrite Hsplit in Hnonneg, Hchecked.
  apply Forall_app in Hnonneg as [Hnonneg _].
  apply Forall_app in Hchecked as [Hchecked _].
  pose proof (sum_sizes_nonneg kept Hnonneg) as Hk.
  assert (Hnew :
    wrap64 (sum_sizes kept + usable_size) = sum_sizes kept + usable_size).
  { apply wrap64_small. unfold is_u64 in *. lia. }
  rewrite Hsz, Hcp, Hnew, (sum_sizes_perm _ _ Hperm), sum_sizes_app, Hperm.
  cbn [sum_sizes foldr Slq.usable_size].
  split; [lia|]. split.
  { apply Forall_app. split; [exact Hnonneg|]. now constructor. }
  split; [unfold is_u64 in *; lia|]. split; [exact Hcapu|].
  apply Forall_app. split; [exact Hchecked|]. now constructor.
Qed.

(** C2, as amended.  On a branch that is enabled and not paused, for a slot
    span that is not direct-mapped and a usable size above the capacity,
    [Quarantine] (of a thread-bound and of a shared branch) frees the object
    at once through the allocator root and adds one to
    [quarantine_miss_count_]; the branch, with its entries and its byte
    count, and the other counters of the root are as before. *)
Theorem quarantine_miss (thread_bound : bool) (st : State)
    (object slot_span slot_start usable_size : Z) :
  enable_quarantine_ (branch st) = true ->
  pause_quarantine_ (branch st) = 0 ->
  IsDirectMappedBucket allocator_root_ slot_span = false ->
  (DCHECKS_ARE_ON = true ->
   usable_size = GetSlotUsableSize allocator_root_ slot_span) ->
  branch_capacity_in_bytes_ (branch st) < usable_size ->
  exists st',
    Quarantine thread_bound st object slot_span slot_start usable_size
    = Ret st'
    /\ events st'
       = events st ++ [FreeNoHooksImmediate object slot_span slot_start]
    /\ quarantine_miss_count_ (root_ st')
       = wrap64 (quarantine_miss_count_ (root_ st) + 1)
    /\ (is_u64 (quarantine_miss_count_ (root_ st) + 1) ->
        quarantine_miss_count_ (root_ st')
        = quarantine_miss_count_ (root_ st) + 1)
    /\ branch st' = branch st
    /\ count_ (root_ st') = count_ (root_ st)
    /\ cumulative_count_ (root_ st') = cumulative_count_ (root_ st)
    /\ size_in_bytes_ (root_ st') = size_in_bytes_ (root_ st)
    /\ cumulative_size_in_bytes_ (root_ st')
       = cumulative_size_in_bytes_ (root_ st).
Proof.
  intros Hen Hpause Hdm Hdcheck Hcap.
  assert (Hcheck :
    PA_DCHECK (usable_size =? GetSlotUsableSize allocator_root_ slot_span)
    = Ret ()).
  { apply PA_DCHECK_holds. intros Hon. apply Z.eqb_eq. now apply Hdcheck. }
  exists (with_root Rng (free_immediate Rng st object slot_span slot_start)
            (root_add_miss (root_ st))).
  split.
  - unfold Slq.Quarantine, Slq.Quarantine_thread_bound, Slq.Quarantine_shared.
    destruct thread_bound;
      rewrite Hen, Hpause, Hdm, Hcheck;
      cbn [negb orb Z.eqb mbind result_bind];
      destruct (Z.ltb_spec (branch_capacity_in_bytes_ (branch st))
                  usable_size); (reflexivity || lia).
  - cbn. repeat split; try reflexivity.
    intros Hu. now apply wrap64_small.
Qed.

End Facts.

Lemma example_branch_wf (capacity : Z) (slots : list QuarantineSlot) :
  is_u64 capacity ->
  is_u64 (sum_sizes slots) ->
  Forall (fun s => 0 <= usable_size s) slots ->
  Forall (fun s => slot_start s <> 0) slots ->
  branch_wf Z Examples.allocator_root true
    (Examples.branch_state capacity slots).
Proof.
  intros Hcap Hsum Hnonneg Hnz. unfold branch_wf. cbn.
  split; [reflexivity|]. split; [exact Hnonneg|]. split; [exact Hsum|].
  split; [exact Hcap|].
  eapply Forall_impl; [exact Hnz|]. intros s Hs _. split; [exact Hs|].
  reflexivity.
Qed.

(** A shared branch that holds 1025 entries of one byte, with a capacity of
    1025 bytes, is asked to quarantine 1025 bytes: the purge stops after
    1024 entries and the branch holds 1026 bytes. *)
Lemma shared_branch_over_capacity :
  enable_quarantine_
    (branch (Examples.branch_state 1025 (Examples.one_byte_slots 1025)))
  = true
  /\ branch_size_in_bytes_
       (branch (Examples.branch_state 1025 (Examples.one_byte_slots 1025)))
     = 1025
  /\ Examples.size_and_capacity
       (Examples.Quarantine false
          (Examples.branch_state 1025 (Examples.one_byte_slots 1025))
          (2 ^ 20) 1025 (2 ^ 20) 1025)
     = Some (1026, 1025).
Proof. repeat split; vm_compute; reflexivity. Qed.

(** The theorem on a branch of 128 bytes that holds two entries of 64
    bytes. *)
Lemma quarantine_within_capacity_witness :
  (exists st',
     Examples.Quarantine true (Examples.branch_state 128 Examples.two_slots)
       (2 ^ 15) 64 (2 ^ 15) 64 = Ret st'
     /\ {| slot_start := 2 ^ 15; usable_size := 64 |} ∈ slots_ (branch st')
     /\ branch_size_in_bytes_ (branch st')
        <= branch_capacity_in_bytes_ (branch st'))
  /\ (exists st',
        Examples.Quarantine false
          (Examples.branch_state 128 Examples.two_slots)
          (2 ^ 15) 64 (2 ^ 15) 64 = Ret st'
        /\ {| slot_start := 2 ^ 15; usable_size := 64 |} ∈ slots_ (branch st')
        /\ (branch_size_in_bytes_ (branch st')
            <= branch_capacity_in_bytes_ (branch st')
            \/ (length
                  (slots_
                     (branch (Examples.branch_state 128 Examples.two_slots)))
                + 1
                = length (slots_ (branch st')) + kMaxFreeTimesPerPurge)%nat)).
Proof.
  apply (quarantine_within_capacity Z Examples.RandUint32
           Examples.allocator_root true false 0xCD
           (Examples.branch_state 128 Examples.two_slots)
           (2 ^ 15) 64 (2 ^ 15) 64).
  - apply example_branch_wf.
    + unfold is_u64, modulus. lia.
    + unfold is_u64, modulus. cbn. lia.
    + repeat constructor; cbn; lia.
    + repeat constructor; cbn; lia.
  - lia.
  - reflexivity.
  - reflexivity.
  - reflexivity.
  - reflexivity.
  - cbn. lia.
Defined.

(** An enabled branch that is not paused is asked to quarantine an object of
    a direct-mapped slot span that is larger than its capacity: the object
    is freed and [quarantine_miss_count_] stays at 0. *)
Lemma direct_mapped_is_no_miss :
  enable_quarantine_ (branch (Examples.branch_state 100 [])) = true
  /\ pause_quarantine_ (branch (Examples.branch_state 100 [])) = 0
  /\ branch_capacity_in_bytes_ (branch (Examples.branch_state 100 []))
     < 2 ^ 20
  /\ Examples.Quarantine true (Examples.branch_state 100 [])
       (2 ^ 21) (2 ^ 20) (2 ^ 21) (2 ^ 20)
     = Ret {| branch := branch (Examples.branch_state 100 []);
              root_ := Examples.empty_root;
              events := [FreeNoHooksImmediate (2 ^ 21) (2 ^ 20) (2 ^ 21)] |}
  /\ Examples.Quarantine false (Examples.branch_state 100 [])
       (2 ^ 21) (2 ^ 20) (2 ^ 21) (2 ^ 20)
     = Ret {| branch := branch (Examples.branch_state 100 []);
              root_ := Examples.empty_root;
              events := [FreeNoHooksImmediate (2 ^ 21) (2 ^ 20) (2 ^ 21)] |}.
Proof. repeat split; vm_compute; reflexivity. Qed.

(** The theorem on a shared branch of 100 bytes and an object of 200. *)
Lemma quarantine_miss_witness :
  exists st',
    Examples.Quarantine false (Examples.branch_state 100 [])
      (2 ^ 15) 200 (2 ^ 15) 200 = Ret st'
    /\ events st'
       = events (Examples.branch_state 100 [])
         ++ [FreeNoHooksImmediate (2 ^ 15) 200 (2 ^ 15)]
    /\ quarantine_miss_count_ (root_ st')
       = wrap64
           (quarantine_miss_count_ (root_ (Examples.branch_state 100 [])) + 1)
    /\ (is_u64
          (quarantine_miss_count_ (root_ (Examples.branch_state 100 [])) + 1)
        -> quarantine_miss_count_ (root_ st')
           = quarantine_miss_count_ (root_ (Examples.branch_state 100 []))
             + 1)
    /\ branch st' = branch (Examples.branch_state 100 [])
    /\ count_ (root_ st') = count_ (root_ (Examples.branch_state 100 []))
    /\ cumulative_count_ (root_ st')
       = cumulative_count_ (root_ (Examples.branch_state 100 []))
    /\ size_in_bytes_ (root_ st')
       = size_in_bytes_ (root_ (Examples.branch_state 100 []))
    /\ cumulative_size_in_bytes_ (root_ st')
       = cumulative_size_in_bytes_ (root_ (Examples.branch_state 100 [])).
Proof.
  apply (quarantine_miss Z Examples.RandUint32 Examples.allocator_root true
           false 0xCD false (Examples.branch_state 100 [])
           (2 ^ 15) 200 (2 ^ 15) 200).
  - reflexivity.
  - reflexivity.
  - reflexivity.
  - reflexivity.
  - cbn. lia.
Defined.


(** The theorem on a branch that holds two entries of 64 bytes. *)
Lemma Purge_frees_every_entry_witness :
  exists st',
    Examples.Purge (Examples.branch_state 128 Examples.two_slots) = Ret st'
    /\ slots_ (branch st') = []
    /\ branch_size_in_bytes_ (branch st') = 0
    /\ events st'
       = events (Examples.branch_state 128 Examples.two_slots)
         ++ (free_of Examples.allocator_root
             <$> (slot_start
                  <$> rev
                        (slots_
                           (branch
                              (Examples.branch_state 128
                                 Examples.two_slots)))))
    /\ root_ st'
       = root_sub_freed
           (root_ (Examples.branch_state 128 Examples.two_slots))
           (sum_sizes
              (slots_ (branch (Examples.branch_state 128 Examples.two_slots))))
           (Z.of_nat
              (length
                 (slots_
                    (branch (Examples.branch_state 128 Examples.two_slots))))).
Proof.
  apply (Purge_frees_every_entry Z Examples.allocator_root true
           (Examples.branch_state 128 Examples.two_slots)).
  - apply example_branch_wf.
    + unfold is_u64, modulus. lia.
    + unfold is_u64, modulus. cbn. lia.
    + repeat constructor; cbn; lia.
    + repeat constructor; cbn; lia.
  - repeat constructor; cbn; lia.
Defined.

End SlqFacts.

(** ** The runtime statistics of the quarantine *)

Module RuntimeStatsFacts.

Import RuntimeStats.

Section Facts.

Variable kNumBuckets : nat.
Variable InNanoseconds : Z -> Z.
Variable Nanoseconds : Z -> Z.
Variable DCHECKS_ARE_ON : bool.

Abbreviation AddStats :=
  (RuntimeStats.AddStats InNanoseconds Nanoseconds DCHECKS_ARE_ON).
Abbreviation PA_DCHECK := (DCHECK DCHECKS_ARE_ON).

Lemma stats_check_passes (c : bool) : c = true -> PA_DCHECK c = Ret ().
Proof.
  intros ->. unfold DCHECK.
  now rewrite andb_false_r.
Qed.

Lemma at_bucket_Some (buckets : list BucketStats) (bucket_index : nat)
    (b : BucketStats) (f : BucketStats -> BucketStats) :
  buckets !! bucket_index = Some b ->
  at_bucket buckets bucket_index f = Ret (<[bucket_index := f b]> buckets).
Proof. intros Hb. unfold at_bucket. now rewrite Hb. Qed.

Lemma read_bucket_Some (buckets : list BucketStats) (bucket_index : nat)
    (b : BucketStats) :
  buckets !! bucket_index = Some b ->
  read_bucket buckets bucket_index = Ret b.
Proof. intros Hb. unfold read_bucket. now rewrite Hb. Qed.

(** C9, as amended.  The tracker is initialised with
    [max_above_avg_zap_delta_ > 0] and [long_zap_pause_delta_ > 0].  A call
    of [AddStats] that records a zap time which is not zero, which leaves
    the window of the zap bucket valid, and which is above the rolling
    average that the bucket had before the call by more than
    [max_above_avg_zap_delta_], sets [pause_until_] to the end of the
    quarantine plus [long_zap_pause_delta_]; from then on [ShouldPause]
    answers, for a start time that is not null, whether the start time is
    before [pause_until_], and it answers [false] for the null time. *)
Theorem long_zap_pauses (st : SchedulerLoopQuarantineRuntimeStats)
    (bucket_index : nat)
    (quarantine_start purge_start zap_start quarantine_end : Z)
    (zap_bucket purge_bucket total_bucket : BucketStats) :
  initialized_ st = true ->
  0 < max_above_avg_zap_delta_ st ->
  0 < long_zap_pause_delta_ st ->
  zap_buckets_ st !! bucket_index = Some zap_bucket ->
  purge_buckets_ st !! bucket_index = Some purge_bucket ->
  total_time_buckets_ st !! bucket_index = Some total_bucket ->
  quarantine_start <> 0 -> purge_start <> 0 -> zap_start <> 0 ->
  0 < quarantine_end ->
  quarantine_end - zap_start <> 0 ->
  valid_ (RecordValue zap_bucket (InNanoseconds (quarantine_end - zap_start)))
  = true ->
  max_above_avg_zap_delta_ st
  < quarantine_end - zap_start - Nanoseconds (average_ns_ zap_bucket) ->
  exists st',
    AddStats st bucket_index quarantine_start purge_start zap_start
      quarantine_end = Ret st'
    /\ pause_until_ st' = quarantine_end + long_zap_pause_delta_ st
    /\ ShouldPause st' 0 = false
    /\ forall start, start <> 0 ->
         ShouldPause st' start = (start <? pause_until_ st').
Proof.
  intros Hinit Hmax Hlong Hzap Hpurge Htotal Hqs Hps Hzs Hqe Hzt Hvalid Habove.
  unfold RuntimeStats.AddStats. rewrite Hinit. cbn [negb].
  rewrite ?stats_check_passes by (apply negb_true_iff, Z.eqb_neq; lia).
  cbn [mbind result_bind].
  rewrite (at_bucket_Some _ _ _ _ Htotal). cbn [mbind result_bind].
  rewrite (read_bucket_Some _ _ _ Hzap). cbn [mbind result_bind].
  destruct (Z.eqb_spec zap_start 0) as [|_]; [contradiction|]. cbn [negb].
  rewrite ?stats_check_passes by (apply negb_true_iff, Z.eqb_neq; lia).
  cbn [mbind result_bind].
  rewrite (at_bucket_Some _ _ _ _ Hpurge). cbn [mbind result_bind].
  rewrite (at_bucket_Some _ _ _ _ Hzap). cbn [mbind result_bind].
  cbn [with_buckets zap_buckets_ max_above_avg_zap_delta_
       long_zap_pause_delta_].
  assert (Hin : (bucket_index < length (zap_buckets_ st))%nat)
    by (eapply lookup_lt_Some; exact Hzap).
  rewrite (read_bucket_Some _ _ _ (list_lookup_insert_eq _ _ _ Hin)).
  cbn [mbind result_bind]. rewrite Hvalid.
  destruct (Z.eqb_spec (max_above_avg_zap_delta_ st) 0) as [|_]; [lia|].
  destruct (Z.eqb_spec (quarantine_end - zap_start) 0) as [|_];
    [contradiction|].
  cbn [negb andb orb].
  destruct (Z.ltb_spec (max_above_avg_zap_delta_ st)
              (quarantine_end - zap_start
               - Nanoseconds (average_ns_ zap_bucket))) as [_|]; [|lia].
  rewrite ?stats_check_passes by (apply negb_true_iff, Z.eqb_neq; lia).
  cbn [mbind result_bind with_pause_until with_buckets zap_buckets_].
  rewrite (at_bucket_Some _ _ _ _ (list_lookup_insert_eq _ _ _ Hin)).
  cbn [mbind result_bind].
  eexists. split; [reflexivity|]. cbn.
  split; [reflexivity|]. unfold ShouldPause. cbn. rewrite Hinit. cbn.
  destruct (Z.eqb_spec (quarantine_end + long_zap_pause_delta_ st) 0)
    as [|_]; [lia|].
  split; [reflexivity|]. intros start Hstart.
  destruct (Z.eqb_spec start 0) as [|_]; [contradiction|]. reflexivity.
Qed.

End Facts.

(** The window of the bucket was never filled: a zap of 3800 ticks, far
    above the average of 0 by more than the 10 ticks configured, leaves
    [pause_until_] null, and [ShouldPause] answers [false] for a start
    time before the end of the quarantine plus the pause. *)
Lemma long_zap_before_window_filled :
  initialized_ Examples.fresh_stats = true
  /\ max_above_avg_zap_delta_ Examples.fresh_stats = 10
  /\ long_zap_pause_delta_ Examples.fresh_stats = 100
  /\ (average_ns_ <$> zap_buckets_ Examples.fresh_stats !! 0%nat) = Some 0
  /\ Examples.pause_until_after
       (Examples.AddStats Examples.fresh_stats 0 1000 1100 1200 5000)
     = Some 0
  /\ Examples.should_pause_after
       (Examples.AddStats Examples.fresh_stats 0 1000 1100 1200 5000) 5001
     = Some false.
Proof. repeat split; vm_compute; reflexivity. Qed.

(** The theorem on a bucket whose window is filled. *)
Lemma long_zap_pauses_witness :
  exists st',
    Examples.AddStats Examples.warm_stats 0 1000 1100 1200 5000 = Ret st'
    /\ pause_until_ st'
       = 5000 + long_zap_pause_delta_ Examples.warm_stats
    /\ ShouldPause st' 0 = false
    /\ forall start, start <> 0 ->
         ShouldPause st' start = (start <? pause_until_ st').
Proof.
  apply (long_zap_pauses Examples.InNanoseconds Examples.Nanoseconds true
           Examples.warm_stats 0 1000 1100 1200 5000
           Examples.warm_bucket Examples.warm_bucket Examples.warm_bucket).
  - reflexivity.
  - reflexivity.
  - reflexivity.
  - reflexivity.
  - reflexivity.
  - reflexivity.
  - discriminate.
  - discriminate.
  - discriminate.
  - reflexivity.
  - discriminate.
  - reflexivity.
  - reflexivity.
Defined.

End RuntimeStatsFacts.

(** ** The search of [FindChunk] and the pool manager *)

Module PoolSearchFacts.

Import Constants Pool AddressPoolManager.

Section Facts.

Variable kSuperPageShift : Z.
Variable kMaxBits : nat.
Variable DCHECK_IS_ON : bool.

Hypothesis shift_range : 0 <= kSuperPageShift < 64.

Abbreviation SP := (kSuperPageSize kSuperPageShift).
Abbreviation FindChunk := (Pool.FindChunk kSuperPageShift kMaxBits DCHECK_IS_ON).
Abbreviation FreeChunk := (Pool.FreeChunk kSuperPageShift kMaxBits DCHECK_IS_ON).
Abbreviation Pool_new := (Pool.Pool_new kSuperPageShift kMaxBits DCHECK_IS_ON).
Abbreviation pool_wf := (Pool.pool_wf kSuperPageShift kMaxBits).
Abbreviation pool_inv := (Pool.pool_inv kSuperPageShift kMaxBits).
Abbreviation super_pages := (Pool.super_pages kSuperPageShift).
Abbreviation roundable := (Pool.roundable kSuperPageShift).
Abbreviation chunk_address := (Pool.chunk_address kSuperPageShift).
Abbreviation scan := (Pool.scan kMaxBits).
Abbreviation find_loop :=
  (Pool.find_loop kSuperPageShift kMaxBits DCHECK_IS_ON).
Abbreviation steps := (Pool.steps kSuperPageShift kMaxBits DCHECK_IS_ON).
Abbreviation step := (Pool.step kSuperPageShift kMaxBits DCHECK_IS_ON).
Abbreviation requests_roundable := (Pool.requests_roundable kSuperPageShift).

Local Open Scope nat_scope.

(** The inner loop moves the hint only over set bits, and moves [beg_bit]
    only to just past a set bit. *)
Lemma scan_hint (bits : gset nat) (n curr beg hint : nat) (found : bool)
    (curr' beg' hint' : nat) (found' : bool) :
  scan bits n curr beg hint found = Ret (curr', beg', hint', found') ->
  (forall i, i < hint -> i ∈ bits) ->
  (forall i, i < hint' -> i ∈ bits)
  /\ (beg' = beg \/ (curr < beg' /\ pred beg' ∈ bits)).
Proof.
  revert curr beg hint found.
  induction n as [|n IH]; intros curr beg hint found Heq Hhint.
  - cbn [Pool.scan] in Heq. injection Heq as <- <- <- <-.
    split; [exact Hhint | now left].
  - cbn [Pool.scan] in Heq. unfold Pool.test in Heq.
    destruct (curr <? kMaxBits); [|discriminate].
    cbn [mbind result_bind] in Heq.
    destruct (bool_decide_reflect (curr ∈ bits)) as [Hin|Hout].
    + apply IH in Heq as [Hsound Hbeg].
      * split; [exact Hsound|]. right.
        destruct Hbeg as [->|[Hlt Hpred]]; [split; [lia | exact Hin]|].
        split; [lia | exact Hpred].
      * intros i Hi. destruct (Nat.eqb_spec hint curr) as [->|_].
        -- destruct (Nat.eq_dec i curr) as [->|]; [exact Hin|].
           apply Hhint. lia.
        -- now apply Hhint.
    + apply IH in Heq as [Hsound Hbeg]; [|exact Hhint].
      split; [exact Hsound|].
      destruct Hbeg as [->|[Hlt Hpred]]; [now left | right].
      split; [lia | exact Hpred].
Qed.

(** The outer loop is a first-fit search.  Entered with a sound hint, with
    the bits from [beg_bit] up to [curr_bit] clear and with no clear run of
    [need_bits] bits starting below [beg_bit], it returns [0] only when the
    pool has no clear run of [need_bits] bits, and otherwise the lowest
    one; the hint it leaves is sound. *)
Lemma find_loop_search (fuel : nat) (p p' : Pool) (need beg curr : nat)
    (address : Z) :
  pool_wf p -> hint_sound p ->
  beg <= curr <= total_bits_ p ->
  (forall i, beg <= i < curr -> i ∉ alloc_bitset_ p) ->
  find_loop fuel p (Z.of_nat need * SP)%Z need beg curr = Ret (p', address) ->
  hint_sound p'
  /\ ((forall b, b < beg ->
         exists i, b <= i < b + need /\ i ∈ alloc_bitset_ p) ->
      (address = 0%Z
       /\ forall b, b + need <= total_bits_ p ->
            exists i, b <= i < b + need /\ i ∈ alloc_bitset_ p)
      \/ (exists b,
            address = chunk_address p b
            /\ free_run p b need
            /\ (forall b', b' < b ->
                  exists i, b' <= i < b' + need /\ i ∈ alloc_bitset_ p)
            /\ alloc_bitset_ p' = set_seq b need ∪ alloc_bitset_ p)).
Proof.
  revert p beg curr.
  induction fuel as [|fuel IH]; intros p beg curr Hwf Hsound Hcurr Hclear Heq;
    [discriminate|].
  cbn [Pool.find_loop] in Heq.
  destruct (Nat.ltb_spec (total_bits_ p) (beg + need)) as [Hover|Hfits].
  { injection Heq as <- <-. split; [exact Hsound|].
    intros Hblocked. left. split; [reflexivity|].
    intros b Hb. apply Hblocked. lia. }
  pose proof Hwf as (Htotal & Hhint & Hbegin & Halign & Hend & Hmod & Hbits).
  destruct (PoolFacts.scan_spec kMaxBits (alloc_bitset_ p) (beg + need - curr)
              curr beg (bit_hint_ p) true ltac:(lia))
    as (beg' & hint' & found' & Hscan & Hhint' & Hcases).
  rewrite Hscan in Heq. cbn [mbind result_bind] in Heq.
  destruct (scan_hint _ _ _ _ _ _ _ _ _ _ Hscan Hsound) as [Hsound' Hbeg'].
  destruct Hcases as [(-> & -> & -> & Hrun)|(-> & Hbeg & Hrun)].
  - (* found *)
    assert (Hfree : free_run p beg need).
    { split; [lia|]. intros j Hj. destruct (Nat.lt_ge_cases j curr).
      - apply Hclear. lia.
      - apply Hrun. lia. }
    cbn [with_hint alloc_bitset_ bit_hint_ address_begin_ address_end_]
      in Heq.
    rewrite (PoolFacts.fill_spec kSuperPageShift kMaxBits DCHECK_IS_ON shift_range) in Heq.
    2:{ lia. }
    2:{ replace (beg + (beg + need - beg)) with (beg + need) by lia.
        apply Hfree. }
    cbn [mbind result_bind] in Heq.
    replace (beg + need - beg) with need in Heq by lia.
    cbn [with_hint with_bitset bit_hint_ alloc_bitset_ address_begin_
         address_end_ total_bits_] in Heq.
    destruct (DCHECK DCHECK_IS_ON _) as [[]| |] in Heq; try discriminate.
    cbn [mbind result_bind] in Heq. injection Heq as <- <-.
    pose proof (PoolFacts.SP_pos kSuperPageShift shift_range) as HSP.
    split.
    + intros i. unfold hint_sound.
      destruct (Nat.eqb_spec (bit_hint_ p) beg) as [Heqh|Hne]; cbn;
        intros Hi.
      * apply elem_of_union. destruct (Nat.lt_ge_cases i beg).
        -- right. apply Hsound. lia.
        -- left. apply elem_of_set_seq. lia.
      * apply elem_of_union. right. now apply Hsound.
    + intros Hblocked. right. exists beg.
      split.
      { destruct (bit_hint_ p =? beg); cbn; unfold Pool.chunk_address;
          apply WordFacts.wrap64_small; unfold is_u64; nia. }
      split; [exact Hfree|]. split; [exact Hblocked|].
      destruct (bit_hint_ p =? beg); reflexivity.
  - (* a set bit was met *)
    destruct Hbeg' as [->|[_ Hpred]]; [lia|].
    apply IH in Heq.
    + destruct Heq as [Hs Hres]. split; [exact Hs|].
      intros Hblocked. cbn in Hres. apply Hres.
      intros b Hb. destruct (Nat.lt_ge_cases b beg) as [Hlt|Hge].
      * now apply Hblocked.
      * exists (pred beg'). split; [lia | exact Hpred].
    + apply PoolFacts.pool_wf_with_hint; [exact Hwf | lia].
    + exact Hsound'.
    + cbn. lia.
    + cbn. intros i Hi. apply Hrun. lia.
Qed.

Lemma super_pages_pos (size : Z) : (0 < size)%Z -> 0 < super_pages size.
Proof.
  intros Hsize. unfold Pool.super_pages.
  pose proof (PoolFacts.SP_pos kSuperPageShift shift_range) as HSP.
  assert (1 <= (size + SP - 1) / SP)%Z; [|lia].
  apply Z.div_le_lower_bound; lia.
Qed.

(** [FindChunk] of a size that is not zero, on a well-formed pool whose
    hint is sound. *)
Lemma FindChunk_search (p : Pool) (size : Z) :
  pool_wf p -> hint_sound p -> roundable size -> (0 < size)%Z ->
  exists p' address,
    FindChunk p size = Ret (p', address)
    /\ pool_wf p' /\ hint_sound p'
    /\ total_bits_ p' = total_bits_ p
    /\ address_begin_ p' = address_begin_ p
    /\ address_end_ p' = address_end_ p
    /\ ((address = 0%Z
         /\ alloc_bitset_ p' = alloc_bitset_ p
         /\ forall b, ~ free_run p b (super_pages size))
        \/ (exists b,
              address = chunk_address p b
              /\ free_run p b (super_pages size)
              /\ (forall b', free_run p b' (super_pages size) -> b <= b')
              /\ alloc_bitset_ p'
                 = set_seq b (super_pages size) ∪ alloc_bitset_ p)).
Proof.
  intros Hwf Hsound Hsize Hpos.
  destruct (PoolFacts.FindChunk_spec kSuperPageShift kMaxBits DCHECK_IS_ON
              shift_range p size Hwf Hsize)
    as (p' & address & Heq & Hwf' & Ht & Hb & He & Hres).
  exists p', address. split; [exact Heq|]. split; [exact Hwf'|].
  unfold Pool.FindChunk in Heq.
  rewrite (PoolFacts.need_bits_roundable kSuperPageShift shift_range),
    (PoolFacts.Align_roundable kSuperPageShift shift_range) in Heq
    by exact Hsize.
  pose proof Hwf as (_ & Hhint & _).
  pose proof (super_pages_pos size Hpos) as Hn.
  apply find_loop_search in Heq as [Hs Hsearch];
    [|exact Hwf|exact Hsound|lia|intros i Hi; lia].
  split; [exact Hs|]. do 3 (split; [assumption|]).
  destruct Hsearch as [[-> Hnone]|(b & -> & Hfree & Hlow & Hbits)].
  - intros b Hb'. exists b. split; [lia | now apply Hsound].
  - left. split; [reflexivity|]. split.
    + destruct Hres as [[_ Hsame]|(b & Ha & _)]; [exact Hsame|].
      symmetry in Ha.
      now apply (PoolFacts.chunk_address_nonzero kSuperPageShift kMaxBits
                   shift_range) in Ha.
    + intros b [Hfit Hfree]. destruct (Hnone b Hfit) as (i & Hi & Hin).
      now apply (Hfree i).
  - right. exists b. split; [reflexivity|]. split; [exact Hfree|].
    split; [|exact Hbits].
    intros b' [Hfit' Hfree']. destruct (Nat.lt_ge_cases b' b) as [Hlt|]; [|lia].
    destruct (Hlow b' Hlt) as (i & Hi & Hin). now apply Hfree' in Hin.
Qed.

Lemma FindChunk_hint_sound (p p' : Pool) (size address : Z) :
  pool_wf p -> hint_sound p -> roundable size ->
  FindChunk p size = Ret (p', address) -> hint_sound p'.
Proof.
  intros Hwf Hsound Hsize Heq. unfold Pool.FindChunk in Heq.
  rewrite (PoolFacts.need_bits_roundable kSuperPageShift shift_range),
    (PoolFacts.Align_roundable kSuperPageShift shift_range) in Heq
    by exact Hsize.
  pose proof Hwf as (_ & Hhint & _).
  apply find_loop_search in Heq as [Hs _];
    [exact Hs|exact Hwf|exact Hsound|lia|intros i Hi; lia].
Qed.

(** What the constructor stores. *)
Lemma Pool_new_fields (ptr length : Z) (p : Pool) :
  Pool_new ptr length = Ret p ->
  address_begin_ p = ptr
  /\ total_bits_ p = Z.to_nat (length / SP)
  /\ bit_hint_ p = 0
  /\ alloc_bitset_ p = ∅
  /\ (length mod SP = 0)%Z.
Proof.
  unfold Pool.Pool_new, CHECK, DCHECK.
  destruct (Nat.leb_spec (Z.to_nat (length / SP)) kMaxBits) as [Hmax|];
    [|discriminate].
  cbn [mbind result_bind].
  rewrite !(PoolFacts.land_offset_mask kSuperPageShift shift_range).
  destruct (Z.eqb_spec (ptr mod SP) 0) as [Hal|]; [|discriminate].
  destruct (Z.eqb_spec (length mod SP) 0) as [Hll|]; [|discriminate].
  cbn [mbind result_bind].
  destruct (DCHECK_IS_ON && negb (ptr <? wrap64 (ptr + length))%Z);
    [discriminate|].
  cbn [mbind result_bind]. intros [= <-]. cbn. repeat split. exact Hll.
Qed.

(** X1.  [FindChunk] is a first-fit search.  On a well-formed pool whose
    hint is sound, for a size that is not zero, whenever some run of
    [ceil(size / super_page)] bits lies in the pool and is clear,
    [FindChunk] returns the address of such a run, no such run starts at a
    lower bit, and the bits of the run are the only ones it sets. *)
Theorem FindChunk_first_fit (p : Pool) (size : Z) (b0 : nat) :
  pool_wf p -> hint_sound p -> roundable size -> (0 < size)%Z ->
  free_run p b0 (super_pages size) ->
  exists p' b,
    FindChunk p size = Ret (p', chunk_address p b)
    /\ free_run p b (super_pages size)
    /\ (forall b', free_run p b' (super_pages size) -> b <= b')
    /\ alloc_bitset_ p' = set_seq b (super_pages size) ∪ alloc_bitset_ p.
Proof.
  intros Hwf Hsound Hsize Hpos Hrun.
  destruct (FindChunk_search p size Hwf Hsound Hsize Hpos)
    as (p1 & a1 & Heq1 & _ & _ & _ & _ & _ & Hres).
  destruct Hres as [(_ & _ & Hnone)|(b & -> & Hres)].
  - now apply Hnone in Hrun.
  - exists p1, b. split; [exact Heq1 | exact Hres].
Qed.

(** X2.  [FindChunk] gives up only on a pool that is exhausted for the
    request.  On a well-formed pool whose hint is sound, for a size that is
    not zero and that can be rounded up to super pages within [size_t], it
    returns [0] if and only if no run of [ceil(size / super_page)] bits of
    the pool is clear; the bitmap is then as it was. *)
Theorem FindChunk_fails_iff_exhausted (p : Pool) (size : Z) :
  pool_wf p -> hint_sound p -> roundable size -> (0 < size)%Z ->
  ((exists p', FindChunk p size = Ret (p', 0%Z))
   <-> (forall b, ~ free_run p b (super_pages size)))
  /\ (forall p', FindChunk p size = Ret (p', 0%Z) ->
        alloc_bitset_ p' = alloc_bitset_ p).
Proof.
  intros Hwf Hsound Hsize Hpos.
  destruct (FindChunk_search p size Hwf Hsound Hsize Hpos)
    as (p1 & a1 & Heq1 & _ & _ & _ & _ & _ & Hres).
  assert (Hnz : forall b, chunk_address p b <> 0%Z).
  { intros b. now apply (PoolFacts.chunk_address_nonzero kSuperPageShift
                           kMaxBits shift_range). }
  split; [split|].
  - intros [p' Heq]. rewrite Heq in Heq1. injection Heq1 as <- <-.
    destruct Hres as [(_ & _ & Hnone)|(b & Ha & _)]; [exact Hnone|].
    symmetry in Ha. now apply Hnz in Ha.
  - intros Hnone. destruct Hres as [(-> & _)|(b & _ & Hfree & _)].
    + now exists p1.
    + now apply Hnone in Hfree.
  - intros p' Heq. rewrite Heq in Heq1. injection Heq1 as <- <-.
    destruct Hres as [(_ & Hsame & _)|(b & Ha & _)]; [exact Hsame|].
    symmetry in Ha. now apply Hnz in Ha.
Qed.

Lemma step_hint_sound (s s' : Pool * list (Z * Z)) (c : call) :
  step s c s' ->
  match c with find_chunk size => roundable size | free_chunk _ _ => True end ->
  pool_inv s -> hint_sound s.1 -> hint_sound s'.1.
Proof.
  intros Hstep Hsize (Hwf & Hok & Hcov) Hsound.
  destruct Hstep as [p p' live size address Hfind Hnz
                    |p p' live size Hfind
                    |p p' live1 live2 size address Hfree];
    cbn [fst snd] in *.
  - now apply (FindChunk_hint_sound p p' size address).
  - now apply (FindChunk_hint_sound p p' size 0%Z).
  - rewrite fmap_app in Hcov. cbn [fmap list_fmap] in Hcov.
    apply (PoolFacts.covers_remove kSuperPageShift shift_range) in Hcov
      as [Hsub _].
    apply Forall_app in Hok as [_ Hc].
    apply Forall_cons in Hc as [(Hr & b & Ha & Hfit) _].
    cbn [fst snd] in *. subst address.
    rewrite (PoolFacts.chunk_bits_at kSuperPageShift kMaxBits shift_range
               p b size Hwf ltac:(lia)) in Hsub.
    rewrite (PoolFacts.FreeChunk_spec kSuperPageShift kMaxBits DCHECK_IS_ON
               shift_range) in Hfree; try assumption.
    2:{ intros i Hi. apply Hsub, elem_of_set_seq. lia. }
    injection Hfree as <-. intros i. cbn. intros Hi.
    apply elem_of_difference. split; [apply Hsound; lia|].
    rewrite elem_of_set_seq. lia.
Qed.

(** X3.  The hint stays sound: after any sequence of [find_chunk] and
    [free_chunk] calls on a pool in a state of the invariant whose hint is
    sound, every bit below [bit_hint_] is set.  This is what the comment of
    [FindChunk] relies on, "we know there are no free chunks before". *)
Theorem hint_stays_sound (s s' : Pool * list (Z * Z)) (calls : list call) :
  pool_inv s -> hint_sound s.1 -> requests_roundable calls ->
  steps s calls s' ->
  hint_sound s'.1.
Proof.
  intros Hinv Hsound Hreq Hsteps. revert Hinv Hsound Hreq.
  induction Hsteps as [s|s1 s2 s3 c cs Hstep _ IH]; intros Hinv Hsound Hreq.
  - exact Hsound.
  - apply Forall_cons in Hreq as [Hc Hreq]. apply IH; [| |exact Hreq].
    + now apply (PoolFacts.step_inv kSuperPageShift kMaxBits DCHECK_IS_ON
                   shift_range s1 s2 c).
    + now apply (step_hint_sound s1 s2 c).
Qed.

(** X4.  Freeing the chunk that [FindChunk] just returned, with the size it
    was asked for, gives the bitmap back as it was before the two calls. *)
Theorem find_then_free_restores_bitmap (p p' : Pool) (size address : Z) :
  pool_wf p -> roundable size ->
  FindChunk p size = Ret (p', address) -> address <> 0%Z ->
  exists p'',
    FreeChunk p' address size = Ret p''
    /\ alloc_bitset_ p'' = alloc_bitset_ p
    /\ total_bits_ p'' = total_bits_ p
    /\ address_begin_ p'' = address_begin_ p
    /\ address_end_ p'' = address_end_ p
    /\ pool_wf p''.
Proof.
  intros Hwf Hsize Heq Hnz.
  destruct (PoolFacts.FindChunk_spec kSuperPageShift kMaxBits DCHECK_IS_ON
              shift_range p size Hwf Hsize)
    as (p1 & a1 & Heq1 & Hwf' & Ht & Hb & He & Hres).
  rewrite Heq in Heq1. injection Heq1 as <- <-.
  destruct Hres as [[Hzero _]|(b & Ha & Hfit & Hclear & Hbits)];
    [contradiction|].
  assert (Haddr : address = chunk_address p' b).
  { rewrite Ha. unfold Pool.chunk_address. now rewrite Hb. }
  eexists. split.
  { rewrite Haddr.
    apply (PoolFacts.FreeChunk_spec kSuperPageShift kMaxBits DCHECK_IS_ON
             shift_range); [exact Hwf'|exact Hsize|lia|].
    intros i Hi. rewrite Hbits. apply elem_of_union. left.
    apply elem_of_set_seq. lia. }
  cbn. split.
  { rewrite Hbits. apply set_eq. intros x.
    rewrite elem_of_difference, elem_of_union, elem_of_set_seq.
    split; [tauto|]. intros Hx. split; [tauto|].
    intros Hrange. now apply (Hclear x). }
  do 3 (split; [assumption|]).
  now apply PoolFacts.pool_wf_after_free.
Qed.

(** X5.  The hint is only a short cut for a request that takes bits.  Two
    well-formed pools over the same region with the same bitmap, each with
    a sound hint, give the same answer to the same request of a size that
    is not zero and that can be rounded up to super pages within [size_t],
    whatever the two hints are, and leave the same bitmap. *)
Theorem FindChunk_ignores_hint (p1 p2 : Pool) (size : Z) :
  pool_wf p1 -> pool_wf p2 -> hint_sound p1 -> hint_sound p2 ->
  total_bits_ p1 = total_bits_ p2 ->
  address_begin_ p1 = address_begin_ p2 ->
  alloc_bitset_ p1 = alloc_bitset_ p2 ->
  roundable size -> (0 < size)%Z ->
  exists p1' p2' address,
    FindChunk p1 size = Ret (p1', address)
    /\ FindChunk p2 size = Ret (p2', address)
    /\ alloc_bitset_ p1' = alloc_bitset_ p2'.
Proof.
  intros Hwf1 Hwf2 Hs1 Hs2 Ht Hb Hbits Hsize Hpos.
  destruct (FindChunk_search p1 size Hwf1 Hs1 Hsize Hpos)
    as (q1 & c1 & Hq1 & _ & _ & _ & _ & _ & Hres1).
  destruct (FindChunk_search p2 size Hwf2 Hs2 Hsize Hpos)
    as (q2 & c2 & Hq2 & _ & _ & _ & _ & _ & Hres2).
  exists q1, q2, c1. split; [exact Hq1|].
  assert (Hsame : forall b n, free_run p1 b n <-> free_run p2 b n).
  { intros b n. unfold free_run. now rewrite Ht, Hbits. }
  destruct Hres1 as [(-> & Hb1 & Hnone1)|(b1 & -> & Hfree1 & Hlow1 & Hb1)];
    destruct Hres2 as [(-> & Hb2 & Hnone2)|(b2 & -> & Hfree2 & Hlow2 & Hb2)].
  - split; [exact Hq2|]. now rewrite Hb1, Hb2.
  - apply Hsame in Hfree2. now apply Hnone1 in Hfree2.
  - apply Hsame in Hfree1. now apply Hnone2 in Hfree1.
  - assert (b1 = b2) as ->.
    { apply Nat.le_antisymm.
      - apply Hlow1, Hsame, Hfree2.
      - apply Hlow2, Hsame, Hfree1. }
    split; [|now rewrite Hb1, Hb2, Hbits].
    rewrite Hq2. unfold Pool.chunk_address. now rewrite Hb.
Qed.

(** X6.  A pool that was just constructed serves a request for its whole
    length at its base, which sets every bit, and refuses a request for one
    byte more. *)
Theorem whole_pool_request (ptr length : Z) (p : Pool) :
  (0 < ptr)%Z -> (0 < length)%Z -> (ptr + length + SP < modulus)%Z ->
  Pool_new ptr length = Ret p ->
  (exists p',
     FindChunk p length = Ret (p', ptr)
     /\ forall i, i < total_bits_ p -> i ∈ alloc_bitset_ p')
  /\ (exists p',
        FindChunk p (length + 1) = Ret (p', 0%Z) /\ alloc_bitset_ p' = ∅).
Proof.
  intros Hptr Hlen Hend Hnew.
  pose proof (PoolFacts.SP_pos kSuperPageShift shift_range) as HSP.
  destruct (PoolFacts.Pool_new_wf kSuperPageShift kMaxBits DCHECK_IS_ON
              shift_range ptr length p Hptr ltac:(lia) ltac:(lia) Hnew)
    as [Hwf _].
  destruct (Pool_new_fields ptr length p Hnew)
    as (Hbegin & Htotal & Hhint & Hempty & Hmod).
  assert (Hsound : hint_sound p).
  { intros i Hi. rewrite Hhint in Hi. lia. }
  assert (Hexact : (length = length / SP * SP)%Z).
  { pose proof (Z.div_mod length SP ltac:(lia)). lia. }
  assert (Hk : (0 <= length / SP)%Z) by (apply Z.div_pos; lia).
  assert (Hn : super_pages length = total_bits_ p).
  { rewrite Htotal. unfold Pool.super_pages. f_equal.
    rewrite Hexact at 1.
    replace (length / SP * SP + SP - 1)%Z
      with ((SP - 1) + length / SP * SP)%Z by lia.
    rewrite Z.div_add by lia. rewrite Z.div_small by lia. lia. }
  assert (Hn1 : super_pages (length + 1) = S (total_bits_ p)).
  { rewrite Htotal. unfold Pool.super_pages.
    replace (length + 1 + SP - 1)%Z with (0 + (length / SP + 1) * SP)%Z
      by lia.
    rewrite Z.div_add by lia. rewrite Z.div_small by lia.
    rewrite Z.add_0_l, Z2Nat.inj_add by lia. cbn. lia. }
  split.
  - destruct (FindChunk_search p length Hwf Hsound
                ltac:(unfold Pool.roundable; lia) Hlen)
      as (p' & a & Heq & _ & _ & _ & _ & _ & Hres).
    assert (Hfree : free_run p 0 (super_pages length)).
    { split; [lia|]. intros i _. rewrite Hempty. apply not_elem_of_empty. }
    destruct Hres as [(_ & _ & Hnone)|(b & -> & _ & Hlow & Hbits)].
    { now apply Hnone in Hfree. }
    apply Hlow in Hfree. assert (b = 0) as -> by lia.
    exists p'. split.
    + rewrite Heq. unfold Pool.chunk_address. rewrite Hbegin.
      do 2 f_equal. cbn. lia.
    + intros i Hi. rewrite Hbits. apply elem_of_union. left.
      apply elem_of_set_seq. lia.
  - destruct (FindChunk_search p (length + 1) Hwf Hsound
                ltac:(unfold Pool.roundable; lia) ltac:(lia))
      as (p' & a & Heq & _ & _ & _ & _ & _ & Hres).
    destruct Hres as [(-> & Hsame & _)|(b & _ & [Hfit _] & _)].
    + exists p'. split; [exact Heq|]. now rewrite Hsame.
    + lia.
Qed.

End Facts.

(** The theorem on the pool of four super pages, which is empty, and a
    request for one super page. *)
Lemma FindChunk_first_fit_witness :
  exists p' b,
    Examples.FindChunk Examples.fresh_pool Examples.SP
    = Ret (p', chunk_address Examples.kSuperPageShift Examples.fresh_pool b)
    /\ free_run Examples.fresh_pool b
         (super_pages Examples.kSuperPageShift Examples.SP)
    /\ (forall b',
          free_run Examples.fresh_pool b'
            (super_pages Examples.kSuperPageShift Examples.SP) ->
          (b <= b')%nat)
    /\ alloc_bitset_ p'
       = set_seq b (super_pages Examples.kSuperPageShift Examples.SP)
         ∪ alloc_bitset_ Examples.fresh_pool.
Proof.
  apply (FindChunk_first_fit Examples.kSuperPageShift Examples.kMaxBits true
           ltac:(unfold Examples.kSuperPageShift; lia)
           Examples.fresh_pool Examples.SP 0%nat).
  - apply PoolFacts.example_pool_wf; [lia|].
    intros i Hi. now apply not_elem_of_empty in Hi.
  - intros i Hi. cbn in Hi. lia.
  - split; [discriminate | vm_compute; discriminate].
  - reflexivity.
  - split; [vm_compute; lia|].
    intros i _ Hi. now apply not_elem_of_empty in Hi.
Defined.

(** The theorem on the pool whose four bits are set. *)
Lemma FindChunk_fails_iff_exhausted_witness :
  ((exists p', Examples.FindChunk Examples.full_pool Examples.SP = Ret (p', 0))
   <-> (forall b,
          ~ free_run Examples.full_pool b
              (super_pages Examples.kSuperPageShift Examples.SP)))
  /\ (forall p',
        Examples.FindChunk Examples.full_pool Examples.SP = Ret (p', 0) ->
        alloc_bitset_ p' = alloc_bitset_ Examples.full_pool).
Proof.
  apply (FindChunk_fails_iff_exhausted Examples.kSuperPageShift
           Examples.kMaxBits true
           ltac:(unfold Examples.kSuperPageShift; lia)
           Examples.full_pool Examples.SP).
  - apply PoolFacts.example_pool_wf; [lia|].
    intros i Hi. set_unfold in Hi. lia.
  - intros i Hi. cbn in Hi. set_unfold. lia.
  - split; [discriminate | vm_compute; discriminate].
  - reflexivity.
Defined.

(** The theorem on the first scenario of the specification. *)
Lemma hint_stays_sound_witness :
  hint_sound (Examples.scenario_pool, Examples.scenario_live).1.
Proof.
  apply (hint_stays_sound Examples.kSuperPageShift Examples.kMaxBits true
           ltac:(unfold Examples.kSuperPageShift; lia)
           (Examples.fresh_pool, []) (Examples.scenario_pool,
                                      Examples.scenario_live)
           Examples.scenario_calls).
  - split; [|split; [constructor | reflexivity]].
    apply PoolFacts.example_pool_wf; [lia|].
    intros i Hi. now apply not_elem_of_empty in Hi.
  - intros i Hi. cbn in Hi. lia.
  - repeat constructor; discriminate.
  - apply PoolFacts.run_steps; [unfold Examples.kSuperPageShift; lia|].
    vm_compute. reflexivity.
Defined.

(** The theorem on the empty pool of four super pages. *)
Lemma find_then_free_restores_bitmap_witness :
  exists p'',
    Examples.FreeChunk Examples.one_chunk_pool Examples.pool_base Examples.SP
    = Ret p''
    /\ alloc_bitset_ p'' = alloc_bitset_ Examples.fresh_pool
    /\ total_bits_ p'' = total_bits_ Examples.fresh_pool
    /\ address_begin_ p'' = address_begin_ Examples.fresh_pool
    /\ address_end_ p'' = address_end_ Examples.fresh_pool
    /\ pool_wf Examples.kSuperPageShift Examples.kMaxBits p''.
Proof.
  apply (find_then_free_restores_bitmap Examples.kSuperPageShift
           Examples.kMaxBits true
           ltac:(unfold Examples.kSuperPageShift; lia)
           Examples.fresh_pool Examples.one_chunk_pool Examples.SP
           Examples.pool_base).
  - apply PoolFacts.example_pool_wf; [lia|].
    intros i Hi. now apply not_elem_of_empty in Hi.
  - split; [discriminate | vm_compute; discriminate].
  - vm_compute. reflexivity.
  - discriminate.
Defined.

(** The theorem on the pool of the first scenario, whose bits 0, 1 and 3
    are set, with its hint at 2 and with its hint at 0. *)
Lemma FindChunk_ignores_hint_witness :
  exists p1' p2' address,
    Examples.FindChunk Examples.scenario_pool Examples.SP
    = Ret (p1', address)
    /\ Examples.FindChunk (with_hint Examples.scenario_pool 0) Examples.SP
       = Ret (p2', address)
    /\ alloc_bitset_ p1' = alloc_bitset_ p2'.
Proof.
  apply (FindChunk_ignores_hint Examples.kSuperPageShift Examples.kMaxBits
           true ltac:(unfold Examples.kSuperPageShift; lia)
           Examples.scenario_pool (with_hint Examples.scenario_pool 0)
           Examples.SP).
  - apply PoolFacts.example_pool_wf; [lia|].
    intros i Hi. set_unfold in Hi. lia.
  - apply PoolFacts.example_pool_wf; [lia|].
    intros i Hi. set_unfold in Hi. lia.
  - intros i Hi. cbn in Hi. set_unfold. lia.
  - intros i Hi. cbn in Hi. lia.
  - reflexivity.
  - reflexivity.
  - reflexivity.
  - split; [discriminate | vm_compute; discriminate].
  - reflexivity.
Defined.

(** The theorem on the pool of four super pages. *)
Lemma whole_pool_request_witness :
  (exists p',
     Examples.FindChunk Examples.fresh_pool (4 * Examples.SP)
     = Ret (p', Examples.pool_base)
     /\ forall i, (i < total_bits_ Examples.fresh_pool)%nat ->
                  i ∈ alloc_bitset_ p')
  /\ (exists p',
        Examples.FindChunk Examples.fresh_pool (4 * Examples.SP + 1)
        = Ret (p', 0)
        /\ alloc_bitset_ p' = ∅).
Proof.
  apply (whole_pool_request Examples.kSuperPageShift Examples.kMaxBits true
           ltac:(unfold Examples.kSuperPageShift; lia)
           Examples.pool_base (4 * Examples.SP) Examples.fresh_pool).
  - reflexivity.
  - reflexivity.
  - reflexivity.
  - vm_compute. reflexivity.
Defined.

End PoolSearchFacts.

(** ** The pool manager *)

Module PoolManagerFacts.

Import Constants Pool AddressPoolManager.

Local Open Scope nat_scope.

(** A sequence of two steps returns only if both do. *)
Lemma bind_Ret {A B : Type} (m : result A) (k : A -> result B) (b : B) :
  (x ← m; k x) = Ret b -> exists a, m = Ret a /\ k a = Ret b.
Proof.
  destruct m as [a| |]; cbn [mbind result_bind]; try discriminate.
  intros Hk. now exists a.
Qed.

Lemma first_free_Some (pools_ : list (option Pool)) (i j : nat) :
  first_free pools_ i = Some j ->
  i <= j
  /\ pools_ !! (j - i) = Some None
  /\ forall k, k < j - i -> exists q, pools_ !! k = Some (Some q).
Proof.
  revert i. induction pools_ as [|[q|] pools_ IH]; intros i Hfree;
    cbn [first_free] in Hfree.
  - discriminate.
  - apply IH in Hfree as (Hle & Hj & Hlow).
    split; [lia|]. replace (j - i) with (S (j - S i)) by lia.
    split; [exact Hj|]. intros [|k] Hk; [now exists q|].
    apply Hlow. lia.
  - injection Hfree as <-. rewrite Nat.sub_diag.
    split; [lia|]. split; [reflexivity|]. intros k Hk. lia.
Qed.

Lemma first_free_None (pools_ : list (option Pool)) (i : nat) :
  first_free pools_ i = None <-> Forall (fun o => o <> None) pools_.
Proof.
  revert i. induction pools_ as [|[q|] pools_ IH]; intros i;
    cbn [first_free].
  - split; [constructor | reflexivity].
  - rewrite IH. split.
    + intros Hall. now constructor.
    + intros Hall. now apply Forall_cons in Hall as [_ Hall].
  - split; [discriminate|]. intros Hall.
    apply Forall_cons in Hall as [Hnone _]. contradiction.
Qed.

Lemma first_free_lowest (pools_ : list (option Pool)) (k i : nat) :
  pools_ !! i = Some None ->
  (forall j, j < i -> exists q, pools_ !! j = Some (Some q)) ->
  first_free pools_ k = Some (k + i).
Proof.
  revert k i. induction pools_ as [|o pools_ IH]; intros k i Hslot Hlow.
  - discriminate.
  - destruct i as [|i].
    + injection Hslot as ->. cbn [first_free]. f_equal. lia.
    + destruct (Hlow 0 ltac:(lia)) as [q Hq]. injection Hq as ->.
      cbn [first_free]. rewrite (IH (S k) i).
      * f_equal. lia.
      * exact Hslot.
      * intros j Hj. apply (Hlow (S j)). lia.
Qed.

Section Facts.

Variable kSuperPageShift : Z.
Variable kMaxBits : nat.
Variable kNumPools : nat.
Variable DCHECK_IS_ON : bool.
Variable out_of_range : option Pool.

Hypothesis shift_range : (0 <= kSuperPageShift < 64)%Z.

Abbreviation SP := (kSuperPageSize kSuperPageShift).
Abbreviation Pool_new := (Pool.Pool_new kSuperPageShift kMaxBits DCHECK_IS_ON).
Abbreviation pool_wf := (Pool.pool_wf kSuperPageShift kMaxBits).
Abbreviation roundable := (Pool.roundable kSuperPageShift).
Abbreviation super_pages := (Pool.super_pages kSuperPageShift).
Abbreviation Add :=
  (AddressPoolManager.Add kSuperPageShift kMaxBits DCHECK_IS_ON).
Abbreviation Remove := (AddressPoolManager.Remove kNumPools DCHECK_IS_ON).
Abbreviation GetPool :=
  (AddressPoolManager.GetPool kNumPools DCHECK_IS_ON out_of_range).
Abbreviation Alloc :=
  (AddressPoolManager.Alloc kSuperPageShift kMaxBits kNumPools DCHECK_IS_ON
     out_of_range).

Lemma handle_check_passes (handle : nat) :
  0 < handle <= kNumPools ->
  DCHECK DCHECK_IS_ON ((0 <? handle) && (handle <=? kNumPools)) = Ret ().
Proof.
  intros Hh. unfold DCHECK.
  destruct (Nat.ltb_spec 0 handle); [|lia].
  destruct (Nat.leb_spec handle kNumPools); [|lia].
  now rewrite andb_false_r.
Qed.

(** Writing the slot of one handle leaves what [GetPool] finds behind every
    other handle. *)
Lemma GetPool_other (pools_ : list (option Pool)) (i h : nat)
    (slot : option Pool) :
  h <> S i -> GetPool (<[i := slot]> pools_) h = GetPool pools_ h.
Proof.
  intros Hne. unfold AddressPoolManager.GetPool.
  destruct h as [|j]; [reflexivity|].
  rewrite list_lookup_insert_ne by lia. reflexivity.
Qed.

(** [GetPool] of a handle whose slot holds a pool, and of one whose slot is
    empty. *)
Lemma GetPool_slot (pools_ : list (option Pool)) (i : nat) (pool : Pool) :
  S i <= kNumPools -> pools_ !! i = Some (Some pool) ->
  GetPool pools_ (S i) = Ret (Some pool).
Proof.
  intros Hi Hslot. unfold AddressPoolManager.GetPool.
  rewrite handle_check_passes by lia. cbn [mbind result_bind].
  rewrite Hslot. cbn [default]. unfold DCHECK.
  rewrite bool_decide_true by (now exists pool).
  now rewrite andb_false_r.
Qed.

Lemma GetPool_empty_slot (pools_ : list (option Pool)) (i : nat) :
  S i <= kNumPools -> pools_ !! i = Some None ->
  GetPool pools_ (S i) = if DCHECK_IS_ON then Abort else Ret None.
Proof.
  intros Hi Hslot. unfold AddressPoolManager.GetPool.
  rewrite handle_check_passes by lia. cbn [mbind result_bind].
  rewrite Hslot. cbn [default]. unfold DCHECK.
  rewrite bool_decide_false by (intros [q Hq]; discriminate).
  now destruct DCHECK_IS_ON.
Qed.

(** The constructor returns only for a region that is aligned on super
    pages at both ends. *)
Lemma Pool_new_aligned (ptr length_ : Z) (pool : Pool) :
  Pool_new ptr length_ = Ret pool ->
  Z.land ptr (kSuperPageOffsetMask kSuperPageShift) = 0%Z
  /\ Z.land (wrap64 (ptr + length_)) (kSuperPageOffsetMask kSuperPageShift)
     = 0%Z.
Proof.
  intros Hnew.
  pose proof (PoolFacts.SP_pos kSuperPageShift shift_range) as HSP.
  pose proof (PoolFacts.SP_pow kSuperPageShift) as HSPpow.
  unfold Pool.Pool_new in Hnew.
  apply bind_Ret in Hnew as ([] & _ & Hnew).
  apply bind_Ret in Hnew as ([] & Hptr & Hnew).
  apply bind_Ret in Hnew as ([] & Hlen & _).
  unfold CHECK in Hptr, Hlen.
  destruct (Z.eqb_spec (Z.land ptr (kSuperPageOffsetMask kSuperPageShift)) 0)
    as [Hp|]; [|discriminate].
  destruct (Z.eqb_spec
              (Z.land length_ (kSuperPageOffsetMask kSuperPageShift)) 0)
    as [Hl|]; [|discriminate].
  split; [exact Hp|].
  rewrite (PoolFacts.land_offset_mask kSuperPageShift shift_range) in *.
  unfold wrap64.
  rewrite (Z.mod_mod_divide (ptr + length_) modulus SP).
  - rewrite Z.add_mod, Hp, Hl by lia. reflexivity.
  - exists (2 ^ (64 - kSuperPageShift))%Z.
    rewrite HSPpow, <- Z.pow_add_r by lia.
    unfold modulus. f_equal. lia.
Qed.

(** X7.  [Add] gives out the lowest handle that is free.  When the slot
    [i] of the manager is empty, all slots below it are taken and the
    constructor of the pool returns for the region, [Add] returns the
    handle [i + 1], which is at most [kNumPools], and stores the pool in
    that slot: [GetPool] of the handle is the new pool, and [GetPool] of
    every other handle is as before. *)
Theorem Add_assigns_lowest_free_handle (pools_ : list (option Pool))
    (ptr length_ : Z) (pool : Pool) (i : nat) :
  length pools_ = kNumPools ->
  pools_ !! i = Some None ->
  (forall j, j < i -> exists q, pools_ !! j = Some (Some q)) ->
  Pool_new ptr length_ = Ret pool ->
  Add pools_ ptr length_ = Ret (<[i := Some pool]> pools_, S i)
  /\ S i <= kNumPools
  /\ GetPool (<[i := Some pool]> pools_) (S i) = Ret (Some pool)
  /\ (forall h, h <> S i ->
        GetPool (<[i := Some pool]> pools_) h = GetPool pools_ h).
Proof.
  intros Hlen Hslot Hlow Hnew.
  apply lookup_lt_Some in Hslot as Hi.
  destruct (Pool_new_aligned ptr length_ pool Hnew) as [Hp He].
  split.
  { unfold AddressPoolManager.Add, DCHECK.
    rewrite Hp, He. cbn [Z.eqb negb]. rewrite andb_false_r.
    cbn [mbind result_bind].
    rewrite (first_free_lowest pools_ 0 i Hslot Hlow).
    cbn [Nat.add]. rewrite Hnew. reflexivity. }
  split; [lia|]. split.
  - apply GetPool_slot; [lia|]. now rewrite list_lookup_insert_eq by lia.
  - intros h Hh. now apply GetPool_other.
Qed.

(** X8.  [Add] on a manager whose slots are all taken reaches
    [NOTREACHED()]: with debug checks the call stops, without them it
    returns the handle 0 and leaves the manager as it was.  In a build with
    debug checks [GetPool] of the handle 0 stops on its first [DCHECK]. *)
Theorem Add_on_full_manager (pools_ : list (option Pool)) (ptr length_ : Z) :
  Forall (fun o => o <> None) pools_ ->
  Add pools_ ptr length_
  = (if DCHECK_IS_ON then Abort else Ret (pools_, 0))
  /\ AddressPoolManager.GetPool kNumPools true out_of_range pools_ 0 = Abort.
Proof.
  intros Hfull. split; [|reflexivity].
  unfold AddressPoolManager.Add.
  apply (first_free_None pools_ 0) in Hfull. rewrite Hfull.
  unfold DCHECK. destruct DCHECK_IS_ON; cbn [andb negb]; [|reflexivity].
  repeat (destruct (negb (_ =? 0)%Z); cbn [mbind result_bind];
          try reflexivity).
Qed.

(** X9.  [Remove] undoes [Add]: removing the handle that [Add] just
    returned gives the manager back as it was before the two calls.
    [GetPool] of that handle then finds the empty slot, as it did before
    the handle was given out: it stops on [DCHECK(pool)] in a build with
    debug checks and returns the null pointer in a build without them. *)
Theorem Remove_undoes_Add (pools_ pools' : list (option Pool))
    (ptr length_ : Z) (handle : nat) :
  length pools_ = kNumPools ->
  Add pools_ ptr length_ = Ret (pools', handle) -> handle <> 0 ->
  Remove pools' handle = Ret pools_
  /\ GetPool pools_ handle = (if DCHECK_IS_ON then Abort else Ret None).
Proof.
  intros Hlen Hadd Hnz.
  unfold AddressPoolManager.Add in Hadd.
  apply bind_Ret in Hadd as ([] & _ & Hadd).
  apply bind_Ret in Hadd as ([] & _ & Hadd).
  destruct (first_free pools_ 0) as [i|] eqn:Hfree.
  2:{ apply bind_Ret in Hadd as ([] & _ & Hadd). injection Hadd as _ <-.
      contradiction. }
  apply bind_Ret in Hadd as (pool & _ & Hadd). injection Hadd as <- <-.
  apply first_free_Some in Hfree as (_ & Hslot & _).
  rewrite Nat.sub_0_r in Hslot. apply lookup_lt_Some in Hslot as Hi.
  split.
  - unfold AddressPoolManager.Remove.
    rewrite handle_check_passes by lia. cbn [mbind result_bind].
    f_equal. rewrite list_insert_insert_eq.
    now apply list_insert_id.
  - apply GetPool_empty_slot; [lia | exact Hslot].
Qed.

Lemma super_pages_cover (size : Z) :
  (0 <= size)%Z -> (size <= Z.of_nat (super_pages size) * SP)%Z.
Proof.
  intros Hsize. unfold Pool.super_pages.
  pose proof (PoolFacts.SP_pos kSuperPageShift shift_range) as HSP.
  rewrite Z2Nat.id by (apply Z.div_pos; lia).
  pose proof (Z.div_mod (size + SP - 1) SP ltac:(lia)).
  pose proof (Z.mod_pos_bound (size + SP - 1) SP ltac:(lia)). lia.
Qed.


End Facts.

(** The theorem on a manager of two pools whose first slot is taken, and
    the region of four super pages. *)
Lemma Add_assigns_lowest_free_handle_witness :
  AddressPoolManager.Add Examples.kSuperPageShift Examples.kMaxBits true
    [Some Examples.one_chunk_pool; None] Examples.pool_base (4 * Examples.SP)
  = Ret (<[1%nat := Some Examples.fresh_pool]>
           [Some Examples.one_chunk_pool; None], 2%nat)
  /\ (2 <= 2)%nat
  /\ AddressPoolManager.GetPool 2 true None
       (<[1%nat := Some Examples.fresh_pool]>
          [Some Examples.one_chunk_pool; None]) 2
     = Ret (Some Examples.fresh_pool)
  /\ (forall h, h <> 2%nat ->
        AddressPoolManager.GetPool 2 true None
          (<[1%nat := Some Examples.fresh_pool]>
             [Some Examples.one_chunk_pool; None]) h
        = AddressPoolManager.GetPool 2 true None
            [Some Examples.one_chunk_pool; None] h).
Proof.
  apply (Add_assigns_lowest_free_handle Examples.kSuperPageShift
           Examples.kMaxBits 2 true None
           ltac:(unfold Examples.kSuperPageShift; lia)
           [Some Examples.one_chunk_pool; None]
           Examples.pool_base (4 * Examples.SP) Examples.fresh_pool 1).
  - reflexivity.
  - reflexivity.
  - intros [|j] Hj; [|lia]. now exists Examples.one_chunk_pool.
  - vm_compute. reflexivity.
Defined.

(** The theorem on a manager of one pool, which is taken, in a build
    without debug checks. *)
Lemma Add_on_full_manager_witness :
  AddressPoolManager.Add Examples.kSuperPageShift Examples.kMaxBits false
    [Some Examples.fresh_pool] Examples.pool_base (4 * Examples.SP)
  = Ret ([Some Examples.fresh_pool], 0%nat)
  /\ AddressPoolManager.GetPool 1 true None [Some Examples.fresh_pool] 0
     = Abort.
Proof.
  apply (Add_on_full_manager Examples.kSuperPageShift Examples.kMaxBits 1
           false None [Some Examples.fresh_pool]
           Examples.pool_base (4 * Examples.SP)).
  repeat constructor; discriminate.
Defined.

(** The theorem on a manager of two pools, both free, in a build without
    debug checks. *)
Lemma Remove_undoes_Add_witness :
  AddressPoolManager.Remove 2 false [Some Examples.fresh_pool; None] 1
  = Ret (pools_new 2)
  /\ AddressPoolManager.GetPool 2 false None (pools_new 2) 1 = Ret None.
Proof.
  apply (Remove_undoes_Add Examples.kSuperPageShift Examples.kMaxBits 2 false
           None (pools_new 2) [Some Examples.fresh_pool; None]
           Examples.pool_base (4 * Examples.SP) 1).
  - reflexivity.
  - vm_compute. reflexivity.
  - discriminate.
Defined.


End PoolManagerFacts.

(** ** Setting up the reserved region *)

Module AddressSpaceInitFacts.

Import Constants Pool AddressPoolManager AddressSpaceInit.

Section Facts.

Variable kSuperPageShift : Z.
Variable kMaxBits : nat.
Variable DCHECK_IS_ON : bool.

Hypothesis shift_range : 0 <= kSuperPageShift < 64.

Abbreviation SP := (kSuperPageSize kSuperPageShift).
Abbreviation Pool_new := (Pool.Pool_new kSuperPageShift kMaxBits DCHECK_IS_ON).
Abbreviation Add :=
  (AddressPoolManager.Add kSuperPageShift kMaxBits DCHECK_IS_ON).

Lemma DCHECK_true : DCHECK DCHECK_IS_ON true = Ret ().
Proof. unfold DCHECK. now rewrite andb_false_r. Qed.

(** The pool that the constructor builds for a region of [bits] super
    pages. *)
Lemma Pool_new_succeeds (ptr length_ : Z) (bits : nat) :
  0 < ptr -> ptr mod SP = 0 ->
  length_ = Z.of_nat bits * SP -> (0 < bits <= kMaxBits)%nat ->
  ptr + length_ < modulus ->
  Pool_new ptr length_
  = Ret {| total_bits_ := bits;
           address_begin_ := ptr;
           address_end_ := ptr + length_;
           bit_hint_ := 0;
           alloc_bitset_ := ∅ |}.
Proof.
  intros Hptr Hal Hlen Hbits Hend.
  pose proof (PoolFacts.SP_pos kSuperPageShift shift_range) as HSP.
  unfold Pool.Pool_new, CHECK, DCHECK.
  rewrite !(PoolFacts.land_offset_mask kSuperPageShift shift_range).
  assert (Hdiv : length_ / SP = Z.of_nat bits).
  { rewrite Hlen. apply Z.div_mul. lia. }
  assert (Hmod : length_ mod SP = 0).
  { rewrite Hlen. apply Z.mod_mul. lia. }
  rewrite Hdiv, Nat2Z.id, Hal, Hmod.
  destruct (Nat.leb_spec bits kMaxBits); [|lia].
  cbn [Z.eqb mbind result_bind].
  rewrite wrap64_small by (unfold is_u64; nia).
  destruct (Z.ltb_spec ptr (ptr + length_)); [|nia].
  rewrite andb_false_r. reflexivity.
Qed.

Lemma Add_at_first_free (pools_ : list (option Pool)) (i : nat)
    (ptr length_ : Z) (bits : nat) :
  first_free pools_ 0 = Some i ->
  0 < ptr -> ptr mod SP = 0 ->
  length_ = Z.of_nat bits * SP -> (0 < bits <= kMaxBits)%nat ->
  ptr + length_ < modulus ->
  Add pools_ ptr length_
  = Ret (<[i := Some {| total_bits_ := bits;
                        address_begin_ := ptr;
                        address_end_ := ptr + length_;
                        bit_hint_ := 0;
                        alloc_bitset_ := ∅ |}]> pools_,
         S i).
Proof.
  intros Hfree Hptr Hal Hlen Hbits Hend.
  pose proof (PoolFacts.SP_pos kSuperPageShift shift_range) as HSP.
  unfold AddressPoolManager.Add, DCHECK.
  rewrite !(PoolFacts.land_offset_mask kSuperPageShift shift_range).
  rewrite wrap64_small by (unfold is_u64; nia).
  assert (Hmod : (ptr + length_) mod SP = 0).
  { rewrite Hlen, Z.mod_add by lia. exact Hal. }
  rewrite Hal, Hmod. cbn [Z.eqb negb]. rewrite !andb_false_r.
  cbn [mbind result_bind]. rewrite Hfree.
  rewrite (Pool_new_succeeds ptr length_ bits) by assumption.
  reflexivity.
Qed.

(** X11.  [Init()] carves the two pools out of the reserved region.  Take
    an alignment that is a power of two of at least a super page, the
    offset mask of that alignment, two pool
    sizes that are whole numbers of super pages within [kMaxBits], a
    desired size that is their sum, and a reserved size of at least the
    alignment plus the desired size.  On the static members as they are
    initialised and a manager with two free slots or more, for every
    address that [SystemAllocPages] returns, [Init()] returns: the base
    address is the address rounded up to the alignment and lies in the
    region; the direct-map pool gets the handle 1 and starts at the base
    address; the normal-bucket pool gets the handle 2 and starts where the
    first ends; both end inside the region.  [UninitForTesting()] then
    gives back the static members and the manager as they were. *)
Theorem Init_lays_out_pools (kNumPools : nat)
    (kReservedAddressSpaceAlignment kReservedAddressSpaceSize
     kDirectMapPoolSize kNormalBucketPoolSize kDesiredAddressSpaceSize
     kReservedAddressSpaceOffsetMask start n : Z)
    (direct_map_bits normal_bucket_bits : nat) :
  kSuperPageShift <= n < 64 ->
  kReservedAddressSpaceAlignment = 2 ^ n ->
  kReservedAddressSpaceOffsetMask = kReservedAddressSpaceAlignment - 1 ->
  kDirectMapPoolSize = Z.of_nat direct_map_bits * SP ->
  kNormalBucketPoolSize = Z.of_nat normal_bucket_bits * SP ->
  (0 < direct_map_bits <= kMaxBits)%nat ->
  (0 < normal_bucket_bits <= kMaxBits)%nat ->
  kDesiredAddressSpaceSize = kDirectMapPoolSize + kNormalBucketPoolSize ->
  kReservedAddressSpaceAlignment + kDesiredAddressSpaceSize
  <= kReservedAddressSpaceSize ->
  0 < start -> start + kReservedAddressSpaceSize < modulus ->
  (2 <= kNumPools)%nat ->
  exists base_address direct_map_pool normal_bucket_pool,
    AddressSpaceInit.Init kSuperPageShift kMaxBits DCHECK_IS_ON
      kReservedAddressSpaceAlignment kReservedAddressSpaceSize
      kDirectMapPoolSize kNormalBucketPoolSize kDesiredAddressSpaceSize
      kReservedAddressSpaceOffsetMask
      start (before_Init kReservedAddressSpaceOffsetMask)
      (pools_new kNumPools)
    = Ret ({| reserved_address_start_ := start;
              reserved_base_address_ := base_address;
              direct_map_pool_ := 1;
              normal_bucket_pool_ := 2 |},
           <[1%nat := Some normal_bucket_pool]>
             (<[0%nat := Some direct_map_pool]> (pools_new kNumPools)))
    /\ start <= base_address < start + kReservedAddressSpaceAlignment
    /\ base_address mod kReservedAddressSpaceAlignment = 0
    /\ address_begin_ direct_map_pool = base_address
    /\ address_end_ direct_map_pool = base_address + kDirectMapPoolSize
    /\ address_begin_ normal_bucket_pool = base_address + kDirectMapPoolSize
    /\ address_end_ normal_bucket_pool
       = base_address + kDesiredAddressSpaceSize
    /\ base_address + kDesiredAddressSpaceSize
       <= start + kReservedAddressSpaceSize
    /\ alloc_bitset_ direct_map_pool = ∅
    /\ alloc_bitset_ normal_bucket_pool = ∅
    /\ AddressSpaceInit.UninitForTesting DCHECK_IS_ON
         kReservedAddressSpaceOffsetMask
         {| reserved_address_start_ := start;
            reserved_base_address_ := base_address;
            direct_map_pool_ := 1;
            normal_bucket_pool_ := 2 |}
         (<[1%nat := Some normal_bucket_pool]>
            (<[0%nat := Some direct_map_pool]> (pools_new kNumPools)))
       = Ret (before_Init kReservedAddressSpaceOffsetMask,
              pools_new kNumPools).
Proof.
  intros Hn -> -> -> -> Hdm Hnb -> Hroom Hstart Hend Hpools.
  pose proof (PoolFacts.SP_pos kSuperPageShift shift_range) as HSP.
  pose proof (PoolFacts.SP_pow kSuperPageShift) as HSPpow.
  assert (HA : 0 < 2 ^ n) by (apply Z.pow_pos_nonneg; lia).
  assert (Hmult : 2 ^ n = 2 ^ (n - kSuperPageShift) * SP).
  { rewrite HSPpow, <- Z.pow_add_r by lia. f_equal. lia. }
  assert (Hk : 0 < 2 ^ (n - kSuperPageShift))
    by (apply Z.pow_pos_nonneg; lia).
  set (A := 2 ^ n) in *.
  set (dm := Z.of_nat direct_map_bits * SP) in *.
  set (nb := Z.of_nat normal_bucket_bits * SP) in *.
  assert (Hdmpos : 0 < dm) by (subst dm; nia).
  assert (Hnbpos : 0 < nb) by (subst nb; nia).
  set (base_address := A * ((start + A - 1) / A)).
  assert (Hbase : Align start A = base_address).
  { unfold Pool.Align.
    rewrite wrap64_small by (unfold is_u64; lia).
    pose proof (PoolFacts.land_base_mask n ltac:(lia) (start + A - 1)
                  ltac:(unfold is_u64; lia)) as Hland.
    rewrite (PoolFacts.SP_pow n) in Hland. exact Hland. }
  assert (Hrange : start <= base_address < start + A).
  { subst base_address.
    pose proof (Z.div_mod (start + A - 1) A ltac:(lia)).
    pose proof (Z.mod_pos_bound (start + A - 1) A ltac:(lia)). lia. }
  assert (HmodA : base_address mod A = 0).
  { subst base_address. rewrite Z.mul_comm. apply Z.mod_mul. lia. }
  assert (HmodSP : base_address mod SP = 0).
  { subst base_address. rewrite Hmult.
    replace (2 ^ (n - kSuperPageShift) * SP
             * ((start + 2 ^ (n - kSuperPageShift) * SP - 1)
                / (2 ^ (n - kSuperPageShift) * SP)))
      with (2 ^ (n - kSuperPageShift)
            * ((start + 2 ^ (n - kSuperPageShift) * SP - 1)
               / (2 ^ (n - kSuperPageShift) * SP)) * SP) by lia.
    apply Z.mod_mul. lia. }
  set (direct_map_pool :=
    {| total_bits_ := direct_map_bits;
       address_begin_ := base_address;
       address_end_ := base_address + dm;
       bit_hint_ := 0;
       alloc_bitset_ := ∅ |}).
  set (normal_bucket_pool :=
    {| total_bits_ := normal_bucket_bits;
       address_begin_ := base_address + dm;
       address_end_ := base_address + dm + nb;
       bit_hint_ := 0;
       alloc_bitset_ := ∅ |}).
  exists base_address, direct_map_pool, normal_bucket_pool.
  assert (Hslots : exists k, kNumPools = S (S k)).
  { destruct kNumPools as [|[|k]]; try lia. now exists k. }
  destruct Hslots as [k ->].
  split.
  { unfold AddressSpaceInit.Init, before_Init.
    cbn [reserved_address_start_]. rewrite Hbase.
    fold A.
    pose proof (PoolFacts.land_offset_mask n ltac:(lia) base_address) as Hmask.
    rewrite (PoolFacts.SP_pow n) in Hmask. fold A in Hmask.
    rewrite Hmask, HmodA. unfold CHECK.
    destruct (Z.eqb_spec start 0) as [|_]; [lia|].
    destruct (Z.leb_spec start base_address) as [_|]; [|lia].
    cbn [Z.eqb negb]. rewrite !DCHECK_true. cbn [mbind result_bind].
    rewrite (Add_at_first_free (pools_new (S (S k))) 0 base_address dm
               direct_map_bits).
    2:{ reflexivity. }
    2:{ lia. }
    2:{ exact HmodSP. }
    2:{ reflexivity. }
    2:{ exact Hdm. }
    2:{ lia. }
    cbn [mbind result_bind Nat.eqb negb]. rewrite DCHECK_true.
    cbn [mbind result_bind].
    rewrite !(wrap64_small (base_address + dm)) by (unfold is_u64; lia).
    rewrite (Add_at_first_free _ 1 (base_address + dm) nb normal_bucket_bits).
    2:{ reflexivity. }
    2:{ lia. }
    2:{ subst dm. rewrite Z.mod_add by lia. exact HmodSP. }
    2:{ reflexivity. }
    2:{ exact Hnb. }
    2:{ lia. }
    cbn [mbind result_bind Nat.eqb negb].
    rewrite !wrap64_small by (unfold is_u64; lia).
    destruct (Z.leb_spec (base_address + dm + nb)
                (start + kReservedAddressSpaceSize)) as [_|]; [|lia].
    replace (base_address + (dm + nb)) with (base_address + dm + nb) by lia.
    rewrite Z.eqb_refl, !DCHECK_true. reflexivity. }
  split; [exact Hrange|]. split; [exact HmodA|].
  do 3 (split; [reflexivity|]). split; [cbn; lia|]. split; [lia|].
  do 2 (split; [reflexivity|]).
  unfold AddressSpaceInit.UninitForTesting.
  cbn [reserved_address_start_].
  destruct (Z.eqb_spec start 0) as [|_]; [lia|].
  cbn [negb]. rewrite DCHECK_true. cbn [mbind result_bind].
  unfold ResetForTesting, pools_new. cbn. now rewrite fmap_replicate.
Qed.

End Facts.

(** The theorem on a region of 14 super pages at [0x1000_0020_0000], an
    alignment of 8 super pages, a direct-map pool of 2 super pages and a
    normal-bucket pool of 4. *)
Lemma Init_lays_out_pools_witness :
  exists base_address direct_map_pool normal_bucket_pool,
    AddressSpaceInit.Init Examples.kSuperPageShift Examples.kMaxBits true
      (2 ^ 24) (2 ^ 24 + 6 * Examples.SP)
      (Z.of_nat 2 * kSuperPageSize Examples.kSuperPageShift)
      (Z.of_nat 4 * kSuperPageSize Examples.kSuperPageShift)
      (Z.of_nat 2 * kSuperPageSize Examples.kSuperPageShift
       + Z.of_nat 4 * kSuperPageSize Examples.kSuperPageShift)
      (2 ^ 24 - 1)
      0x100000200000 (before_Init (2 ^ 24 - 1)) (pools_new 2)
    = Ret ({| reserved_address_start_ := 0x100000200000;
              reserved_base_address_ := base_address;
              direct_map_pool_ := 1;
              normal_bucket_pool_ := 2 |},
           <[1%nat := Some normal_bucket_pool]>
             (<[0%nat := Some direct_map_pool]> (pools_new 2)))
    /\ 0x100000200000 <= base_address < 0x100000200000 + 2 ^ 24
    /\ base_address mod 2 ^ 24 = 0
    /\ address_begin_ direct_map_pool = base_address
    /\ address_end_ direct_map_pool
       = base_address + Z.of_nat 2 * kSuperPageSize Examples.kSuperPageShift
    /\ address_begin_ normal_bucket_pool
       = base_address + Z.of_nat 2 * kSuperPageSize Examples.kSuperPageShift
    /\ address_end_ normal_bucket_pool
       = base_address
         + (Z.of_nat 2 * kSuperPageSize Examples.kSuperPageShift
            + Z.of_nat 4 * kSuperPageSize Examples.kSuperPageShift)
    /\ base_address
       + (Z.of_nat 2 * kSuperPageSize Examples.kSuperPageShift
          + Z.of_nat 4 * kSuperPageSize Examples.kSuperPageShift)
       <= 0x100000200000 + (2 ^ 24 + 6 * Examples.SP)
    /\ alloc_bitset_ direct_map_pool = ∅
    /\ alloc_bitset_ normal_bucket_pool = ∅
    /\ AddressSpaceInit.UninitForTesting true (2 ^ 24 - 1)
         {| reserved_address_start_ := 0x100000200000;
            reserved_base_address_ := base_address;
            direct_map_pool_ := 1;
            normal_bucket_pool_ := 2 |}
         (<[1%nat := Some normal_bucket_pool]>
            (<[0%nat := Some direct_map_pool]> (pools_new 2)))
       = Ret (before_Init (2 ^ 24 - 1), pools_new 2).
Proof.
  apply (Init_lays_out_pools Examples.kSuperPageShift Examples.kMaxBits true
           ltac:(unfold Examples.kSuperPageShift; lia) 2
           (2 ^ 24) (2 ^ 24 + 6 * Examples.SP)
           (Z.of_nat 2 * kSuperPageSize Examples.kSuperPageShift)
           (Z.of_nat 4 * kSuperPageSize Examples.kSuperPageShift)
           (Z.of_nat 2 * kSuperPageSize Examples.kSuperPageShift
            + Z.of_nat 4 * kSuperPageSize Examples.kSuperPageShift)
           (2 ^ 24 - 1) 0x100000200000 24 2 4).
  - unfold Examples.kSuperPageShift. lia.
  - reflexivity.
  - reflexivity.
  - reflexivity.
  - reflexivity.
  - unfold Examples.kMaxBits. lia.
  - unfold Examples.kMaxBits. lia.
  - reflexivity.
  - vm_compute. discriminate.
  - reflexivity.
  - reflexivity.
  - lia.
Defined.

End AddressSpaceInitFacts.

(** ** The pools of the cage as address ranges *)

Module AddressRangeFacts.

Import WordFacts AddressSpace AddressSpaceOffsets.

(** The mask test of a pool of [size] bytes at an aligned base address
    accepts the addresses of [base_address, base_address + size). *)
Lemma mask_test_range (size base_address address : Z) :
  IsPowerOfTwo size -> size < modulus -> is_u64 address ->
  base_aligned base_address size ->
  (Z.land address (not64 (wrap64 (size - 1))) =? base_address) = true
  <-> base_address <= address < base_address + size.
Proof.
  intros (n & Hn & ->) Hsize Ha [Hb Hmod].
  assert (Hn64 : n < 64).
  { apply (Z.pow_lt_mono_r_iff 2); [lia | lia | exact Hsize]. }
  assert (Hpos : 0 < 2 ^ n) by (apply Z.pow_pos_nonneg; lia).
  rewrite wrap64_small by (unfold is_u64 in *; lia).
  pose proof (PoolFacts.land_base_mask n ltac:(lia) address Ha) as Hland.
  rewrite (PoolFacts.SP_pow n) in Hland. rewrite Hland, Z.eqb_eq.
  pose proof (Z.div_mod address (2 ^ n) ltac:(lia)) as Hdiv.
  pose proof (Z.mod_pos_bound address (2 ^ n) ltac:(lia)) as Hrem.
  pose proof (Z.div_mod base_address (2 ^ n) ltac:(lia)) as Hbdiv.
  rewrite Hmod, Z.add_0_r in Hbdiv.
  split.
  - intros Heq. lia.
  - intros Hrange. rewrite Hbdiv. f_equal.
    set (q := address / 2 ^ n) in *. set (k := base_address / 2 ^ n) in *.
    nia.
Qed.

Section Facts.

Variable kPoolMaxSize : Z.
Variable USE_BACKUP_REF_PTR : bool.
Variable DCHECK_IS_ON : bool.

(** The two [static_assert]s of partition_address_space.h on the sizes;
    [kPoolMaxSize] is a [size_t]. *)
Hypothesis pool_size_power_of_two : IsPowerOfTwo kPoolMaxSize.
Hypothesis configurable_pool_fits : kConfigurablePoolSize <= kPoolMaxSize.
Hypothesis pool_size_range : kPoolMaxSize < modulus.

Abbreviation IsInNonBRPPool := (AddressSpace.IsInNonBRPPool kPoolMaxSize).
Abbreviation IsInBRPPool := (AddressSpace.IsInBRPPool kPoolMaxSize).
Abbreviation GetPoolAndOffset :=
  (AddressSpace.GetPoolAndOffset kPoolMaxSize USE_BACKUP_REF_PTR DCHECK_IS_ON).
Abbreviation IsManagedByPartitionAlloc :=
  (AddressSpace.IsManagedByPartitionAlloc kPoolMaxSize USE_BACKUP_REF_PTR).
Abbreviation OffsetInBRPPool :=
  (AddressSpaceOffsets.OffsetInBRPPool kPoolMaxSize DCHECK_IS_ON).
Abbreviation cage_aligned := (AddressSpaceOffsets.cage_aligned kPoolMaxSize).

Lemma configurable_size_range : kConfigurablePoolSize < modulus.
Proof. reflexivity. Qed.

Lemma tests_ranges (setup_ : GigaCageSetup) (address : Z) :
  cage_aligned setup_ -> is_u64 address ->
  (IsInNonBRPPool setup_ address = true
   <-> non_brp_pool_base_address_ setup_ <= address
       < non_brp_pool_base_address_ setup_ + kPoolMaxSize)
  /\ (IsInBRPPool setup_ address = true
      <-> brp_pool_base_address_ setup_ <= address
          < brp_pool_base_address_ setup_ + kPoolMaxSize)
  /\ (IsInConfigurablePool setup_ address = true
      <-> configurable_pool_base_address_ setup_ <= address
          < configurable_pool_base_address_ setup_ + kConfigurablePoolSize).
Proof.
  intros (Hn & Hb & Hc) Ha.
  split; [|split].
  - apply mask_test_range; assumption.
  - apply mask_test_range; assumption.
  - apply mask_test_range; try assumption.
    + apply AddressSpaceFacts.configurable_size_power_of_two.
    + apply configurable_size_range.
Qed.

(** X12.  Once the pools are set up, each at a base address that is a
    multiple of its size, the three mask tests are range tests: an address
    passes the test of a pool exactly when it lies between the base address
    of the pool and the base address plus the size of the pool. *)
Theorem pool_tests_are_ranges (setup_ : GigaCageSetup) (address : Z) :
  cage_aligned setup_ -> is_u64 address ->
  (IsInNonBRPPool setup_ address = true
   <-> non_brp_pool_base_address_ setup_ <= address
       < non_brp_pool_base_address_ setup_ + kPoolMaxSize)
  /\ (IsInBRPPool setup_ address = true
      <-> brp_pool_base_address_ setup_ <= address
          < brp_pool_base_address_ setup_ + kPoolMaxSize)
  /\ (IsInConfigurablePool setup_ address = true
      <-> configurable_pool_base_address_ setup_ <= address
          < configurable_pool_base_address_ setup_ + kConfigurablePoolSize).
Proof. exact (tests_ranges setup_ address). Qed.

(** X13.  What [GetPoolAndOffset] returns in a cage whose pools are set up.
    It is the handle of a pool whose range holds the address, and the
    distance of the address from the base address of that pool, which is
    less than the size of the pool; or, in a build without debug checks
    only, and only for an address that none of the tests accepts, where
    [PA_NOTREACHED()] does nothing, it is the handle 0 with the address
    itself. *)
Theorem GetPoolAndOffset_in_range (setup_ : GigaCageSetup)
    (address pool offset_ : Z) :
  cage_aligned setup_ -> is_u64 address ->
  GetPoolAndOffset setup_ address = Ret (pool, offset_) ->
  (0 <= offset_ < kPoolMaxSize
   /\ ((pool = non_brp_pool_ setup_
        /\ address = non_brp_pool_base_address_ setup_ + offset_)
       \/ (pool = brp_pool_ setup_
           /\ USE_BACKUP_REF_PTR = true
           /\ address = brp_pool_base_address_ setup_ + offset_)
       \/ (pool = configurable_pool_ setup_
           /\ offset_ < kConfigurablePoolSize
           /\ address = configurable_pool_base_address_ setup_ + offset_)))
  \/ (DCHECK_IS_ON = false
      /\ IsInNonBRPPool setup_ address = false
      /\ USE_BACKUP_REF_PTR && IsInBRPPool setup_ address = false
      /\ IsInConfigurablePool setup_ address = false
      /\ pool = 0
      /\ offset_ = address).
Proof.
  intros Hcage Ha Hget.
  destruct (tests_ranges setup_ address Hcage Ha) as (Hn & Hb & Hc).
  unfold AddressSpace.GetPoolAndOffset in Hget.
  apply PoolManagerFacts.bind_Ret in Hget as ([] & _ & Hget).
  apply PoolManagerFacts.bind_Ret in Hget as ([pool' base] & Hfind & Hget).
  injection Hget as <- <-.
  destruct (IsInNonBRPPool setup_ address) eqn:Hin1.
  { injection Hfind as <- <-. apply proj1 in Hn. specialize (Hn eq_refl).
    rewrite wrap64_small by (unfold is_u64 in *; lia).
    left. split; [lia|]. left. split; [reflexivity | lia]. }
  destruct (USE_BACKUP_REF_PTR && IsInBRPPool setup_ address) eqn:Hin2.
  { apply andb_true_iff in Hin2 as [Huse Hin2].
    injection Hfind as <- <-. apply proj1 in Hb. specialize (Hb Hin2).
    rewrite wrap64_small by (unfold is_u64 in *; lia).
    left. split; [lia|]. right. left. repeat split; [exact Huse | lia]. }
  destruct (IsInConfigurablePool setup_ address) eqn:Hin3.
  { injection Hfind as <- <-. apply proj1 in Hc. specialize (Hc eq_refl).
    rewrite wrap64_small by (unfold is_u64 in *; lia).
    left. split; [lia|]. right. right. repeat split; lia. }
  unfold DCHECK in Hfind. destruct DCHECK_IS_ON; [discriminate|].
  injection Hfind as <- <-. right.
  rewrite Z.sub_0_r, wrap64_small by exact Ha.
  repeat split; reflexivity.
Qed.

(** X14.  For an address of the BRP pool, in a build with [BackupRefPtr]
    and a cage whose two main pools are at different base addresses,
    [OffsetInBRPPool] and [GetPoolAndOffset] agree: both return the
    distance of the address from the base address of the BRP pool, and
    [GetPoolAndOffset] returns the handle of the BRP pool with it.  In a
    build with debug checks [OffsetInBRPPool] stops for every address that
    is not in the BRP pool. *)
Theorem OffsetInBRPPool_agrees (setup_ : GigaCageSetup) (address : Z) :
  cage_aligned setup_ -> is_u64 address ->
  non_brp_pool_base_address_ setup_ <> brp_pool_base_address_ setup_ ->
  (IsInBRPPool setup_ address = true ->
   OffsetInBRPPool setup_ address
   = Ret (address - brp_pool_base_address_ setup_)
   /\ AddressSpace.GetPoolAndOffset kPoolMaxSize true DCHECK_IS_ON setup_
        address
      = Ret (brp_pool_ setup_, address - brp_pool_base_address_ setup_))
  /\ (IsInBRPPool setup_ address = false ->
      AddressSpaceOffsets.OffsetInBRPPool kPoolMaxSize true setup_ address
      = Abort).
Proof.
  intros Hcage Ha Hdiff. split.
  - intros Hin.
    destruct (tests_ranges setup_ address Hcage Ha) as (_ & Hb & _).
    apply proj1 in Hb. specialize (Hb Hin).
    assert (Hout : IsInNonBRPPool setup_ address = false).
    { apply Z.eqb_neq. intros Heq. apply Z.eqb_eq in Hin.
      unfold kNonBRPPoolBaseMask, kNonBRPPoolOffsetMask, kNonBRPPoolSize in Heq.
      unfold kBRPPoolBaseMask, kBRPPoolOffsetMask, kBRPPoolSize in Hin.
      congruence. }
    unfold AddressSpaceOffsets.OffsetInBRPPool,
      AddressSpace.GetPoolAndOffset, DCHECK.
    rewrite Hin, Hout. cbn [negb andb orb]. rewrite !andb_false_r.
    cbn [mbind result_bind].
    rewrite wrap64_small by (unfold is_u64 in *; lia).
    split; reflexivity.
  - intros Hout. unfold AddressSpaceOffsets.OffsetInBRPPool, DCHECK.
    now rewrite Hout.
Qed.

End Facts.

Lemma example_cage_aligned :
  cage_aligned Examples.kPoolMaxSize MoreExamples.setup_with_configurable.
Proof.
  unfold cage_aligned, base_aligned, is_u64, modulus. cbn.
  repeat split; (reflexivity || discriminate).
Qed.

Lemma example_pool_size : IsPowerOfTwo Examples.kPoolMaxSize.
Proof. exists 34. split; [lia | reflexivity]. Qed.

(** The theorem on the cage with the three pools, for the address
    [2^35 + 0x4000]. *)
Lemma pool_tests_are_ranges_witness :
  (AddressSpace.IsInNonBRPPool Examples.kPoolMaxSize
     MoreExamples.setup_with_configurable (2 ^ 35 + 0x4000) = true
   <-> 2 ^ 34 <= 2 ^ 35 + 0x4000 < 2 ^ 34 + Examples.kPoolMaxSize)
  /\ (AddressSpace.IsInBRPPool Examples.kPoolMaxSize
        MoreExamples.setup_with_configurable (2 ^ 35 + 0x4000) = true
      <-> 2 ^ 35 <= 2 ^ 35 + 0x4000 < 2 ^ 35 + Examples.kPoolMaxSize)
  /\ (IsInConfigurablePool MoreExamples.setup_with_configurable
        (2 ^ 35 + 0x4000) = true
      <-> 2 ^ 36 <= 2 ^ 35 + 0x4000 < 2 ^ 36 + kConfigurablePoolSize).
Proof.
  apply (pool_tests_are_ranges Examples.kPoolMaxSize example_pool_size
           ltac:(reflexivity) MoreExamples.setup_with_configurable
           (2 ^ 35 + 0x4000)).
  - exact example_cage_aligned.
  - unfold is_u64, modulus. lia.
Defined.

(** The theorem on the cage with the three pools, for the address
    [2^35 + 0x4000]. *)
Lemma GetPoolAndOffset_in_range_witness :
  (0 <= 0x4000 < Examples.kPoolMaxSize
   /\ ((2 = non_brp_pool_ MoreExamples.setup_with_configurable
        /\ 2 ^ 35 + 0x4000
           = non_brp_pool_base_address_ MoreExamples.setup_with_configurable
             + 0x4000)
       \/ (2 = brp_pool_ MoreExamples.setup_with_configurable
           /\ true = true
           /\ 2 ^ 35 + 0x4000
              = brp_pool_base_address_ MoreExamples.setup_with_configurable
                + 0x4000)
       \/ (2 = configurable_pool_ MoreExamples.setup_with_configurable
           /\ 0x4000 < kConfigurablePoolSize
           /\ 2 ^ 35 + 0x4000
              = configurable_pool_base_address_
                  MoreExamples.setup_with_configurable + 0x4000)))
  \/ (true = false
      /\ AddressSpace.IsInNonBRPPool Examples.kPoolMaxSize
           MoreExamples.setup_with_configurable (2 ^ 35 + 0x4000) = false
      /\ true
         && AddressSpace.IsInBRPPool Examples.kPoolMaxSize
              MoreExamples.setup_with_configurable (2 ^ 35 + 0x4000) = false
      /\ IsInConfigurablePool MoreExamples.setup_with_configurable
           (2 ^ 35 + 0x4000) = false
      /\ 2 = 0
      /\ 0x4000 = 2 ^ 35 + 0x4000).
Proof.
  apply (GetPoolAndOffset_in_range Examples.kPoolMaxSize true true
           example_pool_size ltac:(discriminate) ltac:(reflexivity)
           MoreExamples.setup_with_configurable (2 ^ 35 + 0x4000) 2 0x4000).
  - exact example_cage_aligned.
  - unfold is_u64, modulus. lia.
  - vm_compute. reflexivity.
Defined.

(** The theorem on the same address. *)
Lemma OffsetInBRPPool_agrees_witness :
  (AddressSpace.IsInBRPPool Examples.kPoolMaxSize
     MoreExamples.setup_with_configurable (2 ^ 35 + 0x4000) = true ->
   AddressSpaceOffsets.OffsetInBRPPool Examples.kPoolMaxSize true
     MoreExamples.setup_with_configurable (2 ^ 35 + 0x4000)
   = Ret (2 ^ 35 + 0x4000
          - brp_pool_base_address_ MoreExamples.setup_with_configurable)
   /\ AddressSpace.GetPoolAndOffset Examples.kPoolMaxSize true true
        MoreExamples.setup_with_configurable (2 ^ 35 + 0x4000)
      = Ret (brp_pool_ MoreExamples.setup_with_configurable,
             2 ^ 35 + 0x4000
             - brp_pool_base_address_ MoreExamples.setup_with_configurable))
  /\ (AddressSpace.IsInBRPPool Examples.kPoolMaxSize
        MoreExamples.setup_with_configurable (2 ^ 35 + 0x4000) = false ->
      AddressSpaceOffsets.OffsetInBRPPool Examples.kPoolMaxSize true
        MoreExamples.setup_with_configurable (2 ^ 35 + 0x4000)
      = Abort).
Proof.
  apply (OffsetInBRPPool_agrees Examples.kPoolMaxSize true
           example_pool_size ltac:(reflexivity)
           MoreExamples.setup_with_configurable (2 ^ 35 + 0x4000)).
  - exact example_cage_aligned.
  - unfold is_u64, modulus. lia.
  - discriminate.
Defined.

End AddressRangeFacts.

(** ** Writing and walking freelist links *)

Module FreelistOpsFacts.

Import Constants AddressSpace Freelist FreelistOps.

Section Facts.

Variable kPoolMaxSize : Z.
Variable USE_BACKUP_REF_PTR : bool.
Variable DCHECK_IS_ON : bool.
Variable kPtrTagMask : Z.
Variable kSuperPageShift : Z.
Variable PartitionPageSize : Z.
Variable setup_ : GigaCageSetup.

Abbreviation pool_info_of :=
  (pool_info_of kPoolMaxSize USE_BACKUP_REF_PTR kPtrTagMask setup_).
Abbreviation EncodeToOffset :=
  (EncodeToOffset kPoolMaxSize USE_BACKUP_REF_PTR DCHECK_IS_ON kPtrTagMask
     setup_).
Abbreviation IsWellFormed :=
  (IsWellFormed kPtrTagMask kSuperPageShift PartitionPageSize).
Abbreviation GetNextInternal :=
  (GetNextInternal kPoolMaxSize USE_BACKUP_REF_PTR DCHECK_IS_ON kPtrTagMask
     kSuperPageShift PartitionPageSize setup_).
Abbreviation GetNext :=
  (GetNext kPoolMaxSize USE_BACKUP_REF_PTR DCHECK_IS_ON kPtrTagMask
     kSuperPageShift PartitionPageSize setup_).
Abbreviation SetNext :=
  (FreelistOps.SetNext kPoolMaxSize USE_BACKUP_REF_PTR DCHECK_IS_ON
     kPtrTagMask kSuperPageShift setup_).
Abbreviation CheckFreeList :=
  (FreelistOps.CheckFreeList kPoolMaxSize USE_BACKUP_REF_PTR DCHECK_IS_ON
     kPtrTagMask kSuperPageShift PartitionPageSize setup_).
Abbreviation super_page_of :=
  (FreelistOps.super_page_of kPtrTagMask kSuperPageShift).
Abbreviation SlotStartPtr2Addr := (Freelist.SlotStartPtr2Addr kPtrTagMask).

(** A pointer that [GetNextInternal] returns and that is not null passed
    every test of [IsWellFormed]. *)
Lemma returned_is_well_formed (crash_on_corruption for_thread_cache : bool)
    (here : Z) (e : PoolOffsetFreelistEntry) (slot_size next : Z) :
  GetNextInternal crash_on_corruption for_thread_cache here e slot_size
  = Ret (returned next) ->
  next <> 0 ->
  exists info,
    pool_info_of here = Ret info
    /\ next = Z.lor (base info) (next_ e)
    /\ IsWellFormed for_thread_cache info here e next = true.
Proof.
  unfold Freelist.GetNextInternal. intros Hget Hnz.
  destruct (IsEncodedNextPtrZero e).
  { injection Hget as <-. contradiction. }
  fold pool_info_of in Hget.
  destruct (pool_info_of here) as [info| |]; try discriminate.
  cbn [mbind result_bind] in Hget. unfold Freelist.DecodeFromOffset in Hget.
  destruct (DCHECK DCHECK_IS_ON _) as [[]| |] in Hget; try discriminate.
  cbn [mbind result_bind] in Hget.
  destruct (IsWellFormed for_thread_cache info here e
              (Z.lor (base info) (next_ e))) eqn:Hwf;
    cbn [negb] in Hget.
  - injection Hget as <-. now exists info.
  - destruct crash_on_corruption; [discriminate|].
    injection Hget as <-. contradiction.
Qed.

(** X15.  [GetNextInternal] does not let a link be followed to any
    location.  A pointer that it returns and that is not null is the base
    of the pool of the entry or-ed with [next_]; [next_] has no bit in the
    base mask of that pool and [shadow_] is its complement; the pointer is
    not in the metadata partition page of its super page; and, unless the
    entry is in the thread cache, it is in the super page of the entry. *)
Theorem GetNext_stays_in_super_page
    (crash_on_corruption for_thread_cache : bool)
    (here : Z) (e : PoolOffsetFreelistEntry) (slot_size next : Z) :
  GetNextInternal crash_on_corruption for_thread_cache here e slot_size
  = Ret (returned next) ->
  next <> 0 ->
  exists info,
    pool_info_of here = Ret info
    /\ next = Z.lor (base info) (next_ e)
    /\ Z.land (next_ e) (base_mask info) = 0
    /\ shadow_ e = not64 (next_ e)
    /\ PartitionPageSize
       <= Z.land (SlotStartPtr2Addr next) (kSuperPageOffsetMask kSuperPageShift)
    /\ (for_thread_cache = false -> super_page_of here = super_page_of next).
Proof.
  intros Hget Hnz.
  destruct (returned_is_well_formed _ _ _ _ _ _ Hget Hnz)
    as (info & Hinfo & Hnext & Hwf).
  exists info. split; [exact Hinfo|]. split; [exact Hnext|].
  unfold Freelist.IsWellFormed in Hwf. destruct for_thread_cache.
  - apply andb_true_iff in Hwf as [Hwf Hmeta].
    apply andb_true_iff in Hwf as [Hbit Hsh].
    apply Z.eqb_eq in Hbit, Hsh. apply Z.leb_le in Hmeta.
    split; [exact Hbit|]. split; [now rewrite Hsh|].
    split; [exact Hmeta | discriminate].
  - apply andb_true_iff in Hwf as [Hwf Hmeta].
    apply andb_true_iff in Hwf as [Hwf Hsame].
    apply andb_true_iff in Hwf as [Hbit Hsh].
    apply Z.eqb_eq in Hbit, Hsh, Hsame. apply Z.leb_le in Hmeta.
    split; [exact Hbit|]. split; [now rewrite Hsh|].
    split; [exact Hmeta|]. intros _. exact Hsame.
Qed.

(** The walk of [CheckFreeList] from an entry of the super page [sp]. *)
Lemma CheckFreeList_walk (fuel : nat) (memory : Z -> PoolOffsetFreelistEntry)
    (entry slot_size sp : Z) (visited visited' : list Z) (outcome : get_next) :
  Forall (fun a => super_page_of a = sp) visited ->
  (entry <> 0 -> super_page_of entry = sp) ->
  CheckFreeList fuel memory entry slot_size visited
  = Ret (visited', outcome) ->
  Forall (fun a => super_page_of a = sp) visited'.
Proof.
  revert entry visited.
  induction fuel as [|fuel IH]; intros entry visited Hvisited Hentry Hwalk;
    [discriminate|].
  cbn [FreelistOps.CheckFreeList] in Hwalk.
  destruct (Z.eqb_spec entry 0) as [->|Hnz].
  { injection Hwalk as <- <-. exact Hvisited. }
  fold GetNext in Hwalk.
  destruct (GetNext entry (memory entry) slot_size) as [[next|s f g]| |]
    eqn:Hget; try discriminate; cbn [mbind result_bind] in Hwalk.
  - apply IH in Hwalk; [exact Hwalk| |].
    + apply Forall_app. split; [exact Hvisited|].
      constructor; [now apply Hentry | constructor].
    + intros Hnext.
      destruct (returned_is_well_formed _ _ _ _ _ _ Hget Hnext)
        as (info & _ & _ & Hwf).
      unfold Freelist.IsWellFormed in Hwf.
      apply andb_true_iff in Hwf as [Hwf _].
      apply andb_true_iff in Hwf as [_ Hsame].
      apply Z.eqb_eq in Hsame. unfold FreelistOps.super_page_of.
      rewrite <- Hsame. now apply Hentry.
  - injection Hwalk as <- <-. apply Forall_app. split; [exact Hvisited|].
    constructor; [now apply Hentry | constructor].
Qed.

(** X16.  [CheckFreeList] never leaves the super page of the entry it
    starts from: whenever the loop ends, at [nullptr] or in
    [FreelistCorruptionDetected], every entry that it visited is in the
    super page of the first one. *)
Theorem CheckFreeList_stays_in_super_page (fuel : nat)
    (memory : Z -> PoolOffsetFreelistEntry) (head slot_size : Z)
    (visited : list Z) (outcome : get_next) :
  CheckFreeList fuel memory head slot_size [] = Ret (visited, outcome) ->
  Forall (fun a => super_page_of a = super_page_of head) visited.
Proof.
  intros Hwalk.
  apply (CheckFreeList_walk fuel memory head slot_size (super_page_of head)
           [] visited outcome); [constructor | reflexivity | exact Hwalk].
Qed.

(** An entry whose link is not [0] and whose shadow is not the complement
    of the link is reported, or read as [nullptr]. *)
Lemma mismatch_detected (crash_on_corruption for_thread_cache : bool)
    (here : Z) (e : PoolOffsetFreelistEntry) (info : PoolInfo)
    (slot_size : Z) :
  next_ e <> 0 ->
  pool_info_of here = Ret info ->
  not64 (next_ e) <> shadow_ e ->
  GetNextInternal crash_on_corruption for_thread_cache here e slot_size
  = Ret (if crash_on_corruption
         then FreelistCorruptionDetected slot_size (next_ e) (shadow_ e)
         else returned 0).
Proof.
  intros Hnz Hinfo Hne.
  unfold Freelist.GetNextInternal, IsEncodedNextPtrZero, kNullptrOffset.
  destruct (Z.eqb_spec (next_ e) 0) as [|_]; [contradiction|].
  fold pool_info_of. rewrite Hinfo. cbn [mbind result_bind].
  unfold Freelist.DecodeFromOffset, kNullptrOffset.
  destruct (Z.eqb_spec (next_ e) 0) as [|_]; [contradiction|].
  unfold DCHECK. rewrite andb_false_r. cbn [mbind result_bind negb].
  rewrite (FreelistFacts.shadow_mismatch kPtrTagMask kSuperPageShift
             PartitionPageSize) by exact Hne.
  cbn [negb]. destruct crash_on_corruption; reflexivity.
Qed.

(** X17.  Take an entry whose shadow is the complement of its link, as
    every constructor and [SetNext] write it, and overwrite [next_] alone
    with any other word that is not [0].  The next [GetNextInternal] does
    not follow the new link: it calls [FreelistCorruptionDetected] when
    [crash_on_corruption] is set, and returns [nullptr] when it is not. *)
Theorem overwritten_link_detected
    (crash_on_corruption for_thread_cache : bool)
    (here : Z) (e : PoolOffsetFreelistEntry) (info : PoolInfo)
    (overwritten slot_size : Z) :
  is_u64 (next_ e) -> shadow_ e = not64 (next_ e) ->
  is_u64 overwritten -> overwritten <> 0 -> overwritten <> next_ e ->
  pool_info_of here = Ret info ->
  GetNextInternal crash_on_corruption for_thread_cache here
    {| next_ := overwritten; shadow_ := shadow_ e |} slot_size
  = Ret (if crash_on_corruption
         then FreelistCorruptionDetected slot_size overwritten (shadow_ e)
         else returned 0).
Proof.
  intros Hu Hshadow Ho Hnz Hne Hinfo.
  apply (mismatch_detected crash_on_corruption for_thread_cache here
           {| next_ := overwritten; shadow_ := shadow_ e |} info slot_size);
    [exact Hnz | exact Hinfo |].
  cbn [next_ shadow_]. rewrite Hshadow. intros Heq.
  apply not64_inj in Heq; [contradiction | exact Ho | exact Hu].
Qed.

(** The link that is written for a pointer without tag bits has no bit in
    the base mask of the pool. *)
Lemma untagged_offset_in_pool (next mask : Z) :
  Z.land next kPtrTagMask = 0 ->
  Z.land (Z.land next (Z.lor kPtrTagMask (not64 mask))) mask = 0.
Proof.
  intros Htag. apply Z.bits_inj'. intros i Hi.
  assert (Hbit : Z.testbit next i && Z.testbit kPtrTagMask i = false)
    by now rewrite <- Z.land_spec, Htag, Z.bits_0.
  rewrite !Z.land_spec, Z.lor_spec, not64_testbit, Z.bits_0 by exact Hi.
  destruct (Z.testbit next i), (Z.testbit kPtrTagMask i), (Z.testbit mask i),
    (i <? 64); cbn in *; congruence.
Qed.

(** Writing the link to [next] into the entry at [here], and reading it
    back, when both are in the same pool and [next] is not the base of the
    pool. *)
Lemma written_link_read (here next : Z) (info_here info_next : PoolInfo) :
  is_u64 next -> next <> 0 -> Z.land next kPtrTagMask = 0 ->
  pool_info_of here = Ret info_here ->
  pool_info_of next = Ret info_next ->
  base info_here = base info_next ->
  base_mask info_here = base_mask info_next ->
  next <> base info_next ->
  exists encoded,
    EncodeToOffset next = Ret encoded
    /\ encoded <> 0
    /\ Z.lor (base info_here) encoded = next
    /\ Z.land encoded (base_mask info_here) = 0.
Proof.
  intros Hu Hnz Htag Hhere Hnext Hbase Hmask Hnb.
  exists (Z.land next (Z.lor kPtrTagMask (not64 (base_mask info_next)))).
  pose proof (FreelistFacts.decode_value kPoolMaxSize USE_BACKUP_REF_PTR
                kPtrTagMask setup_ next info_next Hu Hnext) as Hdec.
  split.
  { now apply (FreelistFacts.encode_value kPoolMaxSize USE_BACKUP_REF_PTR
                 DCHECK_IS_ON kPtrTagMask setup_). }
  split.
  { intros Hzero. rewrite Hzero, Z.lor_0_r in Hdec. congruence. }
  split; [now rewrite Hbase|].
  rewrite Hmask. now apply untagged_offset_in_pool.
Qed.

(** X18.  [SetNext] then [GetNext] is a round trip.  Take a pointer
    [next] without tag bits that is not null, in the same pool and the same
    super page as the entry at [here], outside the metadata partition page
    and not the base of the pool.  [SetNext] writes an entry whose shadow
    is the complement of its link, and [GetNext] on that entry returns
    [next]. *)
Theorem SetNext_then_GetNext (here next slot_size : Z)
    (info_here info_next : PoolInfo) :
  is_u64 next -> next <> 0 -> Z.land next kPtrTagMask = 0 ->
  pool_info_of here = Ret info_here ->
  pool_info_of next = Ret info_next ->
  base info_here = base info_next ->
  base_mask info_here = base_mask info_next ->
  next <> base info_next ->
  super_page_of here = super_page_of next ->
  PartitionPageSize
  <= Z.land (SlotStartPtr2Addr next) (kSuperPageOffsetMask kSuperPageShift) ->
  exists e,
    SetNext here next = Ret (written e)
    /\ shadow_ e = not64 (next_ e)
    /\ GetNext here e slot_size = Ret (returned next).
Proof.
  intros Hu Hnz Htag Hhere Hnext Hbase Hmask Hnb Hsame Hmeta.
  destruct (written_link_read here next info_here info_next Hu Hnz Htag
              Hhere Hnext Hbase Hmask Hnb)
    as (encoded & Henc & Hez & Hdec & Hbits).
  exists {| next_ := encoded; shadow_ := not64 encoded |}.
  unfold FreelistOps.super_page_of in Hsame. split.
  { unfold FreelistOps.SetNext. rewrite Hsame, Z.eqb_refl.
    cbn [negb]. rewrite !andb_false_r. fold EncodeToOffset.
    now rewrite Henc. }
  split; [reflexivity|].
  unfold Freelist.GetNext, Freelist.GetNextInternal, IsEncodedNextPtrZero,
    kNullptrOffset. cbn [next_].
  destruct (Z.eqb_spec encoded 0) as [|_]; [contradiction|].
  fold pool_info_of. rewrite Hhere. cbn [mbind result_bind].
  unfold Freelist.DecodeFromOffset, kNullptrOffset.
  destruct (Z.eqb_spec encoded 0) as [|_]; [contradiction|].
  unfold DCHECK. rewrite andb_false_r. cbn [mbind result_bind negb].
  rewrite Hdec. unfold Freelist.IsWellFormed. cbn [next_ shadow_].
  rewrite Hbits, Hsame, !Z.eqb_refl.
  destruct (Z.leb_spec PartitionPageSize
              (Z.land (SlotStartPtr2Addr next)
                 (kSuperPageOffsetMask kSuperPageShift))); [|lia].
  reflexivity.
Qed.

(** X19.  A link into another super page does not survive.  For a pointer
    [next] that is not null, carries no tag bits, lies in the same pool as
    the entry at [here] and is not the base of that pool, but is in another
    super page than the entry,
    [SetNext] in a build with debug checks calls
    [FreelistCorruptionDetected]; in a build without them it writes the
    link, and the next [GetNext] on the entry calls
    [FreelistCorruptionDetected]. *)
Theorem cross_super_page_link_detected (here next slot_size : Z)
    (info_here info_next : PoolInfo) :
  is_u64 next -> next <> 0 -> Z.land next kPtrTagMask = 0 ->
  pool_info_of here = Ret info_here ->
  pool_info_of next = Ret info_next ->
  base info_here = base info_next ->
  base_mask info_here = base_mask info_next ->
  next <> base info_next ->
  super_page_of here <> super_page_of next ->
  FreelistOps.SetNext kPoolMaxSize USE_BACKUP_REF_PTR true kPtrTagMask
    kSuperPageShift setup_ here next
  = Ret SetNextCorruptionDetected
  /\ exists e,
       FreelistOps.SetNext kPoolMaxSize USE_BACKUP_REF_PTR false kPtrTagMask
         kSuperPageShift setup_ here next
       = Ret (written e)
       /\ GetNext here e slot_size
          = Ret (FreelistCorruptionDetected slot_size (next_ e) (shadow_ e)).
Proof.
  intros Hu Hnz Htag Hhere Hnext Hbase Hmask Hnb Hdiff.
  unfold FreelistOps.super_page_of in Hdiff.
  split.
  { unfold FreelistOps.SetNext.
    destruct (Z.eqb_spec next 0) as [|_]; [contradiction|].
    destruct (Z.eqb_spec
                (Z.land (SlotStartPtr2Addr here)
                   (kSuperPageBaseMask kSuperPageShift))
                (Z.land (SlotStartPtr2Addr next)
                   (kSuperPageBaseMask kSuperPageShift))) as [|_];
      [contradiction | reflexivity]. }
  destruct (written_link_read here next info_here info_next Hu Hnz Htag
              Hhere Hnext Hbase Hmask Hnb)
    as (encoded & Henc & Hez & Hdec & Hbits).
  exists {| next_ := encoded; shadow_ := not64 encoded |}. split.
  { unfold FreelistOps.SetNext. cbn [andb].
    assert (Heq :
      Freelist.EncodeToOffset kPoolMaxSize USE_BACKUP_REF_PTR false
        kPtrTagMask setup_ next = Ret encoded).
    { revert Henc. unfold Freelist.EncodeToOffset.
      destruct (next =? 0); [tauto|].
      destruct (Freelist.pool_info_of _ _ _ _ next) as [i| |];
        cbn [mbind result_bind]; try discriminate.
      unfold DCHECK. cbn [andb].
      destruct (DCHECK_IS_ON && _); cbn [mbind result_bind];
        [discriminate | tauto]. }
    now rewrite Heq. }
  unfold Freelist.GetNext, Freelist.GetNextInternal, IsEncodedNextPtrZero,
    kNullptrOffset. cbn [next_ shadow_].
  destruct (Z.eqb_spec encoded 0) as [|_]; [contradiction|].
  fold pool_info_of. rewrite Hhere. cbn [mbind result_bind].
  unfold Freelist.DecodeFromOffset, kNullptrOffset.
  destruct (Z.eqb_spec encoded 0) as [|_]; [contradiction|].
  unfold DCHECK. rewrite andb_false_r. cbn [mbind result_bind negb].
  rewrite Hdec. unfold Freelist.IsWellFormed. cbn [next_ shadow_].
  destruct (Z.eqb_spec
              (Z.land (SlotStartPtr2Addr here)
                 (kSuperPageBaseMask kSuperPageShift))
              (Z.land (SlotStartPtr2Addr next)
                 (kSuperPageBaseMask kSuperPageShift))) as [|_];
    [contradiction|].
  now rewrite andb_false_r, andb_false_l.
Qed.

End Facts.

(** The theorem on the entry at [2^34 + 0x8000] and the link to
    [2^34 + 0x4000]. *)
Lemma GetNext_stays_in_super_page_witness :
  exists info,
    Examples.pool_info_of Examples.entry_here = Ret info
    /\ 2 ^ 34 + 0x4000 = Z.lor (base info) (next_ Examples.entry_to_0x4000)
    /\ Z.land (next_ Examples.entry_to_0x4000) (base_mask info) = 0
    /\ shadow_ Examples.entry_to_0x4000
       = not64 (next_ Examples.entry_to_0x4000)
    /\ Examples.PartitionPageSize
       <= Z.land (SlotStartPtr2Addr Examples.kPtrTagMask (2 ^ 34 + 0x4000))
            (kSuperPageOffsetMask Examples.kSuperPageShift)
    /\ (false = false ->
        super_page_of Examples.kPtrTagMask Examples.kSuperPageShift
          Examples.entry_here
        = super_page_of Examples.kPtrTagMask Examples.kSuperPageShift
            (2 ^ 34 + 0x4000)).
Proof.
  apply (GetNext_stays_in_super_page Examples.kPoolMaxSize true true
           Examples.kPtrTagMask Examples.kSuperPageShift
           Examples.PartitionPageSize Examples.setup_after_init
           true false Examples.entry_here Examples.entry_to_0x4000 32
           (2 ^ 34 + 0x4000)).
  - vm_compute. reflexivity.
  - discriminate.
Defined.

(** The theorem on the list of two entries. *)
Lemma CheckFreeList_stays_in_super_page_witness :
  Forall
    (fun a =>
       super_page_of Examples.kPtrTagMask Examples.kSuperPageShift a
       = super_page_of Examples.kPtrTagMask Examples.kSuperPageShift
           Examples.entry_here)
    [Examples.entry_here; 2 ^ 34 + 0x4000].
Proof.
  apply (CheckFreeList_stays_in_super_page Examples.kPoolMaxSize true true
           Examples.kPtrTagMask Examples.kSuperPageShift
           Examples.PartitionPageSize Examples.setup_after_init
           3 MoreExamples.two_entry_memory Examples.entry_here 32
           [Examples.entry_here; 2 ^ 34 + 0x4000] (returned 0)).
  vm_compute. reflexivity.
Defined.

(** The theorem on the same entry, whose link [0x4000] is overwritten with
    [0x5000]. *)
Lemma overwritten_link_detected_witness :
  Examples.GetNextInternal true true false Examples.entry_here
    {| next_ := 0x5000; shadow_ := shadow_ Examples.entry_to_0x4000 |} 32
  = Ret (FreelistCorruptionDetected 32 0x5000
           (shadow_ Examples.entry_to_0x4000)).
Proof.
  apply (overwritten_link_detected Examples.kPoolMaxSize true true
           Examples.kPtrTagMask Examples.kSuperPageShift
           Examples.PartitionPageSize Examples.setup_after_init
           true false Examples.entry_here Examples.entry_to_0x4000
           (MoreExamples.info_at 0x8000) 0x5000 32).
  - unfold is_u64, modulus. cbn. lia.
  - reflexivity.
  - unfold is_u64, modulus. lia.
  - discriminate.
  - discriminate.
  - vm_compute. reflexivity.
Defined.

(** The theorem on the entry at [2^34 + 0x8000] and the pointer
    [2^34 + 0x4000]. *)
Lemma SetNext_then_GetNext_witness :
  exists e,
    FreelistOps.SetNext Examples.kPoolMaxSize true true Examples.kPtrTagMask
      Examples.kSuperPageShift Examples.setup_after_init
      Examples.entry_here (2 ^ 34 + 0x4000)
    = Ret (written e)
    /\ shadow_ e = not64 (next_ e)
    /\ Freelist.GetNext Examples.kPoolMaxSize true true Examples.kPtrTagMask
         Examples.kSuperPageShift Examples.PartitionPageSize
         Examples.setup_after_init Examples.entry_here e 32
       = Ret (returned (2 ^ 34 + 0x4000)).
Proof.
  apply (SetNext_then_GetNext Examples.kPoolMaxSize true true
           Examples.kPtrTagMask Examples.kSuperPageShift
           Examples.PartitionPageSize Examples.setup_after_init
           Examples.entry_here (2 ^ 34 + 0x4000) 32
           (MoreExamples.info_at 0x8000) (MoreExamples.info_at 0x4000)).
  - unfold is_u64, modulus. lia.
  - discriminate.
  - reflexivity.
  - vm_compute. reflexivity.
  - vm_compute. reflexivity.
  - reflexivity.
  - reflexivity.
  - discriminate.
  - reflexivity.
  - vm_compute. discriminate.
Defined.

(** The theorem on the same entry and a pointer into the next super
    page. *)
Lemma cross_super_page_link_detected_witness :
  FreelistOps.SetNext Examples.kPoolMaxSize true true Examples.kPtrTagMask
    Examples.kSuperPageShift Examples.setup_after_init
    Examples.entry_here (2 ^ 34 + 2 ^ 21 + 0x4000)
  = Ret SetNextCorruptionDetected
  /\ exists e,
       FreelistOps.SetNext Examples.kPoolMaxSize true false
         Examples.kPtrTagMask Examples.kSuperPageShift
         Examples.setup_after_init Examples.entry_here
         (2 ^ 34 + 2 ^ 21 + 0x4000)
       = Ret (written e)
       /\ Freelist.GetNext Examples.kPoolMaxSize true true
            Examples.kPtrTagMask Examples.kSuperPageShift
            Examples.PartitionPageSize Examples.setup_after_init
            Examples.entry_here e 32
          = Ret (FreelistCorruptionDetected 32 (next_ e) (shadow_ e)).
Proof.
  apply (cross_super_page_link_detected Examples.kPoolMaxSize true true
           Examples.kPtrTagMask Examples.kSuperPageShift
           Examples.PartitionPageSize Examples.setup_after_init
           Examples.entry_here (2 ^ 34 + 2 ^ 21 + 0x4000) 32
           (MoreExamples.info_at 0x8000) (MoreExamples.info_at (2 ^ 21 + 0x4000))).
  - unfold is_u64, modulus. lia.
  - discriminate.
  - reflexivity.
  - vm_compute. reflexivity.
  - vm_compute. reflexivity.
  - reflexivity.
  - reflexivity.
  - discriminate.
  - vm_compute. discriminate.
Defined.

End FreelistOpsFacts.

(** ** The life of a branch *)

Module SlqLifecycleFacts.

Import Slq SlqLifecycle.

Section Facts.

Variable Rng : Type.
Variable RandUint32 : Rng -> Z * Rng.
Variable allocator_root_ : PartitionRoot.
Variable ObjectToSlotStartUnchecked : Z -> Z.
Variable DCHECKS_ARE_ON : bool.
Variable ENABLE_BACKUP_REF_PTR_SUPPORT : bool.
Variable kFreedByte : Z.

Abbreviation State := (Slq.State Rng).
Abbreviation PurgeInternal :=
  (Slq.PurgeInternal Rng allocator_root_ DCHECKS_ARE_ON).
Abbreviation QuarantineEpilogue :=
  (Slq.QuarantineEpilogue Rng allocator_root_ ENABLE_BACKUP_REF_PTR_SUPPORT
     kFreedByte).
Abbreviation push_and_shuffle := (Slq.push_and_shuffle Rng RandUint32).
Abbreviation Quarantine :=
  (Slq.Quarantine Rng RandUint32 allocator_root_ DCHECKS_ARE_ON
     ENABLE_BACKUP_REF_PTR_SUPPORT kFreedByte).
Abbreviation Purge := (Slq.Purge Rng allocator_root_ DCHECKS_ARE_ON).
Abbreviation branch_wf := (Slq.branch_wf Rng allocator_root_ DCHECKS_ARE_ON).
Abbreviation slot_checked := (Slq.slot_checked allocator_root_ DCHECKS_ARE_ON).
Abbreviation free_of := (Slq.free_of allocator_root_).
Abbreviation PA_DCHECK := (DCHECK DCHECKS_ARE_ON).
Abbreviation epilogue_events :=
  (SlqLifecycle.epilogue_events Rng allocator_root_
     ENABLE_BACKUP_REF_PTR_SUPPORT kFreedByte).
Abbreviation root_tracks := (SlqLifecycle.root_tracks Rng).
Abbreviation same_settings := (SlqLifecycle.same_settings Rng).
Abbreviation Configure :=
  (SlqLifecycle.Configure Rng allocator_root_ DCHECKS_ARE_ON).
Abbreviation IsQuarantinedForTesting :=
  (SlqLifecycle.IsQuarantinedForTesting Rng ObjectToSlotStartUnchecked).
Abbreviation ScopedQuarantineExclusion_enter :=
  (SlqLifecycle.ScopedQuarantineExclusion_enter Rng DCHECKS_ARE_ON).
Abbreviation ScopedQuarantineExclusion_exit :=
  (SlqLifecycle.ScopedQuarantineExclusion_exit Rng).

Lemma push_and_shuffle_settings (st : State) (slot_start usable_size : Z) :
  same_settings st (push_and_shuffle st slot_start usable_size).
Proof.
  unfold Slq.push_and_shuffle, SlqLifecycle.same_settings. cbn.
  destruct (RandUint32 (random_ (branch st))) as [r random]. cbn.
  repeat split; reflexivity.
Qed.

Lemma QuarantineEpilogue_events (st : State)
    (object slot_span slot_start usable_size : Z) :
  events (QuarantineEpilogue st object slot_span slot_start usable_size)
  = events st ++ epilogue_events st object slot_span slot_start usable_size.
Proof.
  unfold Slq.QuarantineEpilogue, SlqLifecycle.epilogue_events.
  destruct (enable_zapping_ (branch st)),
    (ENABLE_BACKUP_REF_PTR_SUPPORT && brp_enabled allocator_root_);
    cbn; rewrite ?app_nil_r, <- ?app_assoc; reflexivity.
Qed.

(** What a call of [Quarantine] that inserts its entry does, on a
    thread-bound and on a shared branch: it frees the entries of a suffix
    [popped] of the list, from the back, and puts the new entry on the
    list. *)
Lemma Quarantine_inserts (thread_bound : bool) (st : State)
    (object slot_span slot_start usable_size : Z) :
  branch_wf st ->
  0 <= usable_size ->
  enable_quarantine_ (branch st) = true ->
  pause_quarantine_ (branch st) = 0 ->
  IsDirectMappedBucket allocator_root_ slot_span = false ->
  (DCHECKS_ARE_ON = true ->
   usable_size = GetSlotUsableSize allocator_root_ slot_span) ->
  usable_size <= branch_capacity_in_bytes_ (branch st) ->
  exists kept popped st',
    slots_ (branch st) = kept ++ popped
    /\ Quarantine thread_bound st object slot_span slot_start usable_size
       = Ret st'
    /\ slots_ (branch st')
       ≡ₚ kept ++ [{| slot_start := slot_start; usable_size := usable_size |}]
    /\ branch_size_in_bytes_ (branch st')
       = wrap64 (sum_sizes kept + usable_size)
    /\ same_settings st st'
    /\ root_ st'
       = root_add_entry
           (root_sub_freed (root_ st) (sum_sizes popped)
              (Z.of_nat (length popped)))
           usable_size
    /\ events st'
       = events st ++ (free_of <$> (Slq.slot_start <$> rev popped))
         ++ epilogue_events st object slot_span slot_start usable_size.
Proof.
  intros Hwf Hus Hen Hpause Hdm Hdcheck Hcap.
  pose proof Hwf as (Hsize & Hnonneg & Hu & Hcapu & Hchecked).
  assert (Hcheck :
    PA_DCHECK (usable_size =? GetSlotUsableSize allocator_root_ slot_span)
    = Ret ()).
  { apply SlqFacts.PA_DCHECK_holds. intros Hon. apply Z.eqb_eq.
    now apply Hdcheck. }
  destruct thread_bound.
  - unfold Slq.Quarantine, Slq.Quarantine_thread_bound.
    rewrite Hen, Hpause, Hdm, Hcheck. cbn [negb orb Z.eqb mbind result_bind].
    destruct (Z.ltb_spec (branch_capacity_in_bytes_ (branch st)) usable_size);
      [lia|].
    destruct (SlqFacts.PurgeInternal_spec Rng allocator_root_ DCHECKS_ARE_ON
                (branch_capacity_in_bytes_ (branch st) - usable_size) st Hwf
                ltac:(lia))
      as (kept & popped & Hsplit & Hkept & Heq).
    rewrite Heq. cbn [mbind result_bind].
    exists kept, popped. eexists. split; [exact Hsplit|].
    split; [reflexivity|]. unfold SlqLifecycle.same_settings.
    match goal with
    | |- context [Slq.push_and_shuffle _ _ ?st1 _ _] =>
      destruct (SlqFacts.push_and_shuffle_spec Rng RandUint32 st1 slot_start
                  usable_size)
        as (Hperm & Hsz & Hcp & Hroot & Hev);
      pose proof (push_and_shuffle_settings st1 slot_start usable_size)
        as (Hs1 & Hs2 & Hs3 & Hs4 & Hs5)
    end.
    rewrite QuarantineEpilogue_events.
    match goal with
    | |- context [Slq.QuarantineEpilogue _ _ _ _ ?st2 ?o ?sp ?ss ?us] =>
      destruct (SlqFacts.QuarantineEpilogue_branch Rng allocator_root_
                  ENABLE_BACKUP_REF_PTR_SUPPORT kFreedByte st2 o sp ss us)
        as [-> ->]
    end.
    unfold SlqLifecycle.epilogue_events, SlqLifecycle.same_settings.
    cbn [branch root_ events with_root with_slots slots_
         branch_size_in_bytes_ branch_capacity_in_bytes_ enable_quarantine_
         enable_zapping_ leak_on_destruction_ pause_quarantine_] in *.
    rewrite Hperm, Hsz, Hroot, Hev, Hs1, Hs2, Hs3, Hs4, Hs5, <- app_assoc.
    repeat split; reflexivity.
  - unfold Slq.Quarantine, Slq.Quarantine_shared.
    rewrite Hen, Hpause, Hdm, Hcheck. cbn [negb orb Z.eqb mbind result_bind].
    destruct (Z.ltb_spec (branch_capacity_in_bytes_ (branch st)) usable_size);
      [lia|].
    unfold Slq.PurgeInternalWithDefferedFree.
    destruct (SlqFacts.PurgeInternalWithDefferedFree_loop_spec Rng
                allocator_root_ DCHECKS_ARE_ON
                (S (length (slots_ (branch (with_working_memory Rng st false)))))
                (branch_capacity_in_bytes_ (branch st) - usable_size)
                (with_working_memory Rng st false) [] 0)
      as (kept & popped & Hsplit & Hkept & Heq).
    { unfold Slq.branch_wf. cbn. repeat split; try assumption;
        unfold is_u64 in *; lia. }
    { lia. }
    { lia. }
    { cbn [length]. unfold kMaxFreeTimesPerPurge. lia. }
    cbn [branch with_working_memory branch_capacity_in_bytes_] in Heq.
    cbn [branch with_working_memory branch_capacity_in_bytes_].
    rewrite Heq. cbn [mbind result_bind app].
    rewrite SlqFacts.BatchFree_spec.
    2:{ cbn in Hsplit. rewrite Hsplit in Hchecked.
        apply Forall_app in Hchecked as [_ Hpopped].
        apply Forall_fmap. apply Forall_forall. intros s Hs.
        apply (proj1 (Forall_forall _ _) Hpopped).
        apply list_elem_of_In. apply list_elem_of_In in Hs.
        now apply in_rev. }
    cbn [mbind result_bind].
    exists kept, popped. eexists. split; [exact Hsplit|].
    split; [reflexivity|]. unfold SlqLifecycle.same_settings.
    rewrite QuarantineEpilogue_events.
    match goal with
    | |- context [Slq.QuarantineEpilogue _ _ _ _ ?st2 ?o ?sp ?ss ?us] =>
      destruct (SlqFacts.QuarantineEpilogue_branch Rng allocator_root_
                  ENABLE_BACKUP_REF_PTR_SUPPORT kFreedByte st2 o sp ss us)
        as [-> ->]
    end.
    match goal with
    | |- context [Slq.push_and_shuffle _ _ ?st1 _ _] =>
      destruct (SlqFacts.push_and_shuffle_spec Rng RandUint32 st1 slot_start
                  usable_size)
        as (Hperm & Hsz & Hcp & Hroot & Hev);
      pose proof (push_and_shuffle_settings st1 slot_start usable_size)
        as (Hs1 & Hs2 & Hs3 & Hs4 & Hs5)
    end.
    unfold SlqLifecycle.epilogue_events, SlqLifecycle.same_settings.
    cbn [branch root_ events with_root with_slots with_working_memory slots_
         branch_size_in_bytes_ branch_capacity_in_bytes_ enable_quarantine_
         enable_zapping_ leak_on_destruction_ pause_quarantine_] in *.
    rewrite Hperm, Hsz, Hroot, Hev, Hs1, Hs2, Hs3, Hs4, Hs5, <- app_assoc.
    rewrite Z.add_0_l, length_fmap, length_rev.
    repeat split; reflexivity.
Qed.

(** X20.  [Quarantine] neither loses nor duplicates an entry.  A call that
    inserts its entry, on a thread-bound or on a shared branch, frees the
    entries of a suffix of the list, each of them once and from the back,
    and keeps the others with the new entry; the object of the call is not
    freed by it, and the calls of the epilogue, the zap among them, come
    after the frees. *)
Theorem Quarantine_conserves_entries (thread_bound : bool) (st : State)
    (object slot_span slot_start usable_size : Z) :
  branch_wf st ->
  0 <= usable_size ->
  enable_quarantine_ (branch st) = true ->
  pause_quarantine_ (branch st) = 0 ->
  IsDirectMappedBucket allocator_root_ slot_span = false ->
  (DCHECKS_ARE_ON = true ->
   usable_size = GetSlotUsableSize allocator_root_ slot_span) ->
  usable_size <= branch_capacity_in_bytes_ (branch st) ->
  exists kept popped st',
    slots_ (branch st) = kept ++ popped
    /\ Quarantine thread_bound st object slot_span slot_start usable_size
       = Ret st'
    /\ slots_ (branch st')
       ≡ₚ kept ++ [{| slot_start := slot_start; usable_size := usable_size |}]
    /\ events st'
       = events st ++ (free_of <$> (Slq.slot_start <$> rev popped))
         ++ epilogue_events st object slot_span slot_start usable_size.
Proof.
  intros Hwf Hus Hen Hpause Hdm Hdcheck Hcap.
  destruct (Quarantine_inserts thread_bound st object slot_span slot_start
              usable_size Hwf Hus Hen Hpause Hdm Hdcheck Hcap)
    as (kept & popped & st' & Hsplit & Heq & Hperm & _ & _ & _ & Hev).
  exists kept, popped, st'. repeat split; assumption.
Qed.

(** X21.  The counters of the root follow the branch.  When the root counts
    the entries and the bytes of this branch, it still does after a call of
    [Quarantine] that inserts its entry, whatever the call took out, and
    the two cumulative counters went up by one entry and by its bytes. *)
Theorem root_follows_branch (thread_bound : bool) (st : State)
    (object slot_span slot_start usable_size : Z) :
  branch_wf st ->
  0 <= usable_size ->
  enable_quarantine_ (branch st) = true ->
  pause_quarantine_ (branch st) = 0 ->
  IsDirectMappedBucket allocator_root_ slot_span = false ->
  (DCHECKS_ARE_ON = true ->
   usable_size = GetSlotUsableSize allocator_root_ slot_span) ->
  usable_size <= branch_capacity_in_bytes_ (branch st) ->
  root_tracks st ->
  Z.of_nat (length (slots_ (branch st))) + 1 < modulus ->
  exists st',
    Quarantine thread_bound st object slot_span slot_start usable_size
    = Ret st'
    /\ root_tracks st'
    /\ cumulative_count_ (root_ st')
       = wrap64 (cumulative_count_ (root_ st) + 1)
    /\ cumulative_size_in_bytes_ (root_ st')
       = wrap64 (cumulative_size_in_bytes_ (root_ st) + usable_size)
    /\ quarantine_miss_count_ (root_ st')
       = quarantine_miss_count_ (root_ st).
Proof.
  intros Hwf Hus Hen Hpause Hdm Hdcheck Hcap [Hcount Hbytes] Hlen.
  destruct (Quarantine_inserts thread_bound st object slot_span slot_start
              usable_size Hwf Hus Hen Hpause Hdm Hdcheck Hcap)
    as (kept & popped & st' & Hsplit & Heq & Hperm & Hsz & _ & Hroot & _).
  pose proof Hwf as (Hsize & Hnonneg & Hu & _ & _).
  exists st'. split; [exact Heq|]. unfold SlqLifecycle.root_tracks.
  rewrite Hroot. cbn. rewrite Hsplit in *.
  apply Forall_app in Hnonneg as [Hk Hp].
  pose proof (SlqFacts.sum_sizes_nonneg kept Hk) as Hk0.
  pose proof (SlqFacts.sum_sizes_nonneg popped Hp) as Hp0.
  rewrite SlqFacts.sum_sizes_app in Hsize. rewrite length_app in Hcount, Hlen.
  split; [|repeat split; reflexivity].
  split.
  - apply Permutation_length in Hperm. rewrite Hperm, length_app.
    cbn [length]. rewrite Hcount.
    rewrite (wrap64_small (_ - _)) by (unfold is_u64; lia).
    rewrite wrap64_small by (unfold is_u64; lia). lia.
  - rewrite Hsz, Hbytes, Hsize.
    rewrite (wrap64_small (_ - _)) by (unfold is_u64 in *; lia).
    f_equal. lia.
Qed.

(** X22.  Inside a [ScopedQuarantineExclusion] the branch quarantines
    nothing.  Between the constructor and the destructor of the scope
    [Quarantine] is a plain [FreeNoHooksImmediate], and after the destructor
    the branch and the root are as they were before the constructor.  A
    scope is opened on a thread-bound branch, or on a branch that is not
    enabled. *)
Theorem exclusion_scope_frees_at_once (thread_bound : bool) (st : State)
    (object slot_span slot_start usable_size : Z) :
  0 <= pause_quarantine_ (branch st) ->
  (enable_quarantine_ (branch st) = true -> thread_bound = true) ->
  exists st1 st2,
    ScopedQuarantineExclusion_enter thread_bound st = Ret st1
    /\ Quarantine thread_bound st1 object slot_span slot_start usable_size
       = Ret st2
    /\ ScopedQuarantineExclusion_exit st2
       = free_immediate Rng st object slot_span slot_start.
Proof.
  intros Hpause Hbound.
  exists (with_pause Rng st (pause_quarantine_ (branch st) + 1)).
  exists (free_immediate Rng
            (with_pause Rng st (pause_quarantine_ (branch st) + 1))
            object slot_span slot_start).
  split.
  { unfold SlqLifecycle.ScopedQuarantineExclusion_enter.
    rewrite SlqFacts.PA_DCHECK_holds; [reflexivity|]. intros _.
    destruct (enable_quarantine_ (branch st)); [|reflexivity].
    now rewrite Hbound. }
  split.
  { unfold Slq.Quarantine, Slq.Quarantine_thread_bound, Slq.Quarantine_shared.
    destruct thread_bound;
      cbn [branch with_pause pause_quarantine_ enable_quarantine_];
      (destruct (Z.eqb_spec (pause_quarantine_ (branch st) + 1) 0) as [|_];
       [lia|]);
      destruct (enable_quarantine_ (branch st)); reflexivity. }
  destruct st as [[] root evs]. unfold
    SlqLifecycle.ScopedQuarantineExclusion_exit, free_immediate, emit,
    with_pause.
  cbn. do 2 f_equal. lia.
Qed.

(** X23.  What [Purge] leaves behind has no bytes.  On every well-formed
    branch [Purge] returns; it frees the entries of a suffix of the list,
    each of them once and from the back; every entry that it keeps has a
    usable size of zero, and [branch_size_in_bytes_] is [0] afterwards. *)
Theorem Purge_leaves_only_empty_entries (st : State) :
  branch_wf st ->
  exists kept popped st',
    slots_ (branch st) = kept ++ popped
    /\ Purge st = Ret st'
    /\ slots_ (branch st') = kept
    /\ Forall (fun s => usable_size s = 0) kept
    /\ branch_size_in_bytes_ (branch st') = 0
    /\ events st'
       = events st ++ (free_of <$> (Slq.slot_start <$> rev popped)).
Proof.
  intros Hwf. unfold Slq.Purge.
  destruct (SlqFacts.PurgeInternal_spec Rng allocator_root_ DCHECKS_ARE_ON 0
              st Hwf ltac:(lia))
    as (kept & popped & Hsplit & Hkept & Heq).
  pose proof Hwf as (_ & Hnonneg & _).
  rewrite Hsplit in Hnonneg. apply Forall_app in Hnonneg as [Hk _].
  assert (Hzero : Forall (fun s => usable_size s = 0) kept).
  { clear Hsplit Heq. revert Hk Hkept.
    induction kept as [|s kept IH]; intros Hk Hkept; [constructor|].
    apply Forall_cons in Hk as [Hs Hk].
    cbn [sum_sizes foldr] in Hkept. fold (sum_sizes kept) in Hkept.
    pose proof (SlqFacts.sum_sizes_nonneg kept Hk).
    constructor; [lia | apply IH; [exact Hk | lia]]. }
  exists kept, popped. eexists. split; [exact Hsplit|].
  split; [exact Heq|]. cbn. split; [reflexivity|]. split; [exact Hzero|].
  split; [|reflexivity].
  pose proof (SlqFacts.sum_sizes_nonneg kept Hk). lia.
Qed.

(** The loop of [PurgeInternal] does not pop the entry at the front of the
    list when that entry alone is within the target. *)
Lemma PurgeInternal_loop_keeps_front (fuel : nat) (target : Z) (st st' : State)
    (s : QuarantineSlot) (rest : list QuarantineSlot)
    (freed_count freed_size freed_count' freed_size' : Z) :
  branch_wf st ->
  slots_ (branch st) = s :: rest ->
  usable_size s <= target ->
  Slq.PurgeInternal_loop Rng allocator_root_ DCHECKS_ARE_ON fuel target st
    freed_count freed_size
  = Ret (st', freed_count', freed_size') ->
  exists rest', slots_ (branch st') = s :: rest'.
Proof.
  revert st rest freed_count freed_size.
  induction fuel as [|fuel IH]; intros st rest fc fs Hwf Hslots Hfront Hloop;
    [discriminate|].
  pose proof Hwf as (Hsize & Hnonneg & Hu & Hcap & Hchecked).
  cbn [Slq.PurgeInternal_loop] in Hloop.
  destruct (Z.ltb_spec target (branch_size_in_bytes_ (branch st)))
    as [Hover|Hfits].
  2:{ injection Hloop as <- _ _. now exists rest. }
  rewrite Hslots in *.
  destruct rest as [|x r _] using rev_ind.
  { cbn in Hsize. lia. }
  change (s :: r ++ [x]) with ((s :: r) ++ [x]) in *.
  rewrite SlqFacts.pop_back_snoc in Hloop.
  apply Forall_app in Hchecked as [Hchecked Hx].
  apply Forall_cons in Hx as [Hx _].
  apply Forall_app in Hnonneg as [Hnonneg Hxs].
  apply Forall_cons in Hxs as [Hxs _].
  destruct (SlqFacts.free_checks_pass allocator_root_ DCHECKS_ARE_ON _ Hx)
    as [Hc1 Hc2].
  rewrite Hc1, Hc2 in Hloop. cbn [mbind result_bind] in Hloop.
  rewrite SlqFacts.sum_sizes_app in Hsize.
  cbn [sum_sizes foldr] in Hsize. fold (sum_sizes r) in Hsize.
  pose proof (SlqFacts.sum_sizes_nonneg (s :: r) Hnonneg) as Hl.
  cbn [sum_sizes foldr] in Hl. fold (sum_sizes r) in Hl.
  apply IH with (rest := r) in Hloop; [exact Hloop| |reflexivity|exact Hfront].
  unfold Slq.branch_wf. cbn.
  fold (sum_sizes r).
  rewrite wrap64_small by (unfold is_u64 in *; lia).
  split; [lia|]. split; [exact Hnonneg|].
  split; [unfold is_u64 in *; lia|]. split; [exact Hcap | exact Hchecked].
Qed.

(** X24.  [Configure] purges and installs.  On a branch that is not paused,
    whose entries all have a usable size that is not zero, it returns: an
    enabled branch was emptied, each of its entries freed once, from the
    back of the list; the four settings are those of the configuration; and
    the working memory is there exactly for a shared branch that is
    enabled. *)
Theorem Configure_purges_and_installs (thread_bound : bool) (st : State)
    (config : SchedulerLoopQuarantineConfig) :
  branch_wf st ->
  Forall (fun s => 0 < usable_size s) (slots_ (branch st)) ->
  pause_quarantine_ (branch st) = 0 ->
  exists st',
    Configure thread_bound st true true config = Ret st'
    /\ slots_ (branch st')
       = (if enable_quarantine_ (branch st) then [] else slots_ (branch st))
    /\ events st'
       = events st
         ++ (if enable_quarantine_ (branch st)
             then free_of <$> (Slq.slot_start <$> rev (slots_ (branch st)))
             else [])
    /\ enable_quarantine_ (branch st') = enable_quarantine config
    /\ enable_zapping_ (branch st') = enable_zapping config
    /\ leak_on_destruction_ (branch st') = leak_on_destruction config
    /\ branch_capacity_in_bytes_ (branch st')
       = branch_capacity_in_bytes config
    /\ to_be_freed_working_memory_ (branch st')
       = enable_quarantine config && negb thread_bound.
Proof.
  intros Hwf Hpos Hpause. unfold SlqLifecycle.Configure.
  rewrite Hpause. cbn [Z.eqb CHECK mbind result_bind].
  replace (if thread_bound then Ret () else Ret ()) with (Ret () : result unit)
    by now destruct thread_bound.
  cbn [mbind result_bind].
  destruct (enable_quarantine_ (branch st)) eqn:Hen.
  2:{ eexists. split; [reflexivity|]. cbn. rewrite app_nil_r.
      repeat split; reflexivity. }
  destruct (SlqFacts.PurgeInternal_spec Rng allocator_root_ DCHECKS_ARE_ON 0
              st Hwf ltac:(lia))
    as (kept & popped & Hsplit & Hkept & Heq).
  assert (Hnil : kept = []).
  { destruct kept as [|s kept]; [reflexivity|].
    rewrite Hsplit in Hpos. apply Forall_app in Hpos as [Hpos _].
    pose proof (SlqFacts.sum_sizes_pos (s :: kept) Hpos ltac:(discriminate)).
    lia. }
  subst kept. cbn [app] in Hsplit. subst popped.
  rewrite Heq. cbn [mbind result_bind]. cbn.
  eexists. split; [reflexivity|]. cbn. repeat split; reflexivity.
Qed.

(** X25.  When [Configure] stops.  It stops on a branch that is paused,
    and it stops on an enabled branch whose entry at the front of the list
    has a usable size of zero: the purge leaves that entry, and
    [PA_CHECK(slots_.empty())] fails. *)
Theorem Configure_stops (thread_bound : bool) (st : State)
    (root_matches tcache_matches : bool)
    (config : SchedulerLoopQuarantineConfig) :
  branch_wf st ->
  (pause_quarantine_ (branch st) <> 0 ->
   Configure thread_bound st root_matches tcache_matches config = Abort)
  /\ (forall s rest,
        enable_quarantine_ (branch st) = true ->
        slots_ (branch st) = s :: rest ->
        usable_size s = 0 ->
        Configure thread_bound st root_matches tcache_matches config = Abort).
Proof.
  intros Hwf. split.
  - intros Hpause. unfold SlqLifecycle.Configure.
    destruct (Z.eqb_spec (pause_quarantine_ (branch st)) 0) as [|_];
      [contradiction | reflexivity].
  - intros s rest Hen Hslots Hzero. unfold SlqLifecycle.Configure.
    destruct (CHECK (pause_quarantine_ (branch st) =? 0)) as [[]| |] eqn:Hc1;
      [|reflexivity|].
    2:{ unfold CHECK in Hc1. destruct (_ =? 0); discriminate. }
    cbn [mbind result_bind].
    destruct root_matches; [|reflexivity]. cbn [CHECK mbind result_bind].
    assert (Hc3 :
      (if thread_bound then CHECK tcache_matches else Ret ())
      = Ret () \/
      (if thread_bound then CHECK tcache_matches else Ret ()) = Abort).
    { destruct thread_bound; [destruct tcache_matches|]; cbn;
        [left | right | left]; reflexivity. }
    destruct Hc3 as [-> | ->]; [|reflexivity].
    cbn [mbind result_bind]. rewrite Hen.
    destruct (SlqFacts.PurgeInternal_spec Rng allocator_root_ DCHECKS_ARE_ON 0
                st Hwf (Z.le_refl 0))
      as (kept & popped & Hsplit & Hkept & Heq).
    rewrite Heq. cbn [mbind result_bind].
    cbn [branch with_root with_slots slots_].
    unfold Slq.PurgeInternal in Heq.
    destruct (Slq.PurgeInternal_loop Rng allocator_root_ DCHECKS_ARE_ON _ 0 st
                0 0) as [[[st1 fc] fs]| |] eqn:Hloop; try discriminate.
    cbn [mbind result_bind] in Heq.
    apply (PurgeInternal_loop_keeps_front _ _ _ _ s rest) in Hloop;
      [|exact Hwf|exact Hslots|now rewrite Hzero].
    destruct Hloop as [rest' Hfront].
    assert (Hk : kept = s :: rest').
    { rewrite <- Hfront.
      apply (f_equal (fun r => match r with
                               | Ret x => slots_ (branch x)
                               | _ => []
                               end)) in Heq.
      cbn in Heq. now rewrite Heq. }
    rewrite Hk. rewrite bool_decide_false by discriminate. reflexivity.
Qed.

(** X26.  An object that [Quarantine] inserted is found by
    [IsQuarantinedForTesting], on a thread-bound and on a shared branch,
    when [ObjectToSlotStartUnchecked] gives the slot start that the call
    was made with. *)
Theorem inserted_object_is_quarantined (thread_bound : bool) (st : State)
    (object slot_span slot_start usable_size : Z) :
  branch_wf st ->
  0 <= usable_size ->
  enable_quarantine_ (branch st) = true ->
  pause_quarantine_ (branch st) = 0 ->
  IsDirectMappedBucket allocator_root_ slot_span = false ->
  (DCHECKS_ARE_ON = true ->
   usable_size = GetSlotUsableSize allocator_root_ slot_span) ->
  usable_size <= branch_capacity_in_bytes_ (branch st) ->
  ObjectToSlotStartUnchecked object = slot_start ->
  exists st',
    Quarantine thread_bound st object slot_span slot_start usable_size
    = Ret st'
    /\ IsQuarantinedForTesting st' object = true.
Proof.
  intros Hwf Hus Hen Hpause Hdm Hdcheck Hcap Hobject.
  destruct (Quarantine_inserts thread_bound st object slot_span slot_start
              usable_size Hwf Hus Hen Hpause Hdm Hdcheck Hcap)
    as (kept & popped & st' & _ & Heq & Hperm & _).
  exists st'. split; [exact Heq|].
  unfold SlqLifecycle.IsQuarantinedForTesting. rewrite Hobject.
  apply existsb_exists.
  exists {| slot_start := slot_start; usable_size := usable_size |}.
  split; [|apply Z.eqb_refl].
  apply list_elem_of_In. rewrite Hperm. apply elem_of_app. right.
  apply list_elem_of_singleton. reflexivity.
Qed.

End Facts.

Lemma two_slots_wf (capacity : Z) :
  is_u64 capacity ->
  branch_wf Z Examples.allocator_root true
    (Examples.branch_state capacity Examples.two_slots).
Proof.
  intros Hcap. apply SlqFacts.example_branch_wf.
  - exact Hcap.
  - unfold is_u64, modulus. cbn. lia.
  - repeat constructor; cbn; lia.
  - repeat constructor; cbn; lia.
Qed.

(** The theorem on a shared branch of 128 bytes that holds two entries of
    64 bytes. *)
Lemma Quarantine_conserves_entries_witness :
  exists kept popped st',
    slots_ (branch (Examples.branch_state 128 Examples.two_slots))
    = kept ++ popped
    /\ Examples.Quarantine false
         (Examples.branch_state 128 Examples.two_slots) (2 ^ 15) 64 (2 ^ 15) 64
       = Ret st'
    /\ slots_ (branch st')
       ≡ₚ kept ++ [{| slot_start := 2 ^ 15; usable_size := 64 |}]
    /\ events st'
       = events (Examples.branch_state 128 Examples.two_slots)
         ++ (free_of Examples.allocator_root <$> (slot_start <$> rev popped))
         ++ epilogue_events Z Examples.allocator_root false 0xCD
              (Examples.branch_state 128 Examples.two_slots)
              (2 ^ 15) 64 (2 ^ 15) 64.
Proof.
  apply (Quarantine_conserves_entries Z Examples.RandUint32
           Examples.allocator_root true false 0xCD false
           (Examples.branch_state 128 Examples.two_slots)
           (2 ^ 15) 64 (2 ^ 15) 64).
  - apply two_slots_wf. unfold is_u64, modulus. lia.
  - lia.
  - reflexivity.
  - reflexivity.
  - reflexivity.
  - reflexivity.
  - cbn. lia.
Defined.

(** The theorem on the same branch, thread-bound. *)
Lemma root_follows_branch_witness :
  exists st',
    Examples.Quarantine true
      (Examples.branch_state 128 Examples.two_slots) (2 ^ 15) 64 (2 ^ 15) 64
    = Ret st'
    /\ root_tracks Z st'
    /\ cumulative_count_ (root_ st')
       = wrap64
           (cumulative_count_
              (root_ (Examples.branch_state 128 Examples.two_slots)) + 1)
    /\ cumulative_size_in_bytes_ (root_ st')
       = wrap64
           (cumulative_size_in_bytes_
              (root_ (Examples.branch_state 128 Examples.two_slots)) + 64)
    /\ quarantine_miss_count_ (root_ st')
       = quarantine_miss_count_
           (root_ (Examples.branch_state 128 Examples.two_slots)).
Proof.
  apply (root_follows_branch Z Examples.RandUint32
           Examples.allocator_root true false 0xCD true
           (Examples.branch_state 128 Examples.two_slots)
           (2 ^ 15) 64 (2 ^ 15) 64).
  - apply two_slots_wf. unfold is_u64, modulus. lia.
  - lia.
  - reflexivity.
  - reflexivity.
  - reflexivity.
  - reflexivity.
  - cbn. lia.
  - split; reflexivity.
  - cbn. unfold modulus. lia.
Defined.

(** The theorem on the same branch, thread-bound. *)
Lemma exclusion_scope_frees_at_once_witness :
  exists st1 st2,
    ScopedQuarantineExclusion_enter Z true true
      (Examples.branch_state 128 Examples.two_slots) = Ret st1
    /\ Examples.Quarantine true st1 (2 ^ 15) 64 (2 ^ 15) 64 = Ret st2
    /\ ScopedQuarantineExclusion_exit Z st2
       = free_immediate Z (Examples.branch_state 128 Examples.two_slots)
           (2 ^ 15) 64 (2 ^ 15).
Proof.
  apply (exclusion_scope_frees_at_once Z Examples.RandUint32
           Examples.allocator_root true false 0xCD true
           (Examples.branch_state 128 Examples.two_slots)
           (2 ^ 15) 64 (2 ^ 15) 64).
  - cbn. lia.
  - reflexivity.
Defined.

(** The theorem on a branch whose first entry has a usable size of zero
    and whose second has 64 bytes. *)
Lemma Purge_leaves_only_empty_entries_witness :
  exists kept popped st',
    slots_
      (branch
         (Examples.branch_state 128
            [Examples.zero_size_slot;
             {| slot_start := 2 ^ 15; usable_size := 64 |}]))
    = kept ++ popped
    /\ Examples.Purge
         (Examples.branch_state 128
            [Examples.zero_size_slot;
             {| slot_start := 2 ^ 15; usable_size := 64 |}])
       = Ret st'
    /\ slots_ (branch st') = kept
    /\ Forall (fun s => usable_size s = 0) kept
    /\ branch_size_in_bytes_ (branch st') = 0
    /\ events st'
       = events
           (Examples.branch_state 128
              [Examples.zero_size_slot;
               {| slot_start := 2 ^ 15; usable_size := 64 |}])
         ++ (free_of Examples.allocator_root <$> (slot_start <$> rev popped)).
Proof.
  apply (Purge_leaves_only_empty_entries Z Examples.allocator_root true
           (Examples.branch_state 128
              [Examples.zero_size_slot;
               {| slot_start := 2 ^ 15; usable_size := 64 |}])).
  apply SlqFacts.example_branch_wf.
  - unfold is_u64, modulus. lia.
  - unfold is_u64, modulus. cbn. lia.
  - repeat constructor; cbn; lia.
  - repeat constructor; cbn; lia.
Defined.

(** The theorem on a shared branch that holds two entries of 64 bytes, and
    a configuration that turns zapping on. *)
Lemma Configure_purges_and_installs_witness :
  exists st',
    Configure Z Examples.allocator_root true false
      (Examples.branch_state 128 Examples.two_slots) true true
      {| branch_capacity_in_bytes := 256; leak_on_destruction := false;
         enable_quarantine := true; enable_zapping := true |}
    = Ret st'
    /\ slots_ (branch st')
       = (if enable_quarantine_
               (branch (Examples.branch_state 128 Examples.two_slots))
          then []
          else slots_ (branch (Examples.branch_state 128 Examples.two_slots)))
    /\ events st'
       = events (Examples.branch_state 128 Examples.two_slots)
         ++ (if enable_quarantine_
                  (branch (Examples.branch_state 128 Examples.two_slots))
             then free_of Examples.allocator_root
                  <$> (slot_start
                       <$> rev
                             (slots_
                                (branch
                                   (Examples.branch_state 128
                                      Examples.two_slots))))
             else [])
    /\ enable_quarantine_ (branch st') = true
    /\ enable_zapping_ (branch st') = true
    /\ leak_on_destruction_ (branch st') = false
    /\ branch_capacity_in_bytes_ (branch st') = 256
    /\ to_be_freed_working_memory_ (branch st') = true && negb false.
Proof.
  apply (Configure_purges_and_installs Z Examples.allocator_root true false
           (Examples.branch_state 128 Examples.two_slots)
           {| branch_capacity_in_bytes := 256; leak_on_destruction := false;
              enable_quarantine := true; enable_zapping := true |}).
  - apply two_slots_wf. unfold is_u64, modulus. lia.
  - repeat constructor; cbn; lia.
  - reflexivity.
Defined.

(** The theorem on a branch that holds one entry, whose usable size is
    zero. *)
Lemma Configure_stops_witness :
  (pause_quarantine_
     (branch (Examples.branch_state 128 [Examples.zero_size_slot])) <> 0 ->
   Configure Z Examples.allocator_root true true
     (Examples.branch_state 128 [Examples.zero_size_slot]) true true
     {| branch_capacity_in_bytes := 256; leak_on_destruction := false;
        enable_quarantine := true; enable_zapping := true |}
   = Abort)
  /\ (forall s rest,
        enable_quarantine_
          (branch (Examples.branch_state 128 [Examples.zero_size_slot]))
        = true ->
        slots_ (branch (Examples.branch_state 128 [Examples.zero_size_slot]))
        = s :: rest ->
        usable_size s = 0 ->
        Configure Z Examples.allocator_root true true
          (Examples.branch_state 128 [Examples.zero_size_slot]) true true
          {| branch_capacity_in_bytes := 256; leak_on_destruction := false;
             enable_quarantine := true; enable_zapping := true |}
        = Abort).
Proof.
  apply (Configure_stops Z Examples.allocator_root true true
           (Examples.branch_state 128 [Examples.zero_size_slot]) true true
           {| branch_capacity_in_bytes := 256; leak_on_destruction := false;
              enable_quarantine := true; enable_zapping := true |}).
  apply SlqFacts.example_branch_wf.
  - unfold is_u64, modulus. lia.
  - unfold is_u64, modulus. cbn. lia.
  - repeat constructor; cbn; lia.
  - repeat constructor; cbn; lia.
Defined.

(** The theorem on a shared branch, for an allocator whose objects start
    at their slot start. *)
Lemma inserted_object_is_quarantined_witness :
  exists st',
    Examples.Quarantine false
      (Examples.branch_state 128 Examples.two_slots) (2 ^ 15) 64 (2 ^ 15) 64
    = Ret st'
    /\ IsQuarantinedForTesting Z (fun object => object) st' (2 ^ 15) = true.
Proof.
  apply (inserted_object_is_quarantined Z Examples.RandUint32
           Examples.allocator_root (fun object => object) true false 0xCD
           false (Examples.branch_state 128 Examples.two_slots)
           (2 ^ 15) 64 (2 ^ 15) 64).
  - apply two_slots_wf. unfold is_u64, modulus. lia.
  - lia.
  - reflexivity.
  - reflexivity.
  - reflexivity.
  - reflexivity.
  - cbn. lia.
  - reflexivity.
Defined.

End SlqLifecycleFacts.

(** ** The window of a bucket *)

Module StatsWindowFacts.

Import RuntimeStats StatsWindow.

Lemma sum_times_app (l1 l2 : list Z) :
  sum_times (l1 ++ l2) = sum_times l1 + sum_times l2.
Proof.
  induction l1 as [|x l1 IH]; cbn [sum_times foldr app]; [reflexivity|].
  fold (sum_times (l1 ++ l2)) (sum_times l1). lia.
Qed.

Lemma sum_times_insert (l : list Z) (i : nat) (old v : Z) :
  l !! i = Some old -> sum_times (<[i := v]> l) = sum_times l - old + v.
Proof.
  revert i. induction l as [|x l IH]; intros i Hi; [discriminate|].
  destruct i as [|i]; cbn in Hi.
  - injection Hi as ->. cbn. fold (sum_times l). lia.
  - change (sum_times (<[S i := v]> (x :: l)))
      with (x + sum_times (<[i := v]> l)).
    change (sum_times (x :: l)) with (x + sum_times l).
    rewrite (IH i Hi). lia.
Qed.

Lemma zero_samples_snoc (samples : list Z) (v : Z) :
  zero_samples (samples ++ [v])
  = zero_samples samples + (if v =? 0 then 1 else 0).
Proof.
  unfold zero_samples. rewrite filter_app, length_app.
  destruct (Z.eqb_spec v 0) as [->|Hnz].
  - rewrite filter_cons_True, filter_nil by reflexivity. cbn [length]. lia.
  - rewrite filter_cons_False, filter_nil by exact Hnz. cbn [length]. lia.
Qed.

Lemma record_all_snoc (b : BucketStats) (samples : list Z) (v : Z) :
  record_all b (samples ++ [v]) = RecordValue (record_all b samples) v.
Proof. apply foldl_snoc. Qed.

Lemma window_inv_record (b0 : BucketStats) (samples : list Z) :
  fresh_window b0 -> window_inv b0 (record_all b0 samples) samples.
Proof.
  intros (Hvalid & Hidx & Hrep & Hsum & Hlen).
  induction samples as [|v samples IH] using rev_ind.
  - unfold window_inv, record_all. cbn [foldl length take].
    split; [exact Hlen|]. split; [exact Hrep|]. split; [reflexivity|].
    split.
    + intros _. repeat split; assumption.
    + unfold kMaxTimesToTrack. lia.
  - rewrite record_all_snoc. set (b := record_all b0 samples) in *.
    destruct IH as (Hl & Hr & Hp & Hbefore & Hafter).
    unfold window_inv. rewrite length_app. cbn [length].
    unfold RecordValue.
    cbn [bucket_times_ reported_idx_ paused_ valid_ idx_ cycled_
         average_ns_ sum_ns_].
    rewrite length_insert, Hl, Hr.
    split; [reflexivity|]. split; [reflexivity|]. split; [exact Hp|].
    unfold kMaxTimesToTrack in *.
    destruct (Nat.lt_ge_cases (length samples) 1024) as [Hlt|Hge].
    + destruct (Hbefore Hlt) as (Hv & Hi & Hc & Ha & Hs). clear Hbefore Hafter.
      rewrite Hv, Hi, Hs.
      assert (Hold : exists old, bucket_times_ b !! length samples = Some old).
      { apply lookup_lt_is_Some. lia. }
      destruct Hold as [old Hold].
      assert (Htake :
        take (S (length samples)) (<[length samples := v]> (bucket_times_ b))
        = take (length samples) (bucket_times_ b) ++ [v]).
      { rewrite (take_S_r _ _ v)
          by (apply list_lookup_insert_eq; lia).
        now rewrite take_insert_ge by lia. }
      split.
      * intros Hlt'.
        destruct (Nat.eqb_spec (length samples) (1024 - 1)) as [|_]; [lia|].
        replace (length samples + 1)%nat with (S (length samples)) by lia.
        rewrite Htake, sum_times_app, zero_samples_snoc.
        cbn [sum_times foldr]. repeat split; try assumption.
        destruct (Z.eqb_spec v 0); lia.
      * intros Hge'. assert (Hn : length samples = 1023%nat) by lia.
        destruct (Nat.eqb_spec (length samples) (1024 - 1)) as [_|]; [|lia].
        split; [reflexivity|]. split; [lia|]. split; [lia|].
        split; [reflexivity|].
        rewrite <- (take_ge (<[length samples := v]> (bucket_times_ b))
                      (S (length samples)))
          by (rewrite length_insert; lia).
        rewrite Htake, sum_times_app, zero_samples_snoc.
        cbn [sum_times foldr]. destruct (Z.eqb_spec v 0); lia.
    + destruct (Hafter Hge) as (Hv & Hi & Hc & Ha & Hs). clear Hbefore Hafter.
      rewrite Hv, Hs.
      assert (Hold : exists old, bucket_times_ b !! idx_ b = Some old).
      { apply lookup_lt_is_Some. lia. }
      destruct Hold as [old Hold]. rewrite Hold. cbn [default].
      split; [intros; lia|]. intros _.
      split; [now destruct (idx_ b =? 1024 - 1)%nat|]. split.
      { destruct (Nat.eqb_spec (idx_ b) (1024 - 1)); lia. }
      split; [destruct (idx_ b =? 1024 - 1)%nat; lia|].
      split; [now destruct (idx_ b =? 1024 - 1)%nat|].
      rewrite (sum_times_insert _ _ old v Hold), zero_samples_snoc.
      unfold id. destruct (Z.eqb_spec v 0); lia.
Qed.

(** X27.  A window is valid exactly when it was filled once.  From a
    bucket as the constructor or [Reset] leave it, after fewer than
    [kMaxTimesToTrack] samples the bucket is not valid, its average is as it
    was and it counts no cycle; from the sample that fills the window on,
    the bucket is valid. *)
Theorem window_valid_after_kMaxTimesToTrack (b0 : BucketStats)
    (samples : list Z) :
  fresh_window b0 ->
  ((length samples < kMaxTimesToTrack)%nat ->
   valid_ (record_all b0 samples) = false
   /\ average_ns_ (record_all b0 samples) = average_ns_ b0
   /\ cycled_ (record_all b0 samples) = cycled_ b0)
  /\ ((kMaxTimesToTrack <= length samples)%nat ->
      valid_ (record_all b0 samples) = true
      /\ cycled_ b0 < cycled_ (record_all b0 samples)).
Proof.
  intros Hfresh.
  destruct (window_inv_record b0 samples Hfresh)
    as (_ & _ & _ & Hbefore & Hafter).
  split.
  - intros Hlt. destruct (Hbefore Hlt) as (Hv & _ & Hc & Ha & _).
    repeat split; assumption.
  - intros Hge. destruct (Hafter Hge) as (Hv & _ & Hc & _).
    split; assumption.
Qed.

(** X28.  The running sum of a valid bucket.  From a bucket as the
    constructor or [Reset] leave it, once [kMaxTimesToTrack] samples or more
    were recorded, [sum_ns_] is the sum of the times that the window holds
    plus the number of samples that were zero, since ever: a sample of zero
    adds one to the sum and takes nothing from it when it leaves the
    window.  The average is that sum, converted to the unsigned 64-bit type
    of [kMaxTimesToTrack], divided by [kMaxTimesToTrack]: a sum below zero
    gives an average near [2^54].  When no sample was zero the sum is the
    sum of the window. *)
Theorem running_sum_of_window (b0 : BucketStats) (samples : list Z) :
  fresh_window b0 ->
  (kMaxTimesToTrack <= length samples)%nat ->
  sum_ns_ (record_all b0 samples)
  = sum_times (bucket_times_ (record_all b0 samples)) + zero_samples samples
  /\ average_ns_ (record_all b0 samples)
     = wrap64 (sum_ns_ (record_all b0 samples)) / Z.of_nat kMaxTimesToTrack
  /\ (Forall (fun v => v <> 0) samples ->
      sum_ns_ (record_all b0 samples)
      = sum_times (bucket_times_ (record_all b0 samples))).
Proof.
  intros Hfresh Hge.
  destruct (window_inv_record b0 samples Hfresh)
    as (_ & _ & _ & _ & Hafter).
  destruct (Hafter Hge) as (_ & _ & _ & Ha & Hs).
  split; [exact Hs|]. split; [exact Ha|].
  intros Hnz. rewrite Hs. unfold zero_samples.
  replace (filter (fun v => v = 0) samples) with (@nil Z); [cbn; lia|].
  symmetry. clear -Hnz. induction Hnz as [|v l Hv _ IH]; [reflexivity|].
  now rewrite filter_cons_False.
Qed.

(** X29.  The sample after a report counts as a cycle.  [Reported] on a
    valid bucket sets [reported_idx_] to [idx_], the place of the next
    sample, and [cycled_] to 0: the next [RecordValue] finds
    [idx_ == reported_idx_] and [cycled_] is 1 after one sample, while the
    bucket, its sum and its average go on as without the report. *)
Theorem sample_after_report_counts_a_cycle (b : BucketStats) (v : Z) :
  valid_ b = true ->
  cycled_ (RecordValue (Reported b) v) = 1
  /\ paused_ (RecordValue (Reported b) v) = 0
  /\ valid_ (RecordValue (Reported b) v) = true
  /\ sum_ns_ (RecordValue (Reported b) v) = sum_ns_ (RecordValue b v)
  /\ average_ns_ (RecordValue (Reported b) v) = average_ns_ (RecordValue b v)
  /\ bucket_times_ (RecordValue (Reported b) v)
     = bucket_times_ (RecordValue b v)
  /\ idx_ (RecordValue (Reported b) v) = idx_ (RecordValue b v).
Proof.
  intros Hvalid. unfold Reported, RecordValue. rewrite Hvalid.
  cbn [cycled_ paused_ valid_ sum_ns_ average_ns_ bucket_times_ idx_
       reported_idx_].
  rewrite Nat.eqb_refl.
  destruct (idx_ b =? reported_idx_ b)%nat; repeat split; reflexivity.
Qed.

Section Facts.

Variable InNanoseconds : Z -> Z.
Variable Nanoseconds : Z -> Z.
Variable DCHECKS_ARE_ON : bool.

Abbreviation AddStats :=
  (RuntimeStats.AddStats InNanoseconds Nanoseconds DCHECKS_ARE_ON).

Lemma at_bucket_Ret (buckets buckets' : list BucketStats) (i : nat)
    (f : BucketStats -> BucketStats) :
  at_bucket buckets i f = Ret buckets' ->
  exists b, buckets !! i = Some b /\ buckets' = <[i := f b]> buckets.
Proof.
  unfold at_bucket. destruct (buckets !! i) as [b|]; [|discriminate].
  intros [= <-]. now exists b.
Qed.

Lemma read_bucket_Ret (buckets : list BucketStats) (i : nat)
    (b : BucketStats) :
  read_bucket buckets i = Ret b -> buckets !! i = Some b.
Proof.
  unfold read_bucket. destruct (buckets !! i) as [b'|]; [|discriminate].
  now intros [= <-].
Qed.

(** X30.  [AddStats] moves [pause_until_] for one reason only.  If a call
    returns with [pause_until_] changed, then the tracker is initialised,
    [max_above_avg_zap_delta_] is not zero, the call had a zap start, the
    zap time is not zero, the window of the zap bucket is valid once this
    zap time is recorded, the zap time is above the average that the bucket
    had before the call by more than [max_above_avg_zap_delta_], and the new
    [pause_until_] is the end of the quarantine plus
    [long_zap_pause_delta_]. *)
Theorem pause_only_on_long_zap
    (st st' : SchedulerLoopQuarantineRuntimeStats) (bucket_index : nat)
    (quarantine_start purge_start zap_start quarantine_end : Z) :
  AddStats st bucket_index quarantine_start purge_start zap_start
    quarantine_end = Ret st' ->
  pause_until_ st' <> pause_until_ st ->
  initialized_ st = true
  /\ max_above_avg_zap_delta_ st <> 0
  /\ zap_start <> 0
  /\ quarantine_end - zap_start <> 0
  /\ pause_until_ st' = quarantine_end + long_zap_pause_delta_ st
  /\ exists zap_bucket,
       zap_buckets_ st !! bucket_index = Some zap_bucket
       /\ valid_
            (RecordValue zap_bucket
               (InNanoseconds (quarantine_end - zap_start))) = true
       /\ max_above_avg_zap_delta_ st
          < quarantine_end - zap_start
            - Nanoseconds (average_ns_ zap_bucket).
Proof.
  intros Hadd Hchanged. unfold RuntimeStats.AddStats in Hadd.
  destruct (initialized_ st) eqn:Hinit; cbn [negb] in Hadd.
  2:{ injection Hadd as <-. contradiction. }
  apply PoolManagerFacts.bind_Ret in Hadd as ([] & _ & Hadd).
  apply PoolManagerFacts.bind_Ret in Hadd as ([] & _ & Hadd).
  apply PoolManagerFacts.bind_Ret in Hadd as (total & _ & Hadd).
  apply PoolManagerFacts.bind_Ret in Hadd as (zap_bucket & Hzb & Hadd).
  apply read_bucket_Ret in Hzb.
  apply PoolManagerFacts.bind_Ret in Hadd as ([[zap_time zap] purge] & Hrec & Hadd).
  cbn [with_buckets zap_buckets_ max_above_avg_zap_delta_
       long_zap_pause_delta_ purge_buckets_ total_time_buckets_] in Hadd.
  apply PoolManagerFacts.bind_Ret in Hadd as (zap_bucket' & Hzb' & Hadd).
  apply read_bucket_Ret in Hzb'.
  destruct (valid_ zap_bucket') eqn:Hvalid; cbn [negb orb] in Hadd.
  2:{ injection Hadd as <-. contradiction. }
  destruct (Z.eqb_spec (max_above_avg_zap_delta_ st) 0) as [|Hmax];
    cbn [negb andb] in Hadd.
  { injection Hadd as <-. contradiction. }
  destruct (Z.eqb_spec zap_time 0) as [|Hzt]; cbn [negb] in Hadd.
  { injection Hadd as <-. contradiction. }
  destruct (Z.ltb_spec (max_above_avg_zap_delta_ st)
              (zap_time - Nanoseconds (average_ns_ zap_bucket)))
    as [Habove|_].
  2:{ injection Hadd as <-. contradiction. }
  apply PoolManagerFacts.bind_Ret in Hadd as ([] & _ & Hadd).
  apply PoolManagerFacts.bind_Ret in Hadd as (zap' & _ & Hadd).
  injection Hadd as <-. cbn [pause_until_ with_buckets with_pause_until].
  destruct (Z.eqb_spec zap_start 0) as [|Hzs]; cbn [negb] in Hrec.
  { destruct (negb (purge_start =? 0)).
    - apply PoolManagerFacts.bind_Ret in Hrec as (p & _ & Hrec).
      injection Hrec as <- _ _. contradiction.
    - injection Hrec as <- _ _. contradiction. }
  apply PoolManagerFacts.bind_Ret in Hrec as ([] & _ & Hrec).
  apply PoolManagerFacts.bind_Ret in Hrec as (p & _ & Hrec).
  apply PoolManagerFacts.bind_Ret in Hrec as (z & Hz & Hrec).
  injection Hrec as <- <- <-.
  apply at_bucket_Ret in Hz as (zb & Hzb2 & ->).
  rewrite Hzb in Hzb2. injection Hzb2 as <-.
  rewrite list_lookup_insert_eq in Hzb'
    by (eapply lookup_lt_Some; exact Hzb).
  injection Hzb' as <-.
  repeat split; try assumption.
  exists zap_bucket. repeat split; assumption.
Qed.

End Facts.

Lemma default_is_fresh : fresh_window BucketStats_default.
Proof. repeat split; reflexivity. Qed.

(** The theorem on a new bucket and 1024 samples of 2000 ns. *)
Lemma window_valid_after_kMaxTimesToTrack_witness :
  ((length (replicate 1024 2000) < kMaxTimesToTrack)%nat ->
   valid_ (record_all BucketStats_default (replicate 1024 2000)) = false
   /\ average_ns_ (record_all BucketStats_default (replicate 1024 2000))
      = average_ns_ BucketStats_default
   /\ cycled_ (record_all BucketStats_default (replicate 1024 2000))
      = cycled_ BucketStats_default)
  /\ ((kMaxTimesToTrack <= length (replicate 1024 2000))%nat ->
      valid_ (record_all BucketStats_default (replicate 1024 2000)) = true
      /\ cycled_ BucketStats_default
         < cycled_ (record_all BucketStats_default (replicate 1024 2000))).
Proof.
  apply (window_valid_after_kMaxTimesToTrack BucketStats_default
           (replicate 1024 2000)).
  exact default_is_fresh.
Defined.

(** The theorem on the same samples. *)
Lemma running_sum_of_window_witness :
  sum_ns_ (record_all BucketStats_default (replicate 1024 2000))
  = sum_times
      (bucket_times_ (record_all BucketStats_default (replicate 1024 2000)))
    + zero_samples (replicate 1024 2000)
  /\ average_ns_ (record_all BucketStats_default (replicate 1024 2000))
     = wrap64
         (sum_ns_ (record_all BucketStats_default (replicate 1024 2000)))
       / Z.of_nat kMaxTimesToTrack
  /\ (Forall (fun v => v <> 0) (replicate 1024 2000) ->
      sum_ns_ (record_all BucketStats_default (replicate 1024 2000))
      = sum_times
          (bucket_times_
             (record_all BucketStats_default (replicate 1024 2000)))).
Proof.
  apply (running_sum_of_window BucketStats_default (replicate 1024 2000)).
  - exact default_is_fresh.
  - rewrite length_replicate. reflexivity.
Defined.

(** The theorem on the bucket whose window was filled with samples of
    2000 ns. *)
Lemma sample_after_report_counts_a_cycle_witness :
  cycled_ (RecordValue (Reported Examples.warm_bucket) 5) = 1
  /\ paused_ (RecordValue (Reported Examples.warm_bucket) 5) = 0
  /\ valid_ (RecordValue (Reported Examples.warm_bucket) 5) = true
  /\ sum_ns_ (RecordValue (Reported Examples.warm_bucket) 5)
     = sum_ns_ (RecordValue Examples.warm_bucket 5)
  /\ average_ns_ (RecordValue (Reported Examples.warm_bucket) 5)
     = average_ns_ (RecordValue Examples.warm_bucket 5)
  /\ bucket_times_ (RecordValue (Reported Examples.warm_bucket) 5)
     = bucket_times_ (RecordValue Examples.warm_bucket 5)
  /\ idx_ (RecordValue (Reported Examples.warm_bucket) 5)
     = idx_ (RecordValue Examples.warm_bucket 5).
Proof.
  apply (sample_after_report_counts_a_cycle Examples.warm_bucket 5).
  reflexivity.
Defined.

(** The theorem on the long zap of 3800 ticks. *)
Lemma pause_only_on_long_zap_witness :
  initialized_ Examples.warm_stats = true
  /\ max_above_avg_zap_delta_ Examples.warm_stats <> 0
  /\ 1200 <> 0
  /\ 5000 - 1200 <> 0
  /\ pause_until_ MoreExamples.after_long_zap
     = 5000 + long_zap_pause_delta_ Examples.warm_stats
  /\ exists zap_bucket,
       zap_buckets_ Examples.warm_stats !! 0%nat = Some zap_bucket
       /\ valid_
            (RecordValue zap_bucket (Examples.InNanoseconds (5000 - 1200)))
          = true
       /\ max_above_avg_zap_delta_ Examples.warm_stats
          < 5000 - 1200 - Examples.Nanoseconds (average_ns_ zap_bucket).
Proof.
  apply (pause_only_on_long_zap Examples.InNanoseconds Examples.Nanoseconds
           true Examples.warm_stats MoreExamples.after_long_zap 0
           1000 1100 1200 5000).
  - vm_compute. reflexivity.
  - vm_compute. discriminate.
Defined.

End StatsWindowFacts.
